(** * pdf2txt: layout reconstruction (src/lib.ts)

    A shallow embedding of [reconstructLayout] and [extractTextFromPdf]
    and the properties of row clustering, spacing synthesis, page banners,
    debug output and the flat text.

    Modelling conventions.
    - JavaScript numbers that come from the document or the options
      (coordinates, sizes, [yTolerance], [characterWidthDivisor]) are finite
      and are modelled as exact rationals [Q].  Column positions are derived
      by a division, which yields NaN or an infinity when the divisor is
      zero: they are modelled by [num], integers extended with those values.
    - Strings are sequences of code units ([string]) of any length; [length]
      counts them.
    - [Array.prototype.sort] is modelled as a stable insertion sort driven by
      the sign of the comparator.
    - A [Map] is an association list in insertion order whose keys are
      compared as numbers ([Qeq_bool]).
    - [console.error] and exceptions are modelled by the monad [Run].
    - The properties that depend on the rounding of a difference of doubles
      or on the order the engine's sort produces are stated over a second
      embedding of the first pass, module [Double]: numbers are primitive
      floats (IEEE 754 binary64), the keys of the [Map] are compared as the
      language compares them, and the sort is any function with the
      guarantees of the language definition. *)

From Stdlib Require Import QArith Qabs Qround Qminmax ZArith List Bool Lia Lqa.
From Stdlib Require Import String Ascii DecimalString Permutation Sorted.
From Stdlib Require Import Floats.
Import ListNotations.

Local Open Scope string_scope.
Local Open Scope Q_scope.

(* ------------------------------------------------------------------ *)
(** ** Numbers *)

Definition Qltb (a b : Q) : bool := negb (Qle_bool b a).

(** Column positions: the result of [Math.round] and what is computed from
    it. *)
Inductive num : Type :=
| Fin (z : Z)
| PInf
| NInf
| NaN.

(** [Math.round(n / d)] for finite [n] and [d]. *)
Definition round_div (n d : Q) : num :=
  if Qeq_bool d 0 then
    if Qltb 0 n then PInf else if Qltb n 0 then NInf else NaN
  else Fin (Qfloor (n / d + (1 # 2))).

Definition num_sub (a b : num) : num :=
  match a, b with
  | NaN, _ | _, NaN => NaN
  | Fin u, Fin v => Fin (u - v)
  | Fin _, PInf => NInf
  | Fin _, NInf => PInf
  | PInf, PInf => NaN
  | PInf, _ => PInf
  | NInf, NInf => NaN
  | NInf, _ => NInf
  end.

(** [a + k] for a finite integer [k]. *)
Definition num_addz (a : num) (k : Z) : num :=
  match a with
  | Fin u => Fin (u + k)
  | other => other
  end.

(** [Math.max(0, a)]. *)
Definition num_max0 (a : num) : num :=
  match a with
  | Fin u => Fin (Z.max 0 u)
  | PInf => PInf
  | NInf => Fin 0
  | NaN => NaN
  end.

(** [a > 0]. *)
Definition num_gt0 (a : num) : bool :=
  match a with
  | Fin u => (0 <? u)%Z
  | PInf => true
  | _ => false
  end.

(** [a < 3]. *)
Definition num_lt3 (a : num) : bool :=
  match a with
  | Fin u => (u <? 3)%Z
  | NInf => true
  | _ => false
  end.

(* ------------------------------------------------------------------ *)
(** ** Effects: the diagnostic channel and exceptions *)

Inductive result (A : Type) : Type :=
| Ok (a : A)
| Err (message : string).
Arguments Ok {A} a.
Arguments Err {A} message.

(** A computation writes lines to [console.error] and then returns or
    throws. *)
Definition Run (A : Type) : Type := (list string * result A)%type.

Definition ret {A} (a : A) : Run A := ([], Ok a).
Definition throw {A} (m : string) : Run A := ([], Err m).
Definition tell (line : string) : Run unit := ([line], Ok tt).
Definition bind {A B} (m : Run A) (k : A -> Run B) : Run B :=
  match m with
  | (w, Ok a) => let '(w', r) := k a in (w ++ w', r)%list
  | (w, Err e) => (w, Err e)
  end.
Definition stderr {A} (m : Run A) : list string := fst m.
Definition value {A} (m : Run A) : result A := snd m.

Notation "x <- m ;; k" := (bind m (fun x => k))
  (at level 61, m at next level, right associativity).
Notation "m ;;; k" := (bind m (fun _ => k))
  (at level 61, right associativity).

(* ------------------------------------------------------------------ *)
(** ** Public types *)

Record Required_PdfExtractionOptions : Type := {
  includeLayout : bool;
  yTolerance : Q;
  characterWidthDivisor : Q;
  enableDebug : bool
}.

(** [PdfExtractionOptions]: every property may be absent. *)
Record PdfExtractionOptions : Type := {
  opt_includeLayout : option bool;
  opt_yTolerance : option Q;
  opt_characterWidthDivisor : option Q;
  opt_enableDebug : option bool
}.

Record TextItem : Type := {
  str : string;
  dir : string;
  width : Q;
  height : Q;
  transform : list Q;
  fontName : string;
  hasEOL : bool;
  x : Q;
  y : Q
}.

Record Viewport : Type := {
  vp_width : Q;
  vp_height : Q;
  vp_scale : Q
}.

Record PageLayoutData : Type := {
  pageNumber : Z;
  textItems : list TextItem;
  viewport : Viewport
}.

(* ------------------------------------------------------------------ *)
(** ** Array.prototype.sort *)

Section Sort.
Context {A : Type} (cmp : A -> A -> Q).

(** [v] goes before the first element it compares below. *)
Fixpoint sort_insert (v : A) (l : list A) : list A :=
  match l with
  | [] => [v]
  | h :: t => if Qltb (cmp v h) 0 then v :: h :: t else h :: sort_insert v t
  end.

Definition array_sort (l : list A) : list A :=
  fold_left (fun acc v => sort_insert v acc) l [].

(** [a] may stand before [b]. *)
Definition in_order (a b : A) : Prop := cmp a b <= 0.
End Sort.

(* ------------------------------------------------------------------ *)
(** ** reconstructLayout: ordering and clustering *)

(** The comparator of the initial sort. *)
Definition compareItems (a b : TextItem) : Q :=
  let yDiff := y b - y a in
  if Qltb (Qabs yDiff) 10 then x a - x b else yDiff.

Definition sortedItems (page : PageLayoutData) : list TextItem :=
  array_sort compareItems (textItems page).

(** [yGroups]: groups in creation order, keyed by their anchor y. *)
Definition YGroups : Type := list (Q * list TextItem).

(** The scan [for (const [groupY, groupItems] of yGroups.entries())]: the
    item is pushed on the first group within the tolerance; [None] when the
    scan ends with [foundGroup] still false. *)
Fixpoint push_to_group (yTol : Q) (item : TextItem) (groups : YGroups)
  : option YGroups :=
  match groups with
  | [] => None
  | (groupY, groupItems) :: rest =>
      if Qltb (Qabs (y item - groupY)) yTol
      then Some ((groupY, groupItems ++ [item])%list :: rest)
      else option_map (cons (groupY, groupItems)) (push_to_group yTol item rest)
  end.

(** [Map.prototype.set]: an existing key keeps its place and gets the new
    value, a new key is added at the end. *)
Fixpoint map_set (key : Q) (v : list TextItem) (groups : YGroups) : YGroups :=
  match groups with
  | [] => [(key, v)]
  | (k, old) :: rest =>
      if Qeq_bool k key then (k, v) :: rest else (k, old) :: map_set key v rest
  end.

Definition cluster_step (yTol : Q) (groups : YGroups) (item : TextItem)
  : YGroups :=
  match push_to_group yTol item groups with
  | Some groups' => groups'
  | None => map_set (y item) [item] groups
  end.

(** First pass over the items in processing order. *)
Definition cluster (yTol : Q) (items : list TextItem) : YGroups :=
  fold_left (cluster_step yTol) items [].

Definition yGroups (opts : Required_PdfExtractionOptions)
  (page : PageLayoutData) : YGroups :=
  cluster (yTolerance opts) (sortedItems page).

(* ------------------------------------------------------------------ *)
(** ** Strings *)

Definition nl : string := String (ascii_of_nat 10) EmptyString.
Definition dquote : string := String (ascii_of_nat 34) EmptyString.

(** [s.repeat(n)] for a natural count. *)
Fixpoint str_repeat (s : string) (n : nat) : string :=
  match n with
  | O => EmptyString
  | S k => s ++ str_repeat s k
  end.

(** ToString of an integer, as a template literal prints it. *)
Definition show_Z (z : Z) : string := NilZero.string_of_int (Z.to_int z).

(** White space and line terminators among the code units below 256. *)
Definition is_space (c : ascii) : bool :=
  let n := nat_of_ascii c in
  (Nat.eqb n 9 || Nat.eqb n 10 || Nat.eqb n 11 || Nat.eqb n 12
   || Nat.eqb n 13 || Nat.eqb n 32 || Nat.eqb n 160)%bool.

(** [String.prototype.trimEnd]. *)
Fixpoint trimEnd (s : string) : string :=
  match s with
  | EmptyString => EmptyString
  | String c rest =>
      match trimEnd rest with
      | EmptyString => if is_space c then EmptyString else String c EmptyString
      | kept => String c kept
      end
  end.

(** [" ".repeat(count)]: a RangeError for a negative or infinite count. *)
Definition repeat_space (count : num) : result string :=
  match count with
  | Fin z =>
      if (z <? 0)%Z then Err ("Invalid count value: " ++ show_Z z)
      else Ok (str_repeat " " (Z.to_nat z))
  | PInf => Err "Invalid count value: Infinity"
  | NInf => Err "Invalid count value: -Infinity"
  | NaN => Ok EmptyString
  end.

(** [q.toFixed(2)] for |q| < 10^21: the nearest multiple of 1/100, ties
    away from zero, printed with two decimals. *)
Definition toFixed2 (q : Q) : string :=
  let n := Qfloor (Qabs q * 100 + (1 # 2)) in
  let frac := (n mod 100)%Z in
  (if Qltb q 0 then "-" else EmptyString)
    ++ show_Z (n / 100)%Z ++ "."
    ++ (if (frac <? 10)%Z then "0" else EmptyString) ++ show_Z frac.

(* ------------------------------------------------------------------ *)
(** ** reconstructLayout: lines and debug output *)

Definition debug_line (item : TextItem) (count : nat) : string :=
  "DEBUG: " ++ dquote ++ str item ++ dquote
    ++ " y=" ++ toFixed2 (y item) ++ " x=" ++ toFixed2 (x item)
    ++ " grouped with " ++ show_Z (Z.of_nat count) ++ " items".

Fixpoint debug_items (items : list TextItem) (count : nat) : Run unit :=
  match items with
  | [] => ret tt
  | item :: rest => tell (debug_line item count) ;;; debug_items rest count
  end.

(** [Array.from(yGroups.entries()).sort(([a], [b]) => b - a)]. *)
Definition sortedYGroups (groups : YGroups) : YGroups :=
  array_sort (fun a b => fst b - fst a) groups.

Definition sort_by_x (groupItems : list TextItem) : list TextItem :=
  array_sort (fun a b => x a - x b) groupItems.

(** Second pass: every group becomes a line sorted by x and, when debug is
    on, is reported item by item. *)
Fixpoint second_pass (opts : Required_PdfExtractionOptions)
  (groups : YGroups) : Run (list (list TextItem)) :=
  match groups with
  | [] => ret []
  | (_, groupItems) :: rest =>
      let groupItems := sort_by_x groupItems in
      (if enableDebug opts
       then debug_items groupItems (List.length groupItems)
       else ret tt) ;;;
      lines <- second_pass opts rest ;;
      ret (groupItems :: lines)
  end.

(** The [lines] of a page: its row-groups from top to bottom. *)
Definition page_lines (opts : Required_PdfExtractionOptions)
  (page : PageLayoutData) : Run (list (list TextItem)) :=
  second_pass opts (sortedYGroups (yGroups opts page)).

(** [Math.min(...xs)]; [None] stands for the Infinity of an empty list. *)
Definition math_min (xs : list Q) : option Q :=
  match xs with
  | [] => None
  | h :: t => Some (fold_left Qmin t h)
  end.

(* ------------------------------------------------------------------ *)
(** ** reconstructLayout: spacing synthesis *)

Definition targetPos_of (leftmostX divisor : Q) (item : TextItem) : num :=
  round_div (x item - leftmostX) divisor.

Definition str_length (item : TextItem) : Z := Z.of_nat (String.length (str item)).

(** The body of the loop [for (let i = 0; i < line.length; i++)] for
    [item = line[i]], with [next] standing for [line[i + 1]] when
    [i < line.length - 1]: from the running [lineText] and [lastPos] to
    their values after the iteration. *)
Definition render_step (leftmostX divisor : Q) (item : TextItem)
  (next : option TextItem) (lineText : string) (lastPos : num)
  : result (string * num) :=
  let targetPos := targetPos_of leftmostX divisor item in
  let spacesNeeded := num_max0 (num_sub targetPos lastPos) in
  match (if num_gt0 spacesNeeded then repeat_space spacesNeeded
         else Ok EmptyString) with
  | Err m => Err m
  | Ok pad =>
      let lineText := lineText ++ pad ++ str item in
      let lastPos := num_addz targetPos (str_length item) in
      match next with
      | Some nextItem =>
          let nextTargetPos := targetPos_of leftmostX divisor nextItem in
          let gapSize :=
            num_sub nextTargetPos (num_addz targetPos (str_length item)) in
          if (num_gt0 gapSize && num_lt3 gapSize)%bool
          then Ok (lineText ++ " ", num_addz lastPos 1)
          else Ok (lineText, lastPos)
      | None => Ok (lineText, lastPos)
      end
  end.

(** The loop, from item [i] on. *)
Fixpoint render_items (leftmostX divisor : Q) (line : list TextItem)
  (lineText : string) (lastPos : num) : result string :=
  match line with
  | [] => Ok lineText
  | item :: rest =>
      match render_step leftmostX divisor item (hd_error rest)
              lineText lastPos with
      | Ok (lineText', lastPos') =>
          render_items leftmostX divisor rest lineText' lastPos'
      | Err m => Err m
      end
  end.

(** One line of the page, appended to [layoutText]. *)
Definition render_line (leftmostX divisor : Q) (line : list TextItem)
  (layoutText : string) : result string :=
  match line with
  | [] => Ok layoutText
  | _ :: _ =>
      match render_items leftmostX divisor line EmptyString (Fin 0) with
      | Ok lineText => Ok (layoutText ++ trimEnd lineText ++ nl)
      | Err m => Err m
      end
  end.

Fixpoint render_lines (leftmostX divisor : Q) (lines : list (list TextItem))
  (layoutText : string) : result string :=
  match lines with
  | [] => Ok layoutText
  | line :: rest =>
      match render_line leftmostX divisor line layoutText with
      | Ok layoutText' => render_lines leftmostX divisor rest layoutText'
      | Err m => Err m
      end
  end.

(* ------------------------------------------------------------------ *)
(** ** reconstructLayout: pages *)

Definition separator_rule : string := str_repeat "=" 80.

Definition banner (n : Z) : string :=
  (nl ++ nl ++ separator_rule ++ nl)
    ++ ("Page " ++ show_Z n ++ nl)
    ++ (separator_rule ++ nl ++ nl).

(** The body of the loop after the banner. *)
Definition page_content (opts : Required_PdfExtractionOptions)
  (page : PageLayoutData) (layoutText : string) : Run string :=
  match sortedItems page with
  | [] => ret layoutText
  | _ :: _ =>
      lines <- page_lines opts page ;;
      match math_min (map x (textItems page)) with
      | None => ret layoutText
      | Some leftmostX =>
          ([], render_lines leftmostX (characterWidthDivisor opts) lines
                 layoutText)
      end
  end.

Definition render_page (opts : Required_PdfExtractionOptions)
  (page : PageLayoutData) (layoutText : string) : Run string :=
  let layoutText :=
    if (1 <? pageNumber page)%Z
    then layoutText ++ banner (pageNumber page)
    else layoutText in
  page_content opts page layoutText.

Fixpoint reconstruct_pages (opts : Required_PdfExtractionOptions)
  (pageLayouts : list PageLayoutData) (layoutText : string) : Run string :=
  match pageLayouts with
  | [] => ret layoutText
  | page :: rest =>
      layoutText' <- render_page opts page layoutText ;;
      reconstruct_pages opts rest layoutText'
  end.

Definition reconstructLayout (pageLayouts : list PageLayoutData)
  (opts : Required_PdfExtractionOptions) : Run string :=
  reconstruct_pages opts pageLayouts EmptyString.

(* ------------------------------------------------------------------ *)
(** ** extractTextFromPdf *)

(** What PDF.js hands over: the transform of a text item has six entries,
    the last two being its position. *)
Record Matrix : Type := {
  m0 : Q; m1 : Q; m2 : Q; m3 : Q; m4 : Q; m5 : Q
}.

Definition matrix_entries (m : Matrix) : list Q :=
  [m0 m; m1 m; m2 m; m3 m; m4 m; m5 m].

Record PdfTextItem : Type := {
  pdf_str : string;
  pdf_dir : string;
  pdf_width : Q;
  pdf_height : Q;
  pdf_transform : Matrix;
  pdf_fontName : string;
  pdf_hasEOL : bool
}.

(** The items of [getTextContent()]: text items and marked content, which
    has no [str]. *)
Inductive ContentItem : Type :=
| TextContent (item : PdfTextItem)
| MarkedContent.

Record PdfPage : Type := {
  getTextContent : list ContentItem;
  getViewport : Viewport
}.

Record PdfInfo : Type := {
  Title : option string;
  Author : option string;
  Subject : option string;
  Creator : option string;
  Producer : option string;
  CreationDate : option string;
  ModDate : option string
}.

(** A loaded document; [numPages] is the number of its pages. *)
Record PdfDocument : Type := {
  doc_pages : list PdfPage;
  doc_version : option string;
  getMetadata : option PdfInfo
}.

Definition numPages (pdf : PdfDocument) : Z := Z.of_nat (List.length (doc_pages pdf)).

Record PdfMetadata : Type := {
  title : option string;
  author : option string;
  subject : option string;
  creator : option string;
  producer : option string;
  creationDate : option string;
  modificationDate : option string;
  meta_pages : Z
}.

Record RawData : Type := {
  textLength : nat;
  hasMetadata : bool;
  pdfVersion : string;
  totalTextItems : nat
}.

Record PdfLayoutData : Type := {
  text : string;
  layoutText : string;
  metadata : PdfMetadata;
  version : string;
  pages : Z;
  pageLayouts : list PageLayoutData;
  rawData : RawData
}.

Inductive PdfExtractionResult : Type :=
| FlatText (extractedText : string)
| LayoutData (data : PdfLayoutData).

(** The first argument, and the collaborators that read and parse it. *)
Inductive Source : Type :=
| Path (filePath : string)
| Buffer (bytes : list Byte.byte).

Record Env : Type := {
  readFile : string -> result (list Byte.byte);
  getDocument : list Byte.byte -> result PdfDocument
}.

Definition lift {A} (r : result A) : Run A := ([], r).

(** [try { body } catch (error) { handler }]. *)
Definition try_catch {A} (body : Run A) (handler : string -> Run A) : Run A :=
  match body with
  | (w, Ok a) => (w, Ok a)
  | (w, Err e) => let '(w', r) := handler e in ((w ++ w')%list, r)
  end.

(** The spread of the defaults and the caller's options: a property the
    caller gives replaces the default (with [exactOptionalPropertyTypes] a
    property is a value or absent). *)
Definition with_defaults (options : PdfExtractionOptions)
  : Required_PdfExtractionOptions :=
  {| includeLayout := match opt_includeLayout options with
                      | Some b => b | None => false end;
     yTolerance := match opt_yTolerance options with
                   | Some t => t | None => 2 end;
     characterWidthDivisor := match opt_characterWidthDivisor options with
                              | Some d => d | None => 4 end;
     enableDebug := match opt_enableDebug options with
                    | Some b => b | None => false end |}.

Definition to_TextItem (item : PdfTextItem) : TextItem :=
  {| str := pdf_str item;
     dir := pdf_dir item;
     width := pdf_width item;
     height := pdf_height item;
     transform := matrix_entries (pdf_transform item);
     fontName := pdf_fontName item;
     hasEOL := pdf_hasEOL item;
     x := m4 (pdf_transform item);
     y := m5 (pdf_transform item) |}.

(** The inner loop over the content items of one page, on the page's
    [textItems] and the document's [extractedText]. *)
Definition collect_item (st : list TextItem * string) (c : ContentItem)
  : list TextItem * string :=
  match c with
  | MarkedContent => st
  | TextContent item =>
      let '(textItems, extractedText) := st in
      let extractedText := extractedText ++ pdf_str item in
      ((textItems ++ [to_TextItem item])%list,
       if pdf_hasEOL item then extractedText ++ nl else extractedText)
  end.

Record Collected : Type := {
  extractedText : string;
  collectedLayouts : list PageLayoutData;
  collectedItems : nat
}.

(** The loop [for (pageNumber = 1; pageNumber <= pdf.numPages; ...)], from
    [pageNumber] on. *)
Fixpoint collect_pages (opts : Required_PdfExtractionOptions)
  (remaining : list PdfPage) (pageNumber : Z) (st : Collected) : Collected :=
  match remaining with
  | [] => st
  | page :: rest =>
      let '(textItems, extractedText) :=
        fold_left collect_item (getTextContent page) ([], extractedText st) in
      collect_pages opts rest (pageNumber + 1)%Z
        {| extractedText := extractedText;
           collectedLayouts :=
             if includeLayout opts
             then (collectedLayouts st
                     ++ [ {| pageNumber := pageNumber;
                             textItems := textItems;
                             viewport := getViewport page |} ])%list
             else collectedLayouts st;
           collectedItems := (collectedItems st + List.length textItems)%nat |}
  end.

(** [s || null] and [s || "unknown"]. *)
Definition or_null (s : option string) : option string :=
  match s with
  | Some EmptyString => None
  | other => other
  end.

Definition or_unknown (s : option string) : string :=
  match or_null s with
  | Some v => v
  | None => "unknown"
  end.

Definition info_field (info : option PdfInfo) (f : PdfInfo -> option string)
  : option string :=
  match info with
  | Some i => or_null (f i)
  | None => None
  end.

(** The object returned when the layout is requested. *)
Definition layout_data (pdf : PdfDocument) (st : Collected)
  (layoutText : string) : PdfLayoutData :=
  let info := getMetadata pdf in
  {| text := extractedText st;
     layoutText := layoutText;
     metadata :=
       {| title := info_field info Title;
          author := info_field info Author;
          subject := info_field info Subject;
          creator := info_field info Creator;
          producer := info_field info Producer;
          creationDate := info_field info CreationDate;
          modificationDate := info_field info ModDate;
          meta_pages := numPages pdf |};
     version := or_unknown (doc_version pdf);
     pages := numPages pdf;
     pageLayouts := collectedLayouts st;
     rawData :=
       {| textLength := String.length (extractedText st);
          hasMetadata := match info with
                         | Some _ => true | None => false end;
          pdfVersion := or_unknown (doc_version pdf);
          totalTextItems := collectedItems st |} |}.

Definition collect (opts : Required_PdfExtractionOptions)
  (pdf : PdfDocument) : Collected :=
  collect_pages opts (doc_pages pdf) 1
    {| extractedText := EmptyString;
       collectedLayouts := [];
       collectedItems := 0 |}.

Definition extractTextFromPdf (env : Env) (filePath : Source)
  (options : PdfExtractionOptions) : Run PdfExtractionResult :=
  let opts := with_defaults options in
  try_catch
    (pdfBuffer <- match filePath with
                  | Path p => lift (readFile env p)
                  | Buffer b => ret b
                  end ;;
     pdf <- lift (getDocument env pdfBuffer) ;;
     let st := collect opts pdf in
     if includeLayout opts then
       layoutText <- reconstructLayout (collectedLayouts st) opts ;;
       ret (LayoutData (layout_data pdf st layoutText))
     else ret (FlatText (extractedText st)))
    (fun errorMessage =>
       throw ("Failed to extract text from PDF: " ++ errorMessage)).

(* ------------------------------------------------------------------ *)
(** * Vocabulary of the properties and concrete inputs *)

(** The test of the scan: the item is strictly within the tolerance of the
    group's anchor. *)
Definition within (yTol : Q) (item : TextItem) (g : Q * list TextItem) : Prop :=
  Qabs (y item - fst g) < yTol.

(** A group is anchored at the y of its first item and holds only items
    within the tolerance of that anchor. *)
Definition anchored (yTol : Q) (g : Q * list TextItem) : Prop :=
  (exists first others, snd g = first :: others /\ y first = fst g)
  /\ Forall (fun item => within yTol item g) (snd g).

(** The description of the line assembly, on integer columns:
    [targetColumn = round((x - leftmostX) / characterWidthDivisor)];
    for every fragment, [gap = max(0, targetColumn - cursor)] spaces, the
    content, the cursor set to [targetColumn + length(content)], and one
    more space with the cursor advanced by one exactly when a next fragment
    exists whose target column minus the cursor lies strictly between 0
    and 3. *)
Definition targetColumn (leftmostX divisor : Q) (f : TextItem) : Z :=
  Qfloor ((x f - leftmostX) / divisor + (1 # 2)).

Definition bridge_needed (col : TextItem -> Z) (cursor : Z)
  (next : option TextItem) : bool :=
  match next with
  | Some f => ((0 <? col f - cursor) && (col f - cursor <? 3))%Z
  | None => false
  end.

Fixpoint assemble_line (col : TextItem -> Z) (row : list TextItem)
  (cursor : Z) : string :=
  match row with
  | [] => EmptyString
  | f :: rest =>
      let gap := Z.max 0 (col f - cursor) in
      let cursor1 := (col f + str_length f)%Z in
      let extra := bridge_needed col cursor1 (hd_error rest) in
      str_repeat " " (Z.to_nat gap) ++ str f
        ++ (if extra then " " else EmptyString)
        ++ assemble_line col rest (if extra then cursor1 + 1 else cursor1)%Z
  end.

(** The white space of [trimEnd] among the code units below 256: tab, line
    feed, vertical tab, form feed, carriage return, space and no-break
    space. *)
Definition white_space (c : ascii) : Prop :=
  In (nat_of_ascii c) [9; 10; 11; 12; 13; 32; 160]%nat.

Fixpoint all_space (s : string) : Prop :=
  match s with
  | EmptyString => True
  | String c rest => white_space c /\ all_space rest
  end.

(** [t] is [s] without its trailing white space. *)
Definition stripped (s t : string) : Prop :=
  (exists ws, s = t ++ ws /\ all_space ws)
  /\ forall pre c, t = pre ++ String c EmptyString -> ~ white_space c.

Definition result_map {A B} (f : A -> B) (r : result A) : result B :=
  match r with
  | Ok a => Ok (f a)
  | Err e => Err e
  end.

(** The number of places of [s] where [pat] occurs. *)
Fixpoint occurrences (pat s : string) : nat :=
  match s with
  | EmptyString => if prefix pat EmptyString then 1 else 0
  | String _ rest =>
      ((if prefix pat s then 1 else 0) + occurrences pat rest)%nat
  end.

(** What every banner starts with, up to the page number. *)
Definition banner_start : string :=
  nl ++ nl ++ separator_rule ++ nl ++ "Page ".

(** Reading and parsing, as the entry point chains them. *)
Definition load (env : Env) (filePath : Source) : result PdfDocument :=
  match filePath with
  | Path p =>
      match readFile env p with
      | Ok pdfBuffer => getDocument env pdfBuffer
      | Err e => Err e
      end
  | Buffer b => getDocument env b
  end.

Definition wrapped (e : string) : string :=
  "Failed to extract text from PDF: " ++ e.

Definition with_debug (b : bool) (options : PdfExtractionOptions)
  : PdfExtractionOptions :=
  {| opt_includeLayout := opt_includeLayout options;
     opt_yTolerance := opt_yTolerance options;
     opt_characterWidthDivisor := opt_characterWidthDivisor options;
     opt_enableDebug := Some b |}.

Definition set_debug (b : bool) (opts : Required_PdfExtractionOptions)
  : Required_PdfExtractionOptions :=
  {| includeLayout := includeLayout opts;
     yTolerance := yTolerance opts;
     characterWidthDivisor := characterWidthDivisor opts;
     enableDebug := b |}.

(** The fragments of a page and of a document, in parse order. *)
Definition page_items (page : PdfPage) : list TextItem :=
  flat_map (fun c => match c with
                     | TextContent item => [to_TextItem item]
                     | MarkedContent => []
                     end) (getTextContent page).

Definition document_items (pdf : PdfDocument) : list TextItem :=
  flat_map page_items (doc_pages pdf).

(** The contents one after the other, with nothing in between. *)
Definition plain_concat (items : list TextItem) : string :=
  fold_right (fun item rest => str item ++ rest) EmptyString items.

(** The contents one after the other, each followed by a newline when the
    fragment has [hasEOL]. *)
Definition concat_with_eol (items : list TextItem) : string :=
  fold_right
    (fun item rest =>
       str item ++ (if hasEOL item then nl else EmptyString) ++ rest)
    EmptyString items.

Definition fragment (s : string) (fx fy : Q) : TextItem :=
  {| str := s; dir := "ltr"; width := 0; height := 0;
     transform := [1; 0; 0; 1; fx; fy]; fontName := "g_d0_f1";
     hasEOL := false; x := fx; y := fy |}.

Definition ex_viewport : Viewport :=
  {| vp_width := 612; vp_height := 792; vp_scale := 1 |}.

Definition ex_opts : Required_PdfExtractionOptions :=
  {| includeLayout := true; yTolerance := 2; characterWidthDivisor := 4;
     enableDebug := false |}.

(** Three fragments: two within the tolerance, one a row below. *)
Definition ex_page : PageLayoutData :=
  {| pageNumber := 1;
     textItems := [fragment "Name" 0 100; fragment "Age" 40 101;
                   fragment "Ada" 0 88];
     viewport := ex_viewport |}.

Definition ex_page2 : PageLayoutData :=
  {| pageNumber := 2; textItems := [fragment "B" 10 700];
     viewport := ex_viewport |}.

(** Two fragments at the same height, the right one first. *)
Definition ex_page_row : PageLayoutData :=
  {| pageNumber := 1;
     textItems := [fragment "Age" 40 100; fragment "Name" 0 100];
     viewport := ex_viewport |}.

Definition pdf_item (s : string) (fx fy : Q) (eol : bool) : PdfTextItem :=
  {| pdf_str := s; pdf_dir := "ltr"; pdf_width := 0; pdf_height := 0;
     pdf_transform := {| m0 := 1; m1 := 0; m2 := 0; m3 := 1;
                         m4 := fx; m5 := fy |};
     pdf_fontName := "g_d0_f1"; pdf_hasEOL := eol |}.

(** One page: "Name" ending its line, then "Age". *)
Definition ex_doc : PdfDocument :=
  {| doc_pages :=
       [ {| getTextContent := [TextContent (pdf_item "Name" 0 100 true);
                               MarkedContent;
                               TextContent (pdf_item "Age" 40 100 false)];
            getViewport := ex_viewport |} ];
     doc_version := None;
     getMetadata := None |}.

(** Collaborators that find no file and parse every buffer to [ex_doc]. *)
Definition ex_env : Env :=
  {| readFile := fun _ => Err "No such file or directory (os error 2)";
     getDocument := fun _ => Ok ex_doc |}.

Definition no_options : PdfExtractionOptions :=
  {| opt_includeLayout := None; opt_yTolerance := None;
     opt_characterWidthDivisor := None; opt_enableDebug := None |}.

(** The layout requested with a zero tolerance and a negative divisor. *)
Definition ex_bad_options : PdfExtractionOptions :=
  {| opt_includeLayout := Some true; opt_yTolerance := Some 0;
     opt_characterWidthDivisor := Some (-4); opt_enableDebug := None |}.

(* ------------------------------------------------------------------ *)
(** * The convenience entry points and further vocabulary *)

(** [extractText]: the entry point with [{ includeLayout: false }]; the
    result is returned under the type [string] without a test. *)
Definition extractText (env : Env) (filePath : Source)
  : Run PdfExtractionResult :=
  extractTextFromPdf env filePath
    {| opt_includeLayout := Some false; opt_yTolerance := None;
       opt_characterWidthDivisor := None; opt_enableDebug := None |}.

(** [extractLayoutData]: the entry point with
    [{ ...options, includeLayout: true }]; the result is returned under the
    type [PdfLayoutData] without a test. *)
Definition extractLayoutData (env : Env) (filePath : Source)
  (options : PdfExtractionOptions) : Run PdfExtractionResult :=
  extractTextFromPdf env filePath
    {| opt_includeLayout := Some true;
       opt_yTolerance := opt_yTolerance options;
       opt_characterWidthDivisor := opt_characterWidthDivisor options;
       opt_enableDebug := opt_enableDebug options |}.

(** The fragments of all the groups, group after group. *)
Definition members (groups : YGroups) : list TextItem :=
  List.concat (map snd groups).

(** The line assembly without the look-ahead step: the gap and the
    content, fragment after fragment. *)
Fixpoint plain_line (col : TextItem -> Z) (row : list TextItem) (cursor : Z)
  : string :=
  match row with
  | [] => EmptyString
  | f :: rest =>
      str_repeat " " (Z.to_nat (Z.max 0 (col f - cursor))) ++ str f
        ++ plain_line col rest (col f + str_length f)%Z
  end.

(** No fragment of the row reaches beyond the target column of the next. *)
Fixpoint no_overrun (col : TextItem -> Z) (cursor : Z) (row : list TextItem)
  : Prop :=
  match row with
  | [] => True
  | f :: rest =>
      (cursor <= col f)%Z /\ no_overrun col (col f + str_length f)%Z rest
  end.

(** A group of one fragment, keyed by the y of that fragment. *)
Definition lone (g : Q * list TextItem) : Prop :=
  exists item, snd g = [item] /\ fst g == y item.

(** [a'] is [a] with its x scaled by [s] and moved by [cx], its y moved by
    [cy], the same content, and any other fields. *)
Definition moved (s cx cy : Q) (a a' : TextItem) : Prop :=
  str a' = str a /\ x a' == s * x a + cx /\ y a' == y a + cy.

Definition group_moved (s cx cy : Q) (g g' : Q * list TextItem) : Prop :=
  fst g' == fst g + cy /\ Forall2 (moved s cx cy) (snd g) (snd g').

(** [p'] is [p] with all its fragments moved alike, the same page number,
    and any viewport. *)
Definition page_moved (s : Q) (p p' : PageLayoutData) : Prop :=
  pageNumber p' = pageNumber p
  /\ exists cx cy, Forall2 (moved s cx cy) (textItems p) (textItems p').

(** [a'] has the content and the position of [a], and any other fields. *)
Definition same_fragment (a a' : TextItem) : Prop :=
  str a' = str a /\ x a' == x a /\ y a' == y a.

(** [p'] has the page number of [p] and, one by one, fragments with the
    contents and positions of its fragments, and any viewport. *)
Definition same_page (p p' : PageLayoutData) : Prop :=
  pageNumber p' = pageNumber p
  /\ Forall2 same_fragment (textItems p) (textItems p').

(** Further concrete inputs. *)
Definition ex_debug_opts : Required_PdfExtractionOptions :=
  {| includeLayout := true; yTolerance := 2; characterWidthDivisor := 4;
     enableDebug := true |}.

Definition ex_zero_tolerance_opts : Required_PdfExtractionOptions :=
  {| includeLayout := true; yTolerance := 0; characterWidthDivisor := 4;
     enableDebug := false |}.

Definition ex_empty_page : PageLayoutData :=
  {| pageNumber := 2; textItems := []; viewport := ex_viewport |}.

(** [ex_page] with other fonts, sizes, directions, transforms and [hasEOL]
    flags, on a larger sheet: contents and positions are untouched. *)
Definition ex_page_restyled : PageLayoutData :=
  {| pageNumber := 1;
     textItems :=
       [ {| str := "Name"; dir := "rtl"; width := 30; height := 12;
            transform := [2; 0; 0; 2; 0; 100]; fontName := "g_d0_f2";
            hasEOL := true; x := 0; y := 100 |};
         {| str := "Age"; dir := "rtl"; width := 20; height := 12;
            transform := [2; 0; 0; 2; 40; 101]; fontName := "g_d0_f2";
            hasEOL := false; x := 40; y := 101 |};
         {| str := "Ada"; dir := "rtl"; width := 20; height := 12;
            transform := [2; 0; 0; 2; 0; 88]; fontName := "g_d0_f2";
            hasEOL := false; x := 0; y := 88 |} ];
     viewport := {| vp_width := 1224; vp_height := 1584; vp_scale := 1 |} |}.

(** What the entry point returns for [ex_doc] when the layout is asked
    for. *)
Definition ex_layout_data : PdfLayoutData :=
  layout_data ex_doc (collect ex_opts ex_doc) ("Name      Age" ++ nl).

(* ------------------------------------------------------------------ *)
(** * The first pass in double precision

    The numbers of the program are IEEE 754 doubles, and the initial sort
    is the sort of the engine. Where a property depends on the rounding of
    a difference or on the order the engine produces, the ordering and the
    clustering are modelled a second time, over primitive floats and over
    an engine [sort] of which only what the language definition guarantees
    is assumed. *)

Module Double.

Record Required_PdfExtractionOptions : Type := {
  includeLayout : bool;
  yTolerance : float;
  characterWidthDivisor : float;
  enableDebug : bool
}.

Record TextItem : Type := {
  str : string;
  dir : string;
  width : float;
  height : float;
  transform : list float;
  fontName : string;
  hasEOL : bool;
  x : float;
  y : float
}.

Record Viewport : Type := {
  vp_width : float;
  vp_height : float;
  vp_scale : float
}.

Record PageLayoutData : Type := {
  pageNumber : Z;
  textItems : list TextItem;
  viewport : Viewport
}.

(** The comparator of the initial sort. *)
Definition compareItems (a b : TextItem) : float :=
  let yDiff := (y b - y a)%float in
  if (abs yDiff <? 10)%float then (x a - x b)%float else yDiff.

(** [yGroups]: groups in creation order, keyed by their anchor y. *)
Definition YGroups : Type := list (float * list TextItem).

(** The scan [for (const [groupY, groupItems] of yGroups.entries())]. *)
Fixpoint push_to_group (yTol : float) (item : TextItem) (groups : YGroups)
  : option YGroups :=
  match groups with
  | [] => None
  | (groupY, groupItems) :: rest =>
      if (abs (y item - groupY) <? yTol)%float
      then Some ((groupY, groupItems ++ [item])%list :: rest)
      else option_map (cons (groupY, groupItems)) (push_to_group yTol item rest)
  end.

(** The equality of [Map] keys: numbers are equal as numbers (so are the
    two zeros), and NaN equals NaN. *)
Definition same_value_zero (a b : float) : bool :=
  (a =? b)%float || (is_nan a && is_nan b).

(** A [Map] stores the key -0 as +0. *)
Definition map_key (key : float) : float :=
  if (key =? 0)%float then 0%float else key.

Fixpoint map_put (key : float) (v : list TextItem) (groups : YGroups)
  : YGroups :=
  match groups with
  | [] => [(key, v)]
  | (k, old) :: rest =>
      if same_value_zero k key then (k, v) :: rest
      else (k, old) :: map_put key v rest
  end.

(** [Map.prototype.set]: an existing key keeps its place and gets the new
    value, a new key is added at the end. *)
Definition map_set (key : float) (v : list TextItem) (groups : YGroups)
  : YGroups :=
  map_put (map_key key) v groups.

Definition cluster_step (yTol : float) (groups : YGroups) (item : TextItem)
  : YGroups :=
  match push_to_group yTol item groups with
  | Some groups' => groups'
  | None => map_set (y item) [item] groups
  end.

(** First pass over the items in processing order. *)
Definition cluster (yTol : float) (items : list TextItem) : YGroups :=
  fold_left (cluster_step yTol) items [].

Section Engine.
(** [Array.prototype.sort] of the engine, on a copy of the array. *)
Variable sort : forall A : Type, (A -> A -> float) -> list A -> list A.

Definition sortedItems (page : PageLayoutData) : list TextItem :=
  sort _ compareItems (textItems page).

Definition yGroups (opts : Required_PdfExtractionOptions)
  (page : PageLayoutData) : YGroups :=
  cluster (yTolerance opts) (sortedItems page).

(** [Array.from(yGroups.entries()).sort(([a], [b]) => b - a)]. *)
Definition sortedYGroups (groups : YGroups) : YGroups :=
  sort _ (fun a b => (fst b - fst a)%float) groups.

Definition sort_by_x (groupItems : list TextItem) : list TextItem :=
  sort _ (fun a b => (x a - x b)%float) groupItems.

(** The [lines] of a page. *)
Definition lines (opts : Required_PdfExtractionOptions)
  (page : PageLayoutData) : list (list TextItem) :=
  map (fun g => sort_by_x (snd g)) (sortedYGroups (yGroups opts page)).
End Engine.

(** ** What the language definition says of [Array.prototype.sort] *)

(** A consistent comparator for the elements of [l]: it never returns NaN,
    every element compares equal to itself, comparing equal is symmetric
    and transitive, comparing below and comparing above are transitive. *)
Definition consistent {A : Type} (cmp : A -> A -> float) (l : list A)
  : Prop :=
  (forall a b, In a l -> In b l -> is_nan (cmp a b) = false)
  /\ (forall a, In a l -> (cmp a a =? 0)%float = true)
  /\ (forall a b, In a l -> In b l ->
        (cmp a b =? 0)%float = true -> (cmp b a =? 0)%float = true)
  /\ (forall a b c, In a l -> In b l -> In c l ->
        (cmp a b =? 0)%float = true -> (cmp b c =? 0)%float = true ->
        (cmp a c =? 0)%float = true)
  /\ (forall a b c, In a l -> In b l -> In c l ->
        (cmp a b <? 0)%float = true -> (cmp b c <? 0)%float = true ->
        (cmp a c <? 0)%float = true)
  /\ (forall a b c, In a l -> In b l -> In c l ->
        (0 <? cmp a b)%float = true -> (0 <? cmp b c)%float = true ->
        (0 <? cmp a c)%float = true).

Definition Sort : Type :=
  forall A : Type, (A -> A -> float) -> list A -> list A.

(** The result holds the elements of the array, whatever the comparator. *)
Definition permutes (sort : Sort) : Prop :=
  forall A (cmp : A -> A -> float) (l : list A), Permutation l (sort A cmp l).

(** With a consistent comparator, no element of the result compares below
    an element that stands before it. *)
Definition orders (sort : Sort) : Prop :=
  forall A (cmp : A -> A -> float) (l : list A),
    consistent cmp l ->
    forall l1 u l2 v l3,
      sort A cmp l = (l1 ++ u :: l2 ++ v :: l3)%list ->
      (cmp v u <? 0)%float = false.

(** With a consistent comparator, elements that compare equal keep the
    order they had. *)
Definition stable (sort : Sort) : Prop :=
  forall A (cmp : A -> A -> float) (l : list A),
    consistent cmp l ->
    forall u, In u l ->
      filter (fun v => (cmp u v =? 0)%float) (sort A cmp l)
      = filter (fun v => (cmp u v =? 0)%float) l.

(** A sort that meets them: the stable insertion, where [v] goes before
    the first element it compares below. *)
Fixpoint stable_insert {A : Type} (cmp : A -> A -> float) (v : A)
  (l : list A) : list A :=
  match l with
  | [] => [v]
  | h :: t =>
      if (cmp v h <? 0)%float then v :: h :: t
      else h :: stable_insert cmp v t
  end.

Definition stable_sort : Sort :=
  fun A cmp l => fold_left (fun acc v => stable_insert cmp v acc) l [].

(** The rational a finite double stands for. *)
Definition exact (f : float) : Q :=
  match Prim2SF f with
  | S754_finite s m e =>
      let m := if s then Z.neg m else Z.pos m in
      match e with
      | Z0 => inject_Z m
      | Zpos p => inject_Z (m * Z.pow_pos 2 p)
      | Zneg p => Qmake m (Pos.pow 2 p)
      end
  | _ => 0
  end.

(** A fragment at a position: neither coordinate is NaN or infinite. *)
Definition finite_item (item : TextItem) : Prop :=
  is_finite (x item) = true /\ is_finite (y item) = true.

(** The sort by descending y with ascending x as the secondary key. *)
Definition compare_y_then_x (a b : TextItem) : float :=
  if (y a =? y b)%float then (x a - x b)%float else (y b - y a)%float.

(** The doubles nearest to 0.1, 0.6 and 0.7. *)
Definition d0_1 : float := 0x1.999999999999ap-4%float.
Definition d0_6 : float := 0x1.3333333333333p-1%float.
Definition d0_7 : float := 0x1.6666666666666p-1%float.

Definition fragment (s : string) (fx fy : float) : TextItem :=
  {| str := s; dir := "ltr"; width := 0; height := 0;
     transform := [1; 0; 0; 1; fx; fy]%float; fontName := "g_d0_f1";
     hasEOL := false; x := fx; y := fy |}.

Definition ex_viewport : Viewport :=
  {| vp_width := 612; vp_height := 792; vp_scale := 1 |}.

Definition ex_opts : Required_PdfExtractionOptions :=
  {| includeLayout := true; yTolerance := d0_6; characterWidthDivisor := 4;
     enableDebug := false |}.

(** Two fragments whose y are less than 0.6 apart. *)
Definition ex_page_close : PageLayoutData :=
  {| pageNumber := 1;
     textItems := [fragment "upper" 0 d0_7; fragment "lower" 0 d0_1];
     viewport := ex_viewport |}.

(** Two fragments 5 apart in y, the upper one to the right. *)
Definition ex_page_band : PageLayoutData :=
  {| pageNumber := 1;
     textItems := [fragment "right" 50 100; fragment "left" 0 95];
     viewport := ex_viewport |}.

End Double.

(** ** Vocabulary of the properties in double precision *)

(** The sign of a number, [None] for NaN. *)
Definition sgn (v : float) : option comparison :=
  SFcompare (Prim2SF v) (S754_zero false).

(** A zero or a finite number, in the specification of the doubles. *)
Definition finite_sf (v : spec_float) : Prop :=
  match v with
  | S754_zero _ | S754_finite _ _ _ => True
  | _ => False
  end.

Definition is_zero_sf (v : spec_float) : Prop :=
  match v with S754_zero _ => True | _ => False end.

(** The result of rounding a mantissa: it has the given sign and is not
    NaN. *)
Inductive signed_as (s : bool) : spec_float -> Prop :=
| sa_zero : signed_as s (S754_zero s)
| sa_inf : signed_as s (S754_infinity s)
| sa_fin m e : signed_as s (S754_finite s m e).

(** [u] stands rightly before [v]: [v] does not compare below [u]. *)
Definition placed {A : Type} (cmp : A -> A -> float) (u v : A) : Prop :=
  (cmp v u <? 0)%float = false.

(** [k2], the anchor of a later group, is not within the tolerance of
    [k1]. *)
Definition not_within (yTol k1 k2 : float) : Prop :=
  (abs (k2 - k1) <? yTol)%float = false.

(* ------------------------------------------------------------------ *)
(** * Properties *)

(** ** Comparisons *)

Lemma Qltb_lt a b : Qltb a b = true <-> a < b.
Proof.
  unfold Qltb. rewrite negb_true_iff. split; intro H.
  - apply Qnot_le_lt. intro L. apply Qle_bool_iff in L. congruence.
  - destruct (Qle_bool b a) eqn:E; [|reflexivity].
    apply Qle_bool_iff in E. exfalso. apply (Qlt_not_le _ _ H E).
Qed.

Lemma Qltb_ge a b : Qltb a b = false <-> b <= a.
Proof.
  unfold Qltb. rewrite negb_false_iff. apply Qle_bool_iff.
Qed.

(** ** Sorting *)

Section SortFacts.
Context {A : Type} (cmp : A -> A -> Q).

Lemma sort_insert_perm v l : Permutation (v :: l) (sort_insert cmp v l).
Proof.
  induction l as [|h t IH]; simpl.
  - apply Permutation_refl.
  - destruct (Qltb (cmp v h) 0).
    + apply Permutation_refl.
    + eapply Permutation_trans; [apply perm_swap|].
      apply perm_skip, IH.
Qed.

Lemma array_sort_perm l : Permutation l (array_sort cmp l).
Proof.
  unfold array_sort.
  assert (G : forall acc, Permutation (acc ++ l)
                (fold_left (fun acc v => sort_insert cmp v acc) l acc)).
  { induction l as [|h t IH]; intro acc; simpl.
    - rewrite app_nil_r. apply Permutation_refl.
    - eapply Permutation_trans; [|apply IH].
      eapply Permutation_trans; [apply Permutation_sym, Permutation_middle|].
      apply (Permutation_app_tail t (sort_insert_perm h acc)). }
  apply (G []).
Qed.

(** Neighbours of the result are in the comparator's order as soon as the
    comparator is antisymmetric; transitivity is not needed. *)
Hypothesis cmp_antisym : forall a b, cmp b a == - cmp a b.

Lemma sort_insert_locally_sorted v l :
  LocallySorted (in_order cmp) l -> LocallySorted (in_order cmp) (sort_insert cmp v l).
Proof.
  induction l as [|h t IH]; intro L; simpl.
  - constructor.
  - destruct (Qltb (cmp v h) 0) eqn:E.
    + constructor; [exact L|]. apply Qltb_lt in E. unfold in_order. lra.
    + assert (Lt : LocallySorted (in_order cmp) t) by (inversion L; [constructor | assumption]).
      specialize (IH Lt).
      apply Qltb_ge in E.
      assert (Hv : in_order cmp h v).
      { unfold in_order. rewrite (cmp_antisym v h). lra. }
      destruct t as [|h' t']; simpl in *.
      * constructor; [constructor | exact Hv].
      * destruct (Qltb (cmp v h') 0).
        -- constructor; [exact IH | exact Hv].
        -- constructor; [exact IH|]. inversion L; assumption.
Qed.

Lemma array_sort_locally_sorted l : LocallySorted (in_order cmp) (array_sort cmp l).
Proof.
  unfold array_sort.
  assert (G : forall acc, LocallySorted (in_order cmp) acc ->
                LocallySorted (in_order cmp)
                  (fold_left (fun acc v => sort_insert cmp v acc) l acc)).
  { induction l as [|h t IH]; intros acc L; simpl; [exact L|].
    apply IH, sort_insert_locally_sorted, L. }
  apply G. constructor.
Qed.
End SortFacts.

(** ** Clustering *)

Lemma push_to_group_None yTol item groups :
  push_to_group yTol item groups = None
  <-> Forall (fun g => ~ within yTol item g) groups.
Proof.
  induction groups as [|[k its] rest IH]; cbn [push_to_group].
  - split; [constructor | reflexivity].
  - destruct (Qltb (Qabs (y item - k)) yTol) eqn:E.
    + split; [intro H; discriminate H|]. intro F. inversion F as [|? ? Hn _]; subst.
      apply Qltb_lt in E. contradiction.
    + apply Qltb_ge in E. split.
      * intro H. destruct (push_to_group yTol item rest); [discriminate H|].
        constructor; [unfold within; cbn [fst]; lra | now apply IH].
      * intro F. inversion F; subst.
        destruct (push_to_group yTol item rest) eqn:P; [|reflexivity].
        apply IH in H2. discriminate H2.
Qed.

Lemma push_to_group_Some yTol item groups groups' :
  push_to_group yTol item groups = Some groups'
  <-> exists g1 k its g2,
        groups = (g1 ++ (k, its) :: g2)%list
        /\ Forall (fun g => ~ within yTol item g) g1
        /\ within yTol item (k, its)
        /\ groups' = (g1 ++ (k, its ++ [item]) :: g2)%list.
Proof.
  revert groups'.
  induction groups as [|[k its] rest IH]; intro groups'; cbn [push_to_group].
  - split; [intro H; discriminate H|].
    intros (g1 & k & its & g2 & E & _). destruct g1; discriminate E.
  - destruct (Qltb (Qabs (y item - k)) yTol) eqn:E.
    + apply Qltb_lt in E. split.
      * intro H. injection H as <-. exists [], k, its, rest.
        repeat split; [constructor | exact E].
      * intros (g1 & k' & its' & g2 & Eg & F & W & ->).
        destruct g1 as [|g g1]; simpl in Eg.
        -- injection Eg as -> -> ->. reflexivity.
        -- injection Eg as <- ->. inversion F as [|? ? Hn _]; subst.
           exfalso. apply Hn. exact E.
    + apply Qltb_ge in E. split.
      * intro H. destruct (push_to_group yTol item rest) as [r|] eqn:P;
          [|discriminate H]. injection H as <-.
        destruct (proj1 (IH r) eq_refl) as (g1 & k' & its' & g2 & -> & F & W & ->).
        exists ((k, its) :: g1), k', its', g2. repeat split; auto.
        constructor; [unfold within; cbn [fst]; lra | exact F].
      * intros (g1 & k' & its' & g2 & Eg & F & W & ->).
        destruct g1 as [|g g1]; simpl in Eg.
        -- injection Eg as -> -> ->. unfold within in W. cbn [fst] in W. lra.
        -- injection Eg as <- ->. inversion F; subst.
           rewrite (proj2 (IH (g1 ++ (k', its' ++ [item]) :: g2)%list)).
           ++ reflexivity.
           ++ exists g1, k', its', g2. repeat split; auto.
Qed.

Lemma map_set_fresh key v groups :
  Forall (fun g => ~ fst g == key) groups ->
  map_set key v groups = (groups ++ [(key, v)])%list.
Proof.
  induction 1 as [|[k old] rest Hn _ IH]; simpl; [reflexivity|].
  destruct (Qeq_bool k key) eqn:E.
  - apply Qeq_bool_iff in E. contradiction.
  - now rewrite IH.
Qed.

Lemma map_set_keys key v groups :
  map fst (map_set key v groups) = map fst groups
  \/ map_set key v groups = (groups ++ [(key, v)])%list.
Proof.
  induction groups as [|[k old] rest IH]; simpl.
  - now right.
  - destruct (Qeq_bool k key).
    + now left.
    + destruct IH as [IH|IH]; [left | right]; simpl; now rewrite IH.
Qed.

Lemma not_within_fresh yTol item groups :
  0 < yTol ->
  Forall (fun g => ~ within yTol item g) groups ->
  Forall (fun g => ~ fst g == y item) groups.
Proof.
  intros Hpos F. eapply Forall_impl; [|exact F].
  intros g Hn Heq. apply Hn. unfold within.
  assert (Z0 : Qabs (y item - fst g) == 0).
  { assert (E0 : y item - fst g == 0) by lra. rewrite E0. reflexivity. }
  lra.
Qed.

Lemma cluster_step_join yTol groups item g1 k its g2 :
  groups = (g1 ++ (k, its) :: g2)%list ->
  Forall (fun g => ~ within yTol item g) g1 ->
  within yTol item (k, its) ->
  cluster_step yTol groups item = (g1 ++ (k, its ++ [item]) :: g2)%list.
Proof.
  intros E F W. unfold cluster_step.
  rewrite (proj2 (push_to_group_Some yTol item groups
                    (g1 ++ (k, its ++ [item]) :: g2)%list)); [reflexivity|].
  exists g1, k, its, g2. auto.
Qed.

Lemma cluster_step_open yTol groups item :
  0 < yTol ->
  Forall (fun g => ~ within yTol item g) groups ->
  cluster_step yTol groups item = (groups ++ [(y item, [item])])%list.
Proof.
  intros Hpos F. unfold cluster_step.
  rewrite (proj2 (push_to_group_None yTol item groups) F).
  apply map_set_fresh. eapply not_within_fresh; eassumption.
Qed.

(** Every step of the first pass does one of two things. *)
Lemma cluster_step_cases yTol groups item :
  0 < yTol ->
  (exists g1 k its g2,
      groups = (g1 ++ (k, its) :: g2)%list
      /\ Forall (fun g => ~ within yTol item g) g1
      /\ within yTol item (k, its)
      /\ cluster_step yTol groups item = (g1 ++ (k, its ++ [item]) :: g2)%list)
  \/ (Forall (fun g => ~ within yTol item g) groups
      /\ cluster_step yTol groups item = (groups ++ [(y item, [item])])%list).
Proof.
  intro Hpos. destruct (push_to_group yTol item groups) as [r|] eqn:P.
  - left. apply push_to_group_Some in P.
    destruct P as (g1 & k & its & g2 & E & F & W & ->).
    exists g1, k, its, g2. repeat split; auto.
    now apply cluster_step_join.
  - right. apply push_to_group_None in P. split; [exact P|].
    now apply cluster_step_open.
Qed.

Lemma anchored_push yTol k its item :
  anchored yTol (k, its) -> within yTol item (k, its) ->
  anchored yTol (k, (its ++ [item])%list).
Proof.
  intros [(f & o & E & Hy) F] W. cbn [fst snd] in *. split.
  - exists f, (o ++ [item])%list. cbn [fst snd]. subst its. split; [reflexivity | exact Hy].
  - cbn [snd]. apply Forall_app. split.
    + eapply Forall_impl; [|exact F]. intros a Ha. exact Ha.
    + constructor; [exact W | constructor].
Qed.

Lemma anchored_new yTol item :
  0 < yTol -> anchored yTol (y item, [item]).
Proof.
  intro Hpos. split.
  - exists item, []. split; reflexivity.
  - constructor; [|constructor]. unfold within. cbn [fst].
    assert (E0 : y item - y item == 0) by lra.
    rewrite E0. exact Hpos.
Qed.

Lemma cluster_step_anchored yTol groups item :
  0 < yTol ->
  Forall (anchored yTol) groups ->
  Forall (anchored yTol) (cluster_step yTol groups item).
Proof.
  intros Hpos A.
  destruct (cluster_step_cases yTol groups item Hpos)
    as [(g1 & k & its & g2 & E & F & W & ->) | [F ->]].
  - subst groups. apply Forall_app in A. destruct A as [A1 A2].
    inversion A2 as [|? ? Ak A3]; subst.
    apply Forall_app. split; [exact A1|].
    constructor; [now apply anchored_push | exact A3].
  - apply Forall_app. split; [exact A|].
    constructor; [now apply anchored_new | constructor].
Qed.

Lemma fold_cluster_anchored yTol items groups :
  0 < yTol ->
  Forall (anchored yTol) groups ->
  Forall (anchored yTol) (fold_left (cluster_step yTol) items groups).
Proof.
  intro Hpos. revert groups.
  induction items as [|item rest IH]; intros groups A; simpl; [exact A|].
  apply IH, cluster_step_anchored; assumption.
Qed.

Lemma cluster_snoc yTol pre item :
  cluster yTol (pre ++ [item]) = cluster_step yTol (cluster yTol pre) item.
Proof. unfold cluster. now rewrite fold_left_app. Qed.

(** The anchors of the groups that exist are kept by every later step, at
    their place; this holds for any tolerance. *)
Lemma cluster_step_keys yTol groups item :
  exists new, map fst (cluster_step yTol groups item)
              = (map fst groups ++ new)%list.
Proof.
  unfold cluster_step.
  destruct (push_to_group yTol item groups) as [r|] eqn:P.
  - apply push_to_group_Some in P.
    destruct P as (g1 & k & its & g2 & -> & _ & _ & ->).
    exists []. rewrite app_nil_r, !map_app. reflexivity.
  - destruct (map_set_keys (y item) [item] groups) as [E|E].
    + exists []. now rewrite app_nil_r.
    + exists [y item]. rewrite E, map_app. reflexivity.
Qed.

Lemma fold_cluster_keys yTol items groups :
  exists later, map fst (fold_left (cluster_step yTol) items groups)
                = (map fst groups ++ later)%list.
Proof.
  revert groups. induction items as [|item rest IH]; intro groups; simpl.
  - exists []. now rewrite app_nil_r.
  - destruct (IH (cluster_step yTol groups item)) as [l1 E1].
    destruct (cluster_step_keys yTol groups item) as [l0 E0].
    exists (l0 ++ l1)%list. now rewrite E1, E0, app_assoc.
Qed.


(** ** The monad *)

Lemma value_bind {A B} (m : Run A) (k : A -> Run B) :
  value (bind m k)
  = match value m with Ok a => value (k a) | Err e => Err e end.
Proof.
  destruct m as [w [a|e]]; simpl; [|reflexivity].
  destruct (k a); reflexivity.
Qed.

Lemma stderr_bind {A B} (m : Run A) (k : A -> Run B) :
  stderr (bind m k)
  = match value m with
    | Ok a => (stderr m ++ stderr (k a))%list
    | Err e => stderr m
    end.
Proof.
  destruct m as [w [a|e]]; simpl; [|reflexivity].
  destruct (k a); reflexivity.
Qed.

Lemma debug_items_value items count : value (debug_items items count) = Ok tt.
Proof.
  induction items as [|item rest IH]; [reflexivity|].
  cbn [debug_items]. rewrite value_bind. exact IH.
Qed.

(** The lines do not depend on the debug flag: they are the groups, each
    sorted by x. *)
Lemma second_pass_value opts groups :
  value (second_pass opts groups)
  = Ok (map (fun g => sort_by_x (snd g)) groups).
Proof.
  induction groups as [|[k its] rest IH]; [reflexivity|].
  cbn [second_pass]. rewrite value_bind.
  assert (D : value (if enableDebug opts
                     then debug_items (sort_by_x its) (List.length (sort_by_x its))
                     else ret tt) = Ok tt).
  { destruct (enableDebug opts); [apply debug_items_value | reflexivity]. }
  rewrite D, value_bind, IH. reflexivity.
Qed.

(** ** Spacing synthesis against its description *)

Lemma append_assoc (a b c : string) : (a ++ b) ++ c = a ++ (b ++ c).
Proof. induction a as [|h t IH]; simpl; [reflexivity | now rewrite IH]. Qed.

Lemma append_nil_r (a : string) : a ++ EmptyString = a.
Proof. induction a as [|h t IH]; simpl; [reflexivity | now rewrite IH]. Qed.

Lemma is_space_white_space c : is_space c = true <-> white_space c.
Proof.
  unfold is_space, white_space. cbv zeta. cbn [In].
  rewrite !orb_true_iff, !Nat.eqb_eq. intuition congruence.
Qed.

Lemma trimEnd_stripped s : stripped s (trimEnd s).
Proof.
  induction s as [|c rest [(ws & E & W) N]]; cbn [trimEnd].
  - split.
    + exists EmptyString. split; [reflexivity | exact I].
    + intros [|? ?] ? H; discriminate H.
  - destruct (trimEnd rest) as [|c1 kept] eqn:T.
    + simpl in E. subst ws. destruct (is_space c) eqn:Sc.
      * split.
        -- exists (String c rest). split; [reflexivity|].
           split; [now apply is_space_white_space | exact W].
        -- intros [|? ?] ? H; discriminate H.
      * split.
        -- exists rest. split; [reflexivity | exact W].
        -- intros [|p pre] c' H; simpl in H.
           ++ injection H as <-. intro Wc.
              apply is_space_white_space in Wc. congruence.
           ++ injection H as _ H. destruct pre; discriminate H.
    + split.
      * exists ws. split; [|exact W]. simpl. rewrite E. reflexivity.
      * intros [|p pre] c' H; simpl in H; [discriminate H|].
        injection H as _ H. apply (N pre c'). exact H.
Qed.

Lemma round_div_finite leftmostX divisor item :
  ~ divisor == 0 ->
  targetPos_of leftmostX divisor item
  = Fin (targetColumn leftmostX divisor item).
Proof.
  intro Hd. unfold targetPos_of, round_div, targetColumn.
  destruct (Qeq_bool divisor 0) eqn:E; [|reflexivity].
  apply Qeq_bool_iff in E. contradiction.
Qed.

Lemma pad_finite (gap : Z) :
  (if num_gt0 (num_max0 (Fin gap)) then repeat_space (num_max0 (Fin gap))
   else Ok EmptyString)
  = Ok (str_repeat " " (Z.to_nat (Z.max 0 gap))).
Proof.
  cbn [num_max0 num_gt0 repeat_space].
  destruct (0 <? Z.max 0 gap)%Z eqn:E.
  - destruct (Z.max 0 gap <? 0)%Z eqn:E'; [lia | reflexivity].
  - assert (Z.max 0 gap = 0%Z) by lia. now rewrite H.
Qed.

(** One iteration of the loop, when the target positions it reads are
    finite: the gap, the content, the cursor after the content, and the
    look-ahead. *)
Lemma render_step_spec leftmostX divisor item next lineText cursor t :
  targetPos_of leftmostX divisor item = Fin t ->
  (forall nxt, next = Some nxt ->
     exists t', targetPos_of leftmostX divisor nxt = Fin t') ->
  exists extra : bool,
    render_step leftmostX divisor item next lineText (Fin cursor)
    = Ok (lineText ++ str_repeat " " (Z.to_nat (Z.max 0 (t - cursor)))
            ++ str item ++ (if extra then " " else EmptyString),
          Fin (t + str_length item + (if extra then 1 else 0)))
    /\ (extra = true <->
        exists nxt t',
          next = Some nxt
          /\ targetPos_of leftmostX divisor nxt = Fin t'
          /\ (0 < t' - (t + str_length item) < 3)%Z).
Proof.
  intros Ht Hnext. unfold render_step. rewrite Ht. cbn [num_sub].
  rewrite pad_finite. cbn [num_addz].
  destruct next as [nxt|].
  - destruct (Hnext nxt eq_refl) as [t' Ht']. rewrite Ht'.
    cbn [num_sub num_gt0 num_lt3].
    destruct ((0 <? t' - (t + str_length item))
              && (t' - (t + str_length item) <? 3))%Z eqn:B.
    + exists true. split.
      * now rewrite !append_assoc.
      * split; [intros _|reflexivity]. exists nxt, t'.
        apply andb_true_iff in B. destruct B as [B1 B2].
        apply Z.ltb_lt in B1. apply Z.ltb_lt in B2. repeat split; auto.
    + exists false. split.
      * now rewrite append_nil_r, Z.add_0_r.
      * split; [intro H; discriminate H|].
        intros (n & u & En & Hu & H1 & H2). injection En as <-.
        rewrite Ht' in Hu. injection Hu as <-.
        apply andb_false_iff in B.
        destruct B as [B|B]; apply Z.ltb_ge in B; lia.
  - exists false. split.
    + now rewrite append_nil_r, Z.add_0_r.
    + split; [intro H; discriminate H|].
      intros (n & u & En & _). discriminate En.
Qed.

(** The same with the columns of the description. *)
Lemma render_step_assemble leftmostX divisor item next lineText cursor :
  ~ divisor == 0 ->
  let col := targetColumn leftmostX divisor in
  let cursor1 := (col item + str_length item)%Z in
  let extra := bridge_needed col cursor1 next in
  render_step leftmostX divisor item next lineText (Fin cursor)
  = Ok (lineText ++ str_repeat " " (Z.to_nat (Z.max 0 (col item - cursor)))
          ++ str item ++ (if extra then " " else EmptyString),
        Fin (if extra then cursor1 + 1 else cursor1)).
Proof.
  intros Hd col cursor1 extra. unfold render_step.
  rewrite (round_div_finite _ _ item Hd). cbn [num_sub].
  rewrite pad_finite. cbn [num_addz]. subst extra.
  destruct next as [nxt|]; cbn [bridge_needed].
  - rewrite (round_div_finite _ _ nxt Hd). cbn [num_sub num_gt0 num_lt3].
    fold col. fold cursor1.
    destruct ((0 <? col nxt - cursor1) && (col nxt - cursor1 <? 3))%Z.
    + now rewrite !append_assoc.
    + now rewrite append_nil_r.
  - now rewrite append_nil_r.
Qed.

(** With a non-zero divisor the loop never throws and builds the described
    line, from any cursor. *)
Lemma render_items_assemble leftmostX divisor row :
  ~ divisor == 0 ->
  forall lineText cursor,
    render_items leftmostX divisor row lineText (Fin cursor)
    = Ok (lineText
            ++ assemble_line (targetColumn leftmostX divisor) row cursor).
Proof.
  intro Hd. induction row as [|f rest IH]; intros lineText cursor.
  - simpl. now rewrite append_nil_r.
  - cbn [render_items assemble_line].
    rewrite (render_step_assemble leftmostX divisor f (hd_error rest)
               lineText cursor Hd). cbv zeta.
    destruct (bridge_needed (targetColumn leftmostX divisor)
                (targetColumn leftmostX divisor f + str_length f)
                (hd_error rest));
      rewrite IH; now rewrite !append_assoc.
Qed.


(** ** The concrete scenario *)

(** C3. One page with the fragments "Name" at x=0, y=100 and "Age" at
    x=40, y=100, [yTolerance] 2 and [characterWidthDivisor] 4: both
    fragments are in one row; the leftmost x is 0; "Name" is at column 0 and
    leaves the cursor at 4; "Age" targets column 10, so 6 spaces are needed
    and the look-ahead test (gap 6) adds none; the line is
    "Name      Age", and the layout text is that line and a newline. *)
Theorem C3_name_age_scenario
  (dir1 dir2 font1 font2 : string) (w1 h1 w2 h2 : Q) (t1 t2 : list Q)
  (eol1 eol2 : bool) (vp : Viewport) (incl dbg : bool) :
  let name := {| str := "Name"; dir := dir1; width := w1; height := h1;
                 transform := t1; fontName := font1; hasEOL := eol1;
                 x := 0; y := 100 |} in
  let age := {| str := "Age"; dir := dir2; width := w2; height := h2;
                transform := t2; fontName := font2; hasEOL := eol2;
                x := 40; y := 100 |} in
  let page := {| pageNumber := 1; textItems := [name; age];
                 viewport := vp |} in
  let opts := {| includeLayout := incl; yTolerance := 2;
                 characterWidthDivisor := 4; enableDebug := dbg |} in
  value (page_lines opts page) = Ok [[name; age]]
  /\ math_min (map x (textItems page)) = Some 0
  /\ targetPos_of 0 4 name = Fin 0
  /\ num_addz (targetPos_of 0 4 name) (str_length name) = Fin 4
  /\ targetPos_of 0 4 age = Fin 10
  /\ num_max0 (num_sub (targetPos_of 0 4 age) (Fin 4)) = Fin 6
  /\ (let gapSize := num_sub (targetPos_of 0 4 age) (Fin 4) in
      gapSize = Fin 6 /\ (num_gt0 gapSize && num_lt3 gapSize)%bool = false)
  /\ render_items 0 4 [name; age] EmptyString (Fin 0)
     = Ok "Name      Age"
  /\ value (reconstructLayout [page] opts) = Ok ("Name      Age" ++ nl).
Proof.
  intros name age page opts.
  split; [unfold page_lines; rewrite second_pass_value; reflexivity|].
  do 5 (split; [reflexivity|]).
  split; [split; reflexivity|].
  split; [reflexivity|].
  destruct dbg; reflexivity.
Qed.

(** ** Pages and banners *)

Lemma render_line_acc leftmostX divisor line acc :
  render_line leftmostX divisor line acc
  = result_map (append acc) (render_line leftmostX divisor line EmptyString).
Proof.
  unfold render_line. destruct line as [|f rest].
  - simpl. now rewrite append_nil_r.
  - destruct (render_items leftmostX divisor (f :: rest) EmptyString (Fin 0));
      reflexivity.
Qed.

Lemma render_lines_acc leftmostX divisor lines acc :
  render_lines leftmostX divisor lines acc
  = result_map (append acc) (render_lines leftmostX divisor lines EmptyString).
Proof.
  revert acc. induction lines as [|line rest IH]; intro acc.
  - simpl. now rewrite append_nil_r.
  - cbn [render_lines]. rewrite render_line_acc.
    destruct (render_line leftmostX divisor line EmptyString) as [b|e];
      [|reflexivity].
    cbn [result_map]. rewrite (IH (acc ++ b)), (IH b).
    destruct (render_lines leftmostX divisor rest EmptyString); simpl;
      [now rewrite append_assoc | reflexivity].
Qed.

Lemma page_content_acc opts page acc :
  value (page_content opts page acc)
  = result_map (append acc) (value (page_content opts page EmptyString)).
Proof.
  unfold page_content. destruct (sortedItems page) as [|s0 sorted].
  - simpl. now rewrite append_nil_r.
  - rewrite !value_bind.
    destruct (value (page_lines opts page)) as [lines|e]; [|reflexivity].
    destruct (math_min (map x (textItems page))) as [leftmostX|].
    + unfold value. cbn [snd]. apply render_lines_acc.
    + simpl. now rewrite append_nil_r.
Qed.

Lemma render_page_value opts page acc :
  value (render_page opts page acc)
  = result_map
      (fun body =>
         acc ++ (if (1 <? pageNumber page)%Z
                 then banner (pageNumber page) else EmptyString) ++ body)
      (value (page_content opts page EmptyString)).
Proof.
  unfold render_page. rewrite page_content_acc.
  destruct (value (page_content opts page EmptyString)) as [body|e];
    [|reflexivity].
  cbn [result_map]. destruct (1 <? pageNumber page)%Z.
  - now rewrite append_assoc.
  - reflexivity.
Qed.

Lemma reconstruct_pages_acc opts pageLayouts acc :
  value (reconstruct_pages opts pageLayouts acc)
  = result_map (append acc)
      (value (reconstruct_pages opts pageLayouts EmptyString)).
Proof.
  revert acc. induction pageLayouts as [|page rest IH]; intro acc.
  - simpl. now rewrite append_nil_r.
  - cbn [reconstruct_pages]. rewrite !value_bind, !render_page_value.
    destruct (value (page_content opts page EmptyString)) as [body|e];
      [|reflexivity].
    cbn [result_map]. rewrite IH. symmetry. rewrite IH.
    destruct (value (reconstruct_pages opts rest EmptyString)); simpl;
      [now rewrite !append_assoc | reflexivity].
Qed.

Lemma reconstruct_pages_app opts l1 l2 acc :
  value (reconstruct_pages opts (l1 ++ l2) acc)
  = match value (reconstruct_pages opts l1 acc) with
    | Ok t => value (reconstruct_pages opts l2 t)
    | Err e => Err e
    end.
Proof.
  revert acc. induction l1 as [|page rest IH]; intro acc; [reflexivity|].
  cbn [app reconstruct_pages]. rewrite !value_bind.
  destruct (value (render_page opts page acc)); [apply IH | reflexivity].
Qed.

(** Past the [continue] of an empty page, the minimum of the x exists: the
    [None] branch of [page_content] is never taken. *)
Lemma leftmostX_exists page first others :
  sortedItems page = first :: others ->
  exists leftmostX, math_min (map x (textItems page)) = Some leftmostX.
Proof.
  intro E. destruct (textItems page) as [|t ts] eqn:T.
  - unfold sortedItems in E. rewrite T in E. discriminate E.
  - eexists. reflexivity.
Qed.

(** With a non-zero divisor nothing throws. *)
Lemma render_lines_total leftmostX divisor lines acc :
  ~ divisor == 0 ->
  exists t, render_lines leftmostX divisor lines acc = Ok t.
Proof.
  intro Hd. revert acc. induction lines as [|line rest IH]; intro acc.
  - now exists acc.
  - cbn [render_lines]. unfold render_line. destruct line as [|f others].
    + apply IH.
    + rewrite (render_items_assemble _ _ _ Hd). apply IH.
Qed.

Lemma page_content_total opts page acc :
  ~ characterWidthDivisor opts == 0 ->
  exists t, value (page_content opts page acc) = Ok t.
Proof.
  intro Hd. unfold page_content. destruct (sortedItems page).
  - now exists acc.
  - rewrite value_bind. unfold page_lines. rewrite second_pass_value.
    destruct (math_min (map x (textItems page))) as [leftmostX|].
    + unfold value. cbn [snd]. now apply render_lines_total.
    + now exists acc.
Qed.

Lemma reconstruct_pages_total opts pageLayouts acc :
  ~ characterWidthDivisor opts == 0 ->
  exists t, value (reconstruct_pages opts pageLayouts acc) = Ok t.
Proof.
  intro Hd. revert acc. induction pageLayouts as [|page rest IH]; intro acc.
  - now exists acc.
  - cbn [reconstruct_pages]. rewrite value_bind.
    destruct (page_content_total opts page
                (if (1 <? pageNumber page)%Z
                 then acc ++ banner (pageNumber page) else acc) Hd) as [t E].
    unfold render_page. rewrite E. apply IH.
Qed.

Lemma targetColumn_leftmost divisor f : targetColumn (x f) divisor f = 0%Z.
Proof.
  unfold targetColumn.
  assert (E : (x f - x f) / divisor + (1 # 2) == 1 # 2).
  { assert (E0 : x f - x f == 0) by lra. rewrite E0.
    unfold Qdiv. rewrite Qmult_0_l. lra. }
  rewrite (Qfloor_comp _ _ E). reflexivity.
Qed.

(** A page with a single fragment is one line: the fragment's content,
    stripped, and a newline. *)
Lemma single_fragment_page opts pn vp f :
  ~ characterWidthDivisor opts == 0 ->
  value (page_content opts
           {| pageNumber := pn; textItems := [f]; viewport := vp |}
           EmptyString)
  = Ok (trimEnd (str f) ++ nl).
Proof.
  intro Hd. unfold page_content.
  change (sortedItems {| pageNumber := pn; textItems := [f]; viewport := vp |})
    with [f].
  cbv beta iota. rewrite value_bind. unfold page_lines.
  rewrite second_pass_value.
  change (yGroups opts {| pageNumber := pn; textItems := [f]; viewport := vp |})
    with [(y f, [f])].
  cbn [sortedYGroups array_sort fold_left sort_insert map snd sort_by_x
       textItems math_min].
  unfold value. cbn [snd render_lines render_line].
  rewrite (render_items_assemble _ _ _ Hd).
  cbn [assemble_line hd_error bridge_needed].
  rewrite targetColumn_leftmost. cbn [Z.sub Z.max Z.to_nat str_repeat Z.opp Z.add Z.compare].
  simpl append. rewrite append_nil_r. reflexivity.
Qed.

(** C5. With a non-zero divisor, in the text of a document
    [pre ++ page :: post] the text of [page] comes after the text of the
    pages before it and, when its page number [n] is greater than 1, after
    the banner: two newlines (the end of a blank line), a rule of 80 "=",
    the label "Page n" with the supplied number in decimal, a second rule
    of 80 "=" and a blank line; a page numbered 1 has no banner.  For three
    pages numbered 1, 2, 3 with the single fragments "A", "B", "C", the text
    is "A", banner 2, "B", banner 3, "C": the banner occurs exactly twice,
    once with each number. *)
Theorem C5_page_banner (opts : Required_PdfExtractionOptions)
  (pre post : list PageLayoutData) (page : PageLayoutData)
  (a b c : TextItem) (vpA vpB vpC : Viewport) :
  ~ characterWidthDivisor opts == 0 ->
  str a = "A" -> str b = "B" -> str c = "C" ->
  let n := pageNumber page in
  (exists before body after,
      value (reconstructLayout pre opts) = Ok before
      /\ value (page_content opts page EmptyString) = Ok body
      /\ value (reconstructLayout post opts) = Ok after
      /\ ((1 < n)%Z ->
          value (reconstructLayout (pre ++ page :: post) opts)
          = Ok (before ++ banner n ++ body ++ after))
      /\ (n = 1%Z ->
          value (reconstructLayout (pre ++ page :: post) opts)
          = Ok (before ++ body ++ after)))
  /\ banner n
     = nl ++ nl ++ separator_rule ++ nl ++ "Page " ++ show_Z n ++ nl
          ++ separator_rule ++ nl ++ nl
  /\ separator_rule
     = "================================================================================"
  /\ String.length separator_rule = 80%nat
  /\ (let out := "A" ++ nl ++ banner 2 ++ "B" ++ nl ++ banner 3 ++ "C" ++ nl in
      value (reconstructLayout
               [ {| pageNumber := 1; textItems := [a]; viewport := vpA |};
                 {| pageNumber := 2; textItems := [b]; viewport := vpB |};
                 {| pageNumber := 3; textItems := [c]; viewport := vpC |} ]
               opts) = Ok out
      /\ occurrences banner_start out = 2%nat
      /\ occurrences (banner 2) out = 1%nat
      /\ occurrences (banner 3) out = 1%nat).
Proof.
  intros Hd Ha Hb Hc n. split; [|split; [|split; [|split]]].
  - destruct (reconstruct_pages_total opts pre EmptyString Hd) as [before Eb].
    destruct (page_content_total opts page EmptyString Hd) as [body Ec].
    destruct (reconstruct_pages_total opts post EmptyString Hd) as [after Ea].
    exists before, body, after. unfold reconstructLayout.
    assert (G : value (reconstruct_pages opts (pre ++ page :: post) EmptyString)
                = Ok (before
                        ++ (if (1 <? n)%Z then banner n else EmptyString)
                        ++ body ++ after)).
    { rewrite reconstruct_pages_app, Eb. cbn [reconstruct_pages].
      rewrite value_bind, render_page_value, Ec. cbn [result_map].
      rewrite reconstruct_pages_acc, Ea. cbn [result_map]. fold n.
      now rewrite !append_assoc. }
    repeat split; try assumption.
    + intro Hn. rewrite G. apply Z.ltb_lt in Hn. now rewrite Hn.
    + intro Hn. rewrite G, Hn. reflexivity.
  - unfold banner. now rewrite !append_assoc.
  - reflexivity.
  - reflexivity.
  - intro out. split; [|repeat split; vm_compute; reflexivity].
    unfold reconstructLayout. cbn [reconstruct_pages].
    rewrite !value_bind, !render_page_value.
    rewrite (single_fragment_page opts 1 vpA a Hd). cbn [result_map].
    rewrite !value_bind, !render_page_value.
    rewrite (single_fragment_page opts 2 vpB b Hd). cbn [result_map].
    rewrite !value_bind, !render_page_value.
    rewrite (single_fragment_page opts 3 vpC c Hd). cbn [result_map].
    rewrite Ha, Hb, Hc. reflexivity.
Qed.

(** ** The entry point *)

Lemma value_lift {A} (r : result A) : value (lift r) = r.
Proof. reflexivity. Qed.

Lemma value_ret {A} (a : A) : value (ret a) = Ok a.
Proof. reflexivity. Qed.

Lemma value_try_catch {A} (body : Run A) (handler : string -> Run A) :
  value (try_catch body handler)
  = match value body with Ok a => Ok a | Err e => value (handler e) end.
Proof.
  destruct body as [w [a|e]]; simpl; [reflexivity|].
  destruct (handler e); reflexivity.
Qed.

(** What the entry point returns, without the diagnostic channel. *)
Lemma extractTextFromPdf_value env filePath options :
  value (extractTextFromPdf env filePath options)
  = match load env filePath with
    | Err e => Err (wrapped e)
    | Ok pdf =>
        let opts := with_defaults options in
        let st := collect opts pdf in
        if includeLayout opts then
          match value (reconstructLayout (collectedLayouts st) opts) with
          | Ok layoutText => Ok (LayoutData (layout_data pdf st layoutText))
          | Err e => Err (wrapped e)
          end
        else Ok (FlatText (extractedText st))
    end.
Proof.
  assert (Tail : forall pdf,
    match value
            (let st := collect (with_defaults options) pdf in
             if includeLayout (with_defaults options) then
               layoutText <- reconstructLayout (collectedLayouts st)
                               (with_defaults options) ;;
               ret (LayoutData (layout_data pdf st layoutText))
             else ret (FlatText (extractedText st)))
    with
    | Ok a => Ok a
    | Err e => value (@throw PdfExtractionResult (wrapped e))
    end
    = let opts := with_defaults options in
      let st := collect opts pdf in
      if includeLayout opts then
        match value (reconstructLayout (collectedLayouts st) opts) with
        | Ok layoutText => Ok (LayoutData (layout_data pdf st layoutText))
        | Err e => Err (wrapped e)
        end
      else Ok (FlatText (extractedText st))).
  { intro pdf. cbv zeta.
    destruct (includeLayout (with_defaults options)); [|reflexivity].
    rewrite value_bind.
    destruct (value (reconstructLayout _ _)); reflexivity. }
  unfold extractTextFromPdf. rewrite value_try_catch, value_bind.
  unfold load. destruct filePath as [p|b].
  - rewrite value_lift. destruct (readFile env p) as [buf|e]; [|reflexivity].
    rewrite value_bind, value_lift.
    destruct (getDocument env buf) as [pdf|e]; [apply Tail | reflexivity].
  - rewrite value_ret, value_bind, value_lift.
    destruct (getDocument env b) as [pdf|e]; [apply Tail | reflexivity].
Qed.

(** ** Debug neutrality *)

Lemma with_defaults_debug b options :
  with_defaults (with_debug b options) = set_debug b (with_defaults options).
Proof. reflexivity. Qed.

Lemma collect_pages_debug b opts remaining n st :
  collect_pages (set_debug b opts) remaining n st
  = collect_pages opts remaining n st.
Proof.
  revert n st. induction remaining as [|page rest IH]; intros n st;
    [reflexivity|].
  cbn [collect_pages].
  destruct (fold_left collect_item (getTextContent page) ([], extractedText st))
    as [textItems extracted].
  rewrite IH. reflexivity.
Qed.

Lemma page_content_debug b opts page acc :
  value (page_content (set_debug b opts) page acc)
  = value (page_content opts page acc).
Proof.
  unfold page_content. destruct (sortedItems page); [reflexivity|].
  rewrite !value_bind. unfold page_lines. rewrite !second_pass_value.
  reflexivity.
Qed.

Lemma reconstruct_pages_debug b opts pageLayouts acc :
  value (reconstruct_pages (set_debug b opts) pageLayouts acc)
  = value (reconstruct_pages opts pageLayouts acc).
Proof.
  revert acc. induction pageLayouts as [|page rest IH]; intro acc;
    [reflexivity|].
  cbn [reconstruct_pages]. rewrite !value_bind. unfold render_page.
  rewrite page_content_debug.
  destruct (value (page_content opts page _)); [apply IH | reflexivity].
Qed.

Lemma quiet_bind {A B} (m : Run A) (k : A -> Run B) :
  stderr m = [] -> (forall a, stderr (k a) = []) -> stderr (bind m k) = [].
Proof.
  intros Hm Hk. rewrite stderr_bind, Hm.
  destruct (value m); [apply Hk | reflexivity].
Qed.

Lemma second_pass_quiet opts groups :
  enableDebug opts = false -> stderr (second_pass opts groups) = [].
Proof.
  intro Hq. induction groups as [|[k its] rest IH]; [reflexivity|].
  cbn [second_pass]. rewrite Hq. apply quiet_bind; [reflexivity|].
  intros _. apply quiet_bind; [exact IH | reflexivity].
Qed.

Lemma page_content_quiet opts page acc :
  enableDebug opts = false -> stderr (page_content opts page acc) = [].
Proof.
  intro Hq. unfold page_content. destruct (sortedItems page); [reflexivity|].
  apply quiet_bind; [now apply second_pass_quiet|].
  intro lines. destruct (math_min (map x (textItems page))); reflexivity.
Qed.

Lemma reconstruct_pages_quiet opts pageLayouts acc :
  enableDebug opts = false ->
  stderr (reconstruct_pages opts pageLayouts acc) = [].
Proof.
  intro Hq. revert acc. induction pageLayouts as [|page rest IH]; intro acc;
    [reflexivity|].
  cbn [reconstruct_pages]. apply quiet_bind; [|intro; apply IH].
  now apply page_content_quiet.
Qed.

Lemma stderr_try_catch_throw {A} (body : Run A) (f : string -> string) :
  stderr (try_catch body (fun e => throw (f e))) = stderr body.
Proof.
  destruct body as [w [a|e]]; simpl; [reflexivity | apply app_nil_r].
Qed.

(** C6. For every input and every value of the other options, what the
    entry point returns or throws with [enableDebug] true is what it returns
    or throws with [enableDebug] false: the same flat text, the same layout
    text and all the rest; and with [enableDebug] false nothing is written
    on the diagnostic channel. *)
Theorem C6_debug_neutrality (env : Env) (filePath : Source)
  (options : PdfExtractionOptions) :
  value (extractTextFromPdf env filePath (with_debug true options))
  = value (extractTextFromPdf env filePath (with_debug false options))
  /\ stderr (extractTextFromPdf env filePath (with_debug false options)) = [].
Proof.
  split.
  - rewrite !extractTextFromPdf_value, !with_defaults_debug.
    destruct (load env filePath) as [pdf|e]; [|reflexivity].
    cbv zeta. unfold collect. rewrite !collect_pages_debug.
    cbn [includeLayout set_debug].
    destruct (includeLayout (with_defaults options)); [|reflexivity].
    unfold reconstructLayout. rewrite !reconstruct_pages_debug. reflexivity.
  - unfold extractTextFromPdf. rewrite stderr_try_catch_throw.
    apply quiet_bind; [destruct filePath; reflexivity|].
    intro pdfBuffer. apply quiet_bind; [reflexivity|].
    intro pdf. cbv zeta.
    destruct (includeLayout (with_defaults (with_debug false options)));
      [|reflexivity].
    apply quiet_bind; [|reflexivity].
    apply reconstruct_pages_quiet. reflexivity.
Qed.

(** ** The flat text *)

Lemma concat_with_eol_app l1 l2 :
  concat_with_eol (l1 ++ l2) = concat_with_eol l1 ++ concat_with_eol l2.
Proof.
  induction l1 as [|h t IH]; [reflexivity|].
  cbn [app concat_with_eol fold_right]. fold (concat_with_eol (t ++ l2)).
  fold (concat_with_eol t). rewrite IH. now rewrite !append_assoc.
Qed.

Lemma collect_items_text contents textItems extractedText :
  fold_left collect_item contents (textItems, extractedText)
  = ((textItems
        ++ flat_map (fun c => match c with
                              | TextContent item => [to_TextItem item]
                              | MarkedContent => []
                              end) contents)%list,
     extractedText
       ++ concat_with_eol
            (flat_map (fun c => match c with
                                | TextContent item => [to_TextItem item]
                                | MarkedContent => []
                                end) contents)).
Proof.
  revert textItems extractedText.
  induction contents as [|c rest IH]; intros textItems extractedText.
  - simpl. now rewrite app_nil_r, append_nil_r.
  - cbn [fold_left flat_map]. destruct c as [item|]; cbn [collect_item].
    + rewrite IH, concat_with_eol_app, <- app_assoc. f_equal.
      cbn [concat_with_eol fold_right to_TextItem str hasEOL].
      destruct (pdf_hasEOL item); now rewrite ?append_assoc, ?append_nil_r.
    + apply IH.
Qed.

Lemma collect_pages_text opts remaining n st :
  extractedText (collect_pages opts remaining n st)
  = extractedText st ++ concat_with_eol (flat_map page_items remaining).
Proof.
  revert n st. induction remaining as [|page rest IH]; intros n st.
  - simpl. now rewrite append_nil_r.
  - cbn [collect_pages flat_map]. rewrite collect_items_text, IH.
    cbn [extractedText]. fold (page_items page).
    now rewrite concat_with_eol_app, append_assoc.
Qed.

(** C9, as the code has it. For every document that loads, the flat text
    is the concatenation, in parse order, of the fragments' contents, each
    followed by a newline when the fragment carries [hasEOL]: it is what is
    returned when the layout is not requested, and the [text] of the result
    when it is. *)
Theorem C9_flat_text_with_eol (env : Env) (filePath : Source)
  (options : PdfExtractionOptions) (pdf : PdfDocument) :
  load env filePath = Ok pdf ->
  let flat := concat_with_eol (document_items pdf) in
  (includeLayout (with_defaults options) = false ->
   value (extractTextFromPdf env filePath options) = Ok (FlatText flat))
  /\ (forall data,
        value (extractTextFromPdf env filePath options) = Ok (LayoutData data) ->
        text data = flat)
  /\ (forall t,
        value (extractTextFromPdf env filePath options) = Ok (FlatText t) ->
        t = flat).
Proof.
  intros Hload flat.
  assert (E : extractedText (collect (with_defaults options) pdf) = flat).
  { unfold collect. rewrite collect_pages_text. reflexivity. }
  rewrite extractTextFromPdf_value, Hload. cbv zeta.
  destruct (includeLayout (with_defaults options)).
  - split; [intro H; discriminate H|].
    destruct (value (reconstructLayout _ _)) as [layoutText0|e].
    + split; intros r H; [|discriminate H].
      injection H as <-. exact E.
    + split; intros r H; discriminate H.
  - rewrite E. split; [reflexivity|].
    split; intros r H; [discriminate H|]. now injection H as <-.
Qed.

(** ** No validation of the configuration *)

(** C7, as the code has it. The entry point does not check [yTolerance] or
    [characterWidthDivisor]: no value of them is rejected before the
    algorithm runs. For a document that loads, when the layout is requested
    the reconstruction is run with the supplied values, whatever they are,
    and the outcome of the entry point is the outcome of the reconstruction:
    its text in the layout object, or its exception wrapped in the failure
    message. *)
Theorem C7_configuration_not_checked (env : Env) (filePath : Source)
  (options : PdfExtractionOptions) (pdf : PdfDocument) :
  load env filePath = Ok pdf ->
  let opts := with_defaults options in
  let st := collect opts pdf in
  includeLayout opts = true ->
  value (extractTextFromPdf env filePath options)
  = match value (reconstructLayout (collectedLayouts st) opts) with
    | Ok layoutText => Ok (LayoutData (layout_data pdf st layoutText))
    | Err e => Err (wrapped e)
    end.
Proof.
  intros Hload opts st Hl. rewrite extractTextFromPdf_value, Hload. cbv zeta.
  fold opts. fold st. now rewrite Hl.
Qed.

(** ** Instances on the concrete inputs *)

Lemma four_not_zero : ~ characterWidthDivisor ex_opts == 0.
Proof. intro H. discriminate H. Qed.



Lemma C5_witness :
  ~ characterWidthDivisor ex_opts == 0
  /\ (let out := "A" ++ nl ++ banner 2 ++ "B" ++ nl ++ banner 3 ++ "C" ++ nl in
      value (reconstructLayout
               [ {| pageNumber := 1; textItems := [fragment "A" 10 700];
                    viewport := ex_viewport |};
                 {| pageNumber := 2; textItems := [fragment "B" 10 700];
                    viewport := ex_viewport |};
                 {| pageNumber := 3; textItems := [fragment "C" 10 700];
                    viewport := ex_viewport |} ]
               ex_opts) = Ok out
      /\ occurrences banner_start out = 2%nat
      /\ occurrences (banner 2) out = 1%nat
      /\ occurrences (banner 3) out = 1%nat).
Proof.
  split; [exact four_not_zero|].
  exact (proj2 (proj2 (proj2 (proj2
           (C5_page_banner ex_opts [ex_page] [] ex_page2
              (fragment "A" 10 700) (fragment "B" 10 700)
              (fragment "C" 10 700) ex_viewport ex_viewport ex_viewport
              four_not_zero eq_refl eq_refl eq_refl))))).
Defined.

Lemma C7_witness :
  load ex_env (Buffer []) = Ok ex_doc
  /\ includeLayout (with_defaults ex_bad_options) = true
  /\ value (extractTextFromPdf ex_env (Buffer []) ex_bad_options)
     = match value (reconstructLayout
                      (collectedLayouts
                         (collect (with_defaults ex_bad_options) ex_doc))
                      (with_defaults ex_bad_options)) with
       | Ok layoutText =>
           Ok (LayoutData
                 (layout_data ex_doc
                    (collect (with_defaults ex_bad_options) ex_doc)
                    layoutText))
       | Err e => Err (wrapped e)
       end.
Proof.
  split; [reflexivity|]. split; [reflexivity|].
  exact (C7_configuration_not_checked ex_env (Buffer []) ex_bad_options
           ex_doc eq_refl eq_refl).
Defined.

Lemma C9_witness :
  load ex_env (Buffer []) = Ok ex_doc
  /\ value (extractTextFromPdf ex_env (Buffer []) no_options)
     = Ok (FlatText ("Name" ++ nl ++ "Age")).
Proof.
  split; [reflexivity|].
  exact (proj1 (C9_flat_text_with_eol ex_env (Buffer []) no_options ex_doc
                  eq_refl) eq_refl).
Defined.

(** The entry point returns a layout for a zero tolerance and a negative
    divisor. *)
Lemma C7_counterexample :
  ~ (yTolerance (with_defaults ex_bad_options) <= 0
     \/ characterWidthDivisor (with_defaults ex_bad_options) <= 0 ->
     exists e,
       value (extractTextFromPdf ex_env (Buffer []) ex_bad_options) = Err e).
Proof.
  intro H. destruct H as [e He].
  - left. intro C. discriminate C.
  - vm_compute in He. discriminate He.
Qed.

(** A fragment with [hasEOL] puts a newline in the flat text. *)
Lemma C9_counterexample :
  value (extractTextFromPdf ex_env (Buffer []) no_options)
  = Ok (FlatText ("Name" ++ nl ++ "Age"))
  /\ plain_concat (document_items ex_doc) = "NameAge"
  /\ value (extractTextFromPdf ex_env (Buffer []) no_options)
     <> Ok (FlatText (plain_concat (document_items ex_doc))).
Proof.
  split; [reflexivity|]. split; [reflexivity|].
  intro H. vm_compute in H. discriminate H.
Qed.

(* ------------------------------------------------------------------ *)
(** * Further properties of the reconstruction *)

(** ** No fragment is lost *)

Lemma members_app (g1 g2 : YGroups) :
  members (g1 ++ g2)%list = (members g1 ++ members g2)%list.
Proof. unfold members. now rewrite map_app, concat_app. Qed.

Lemma cluster_step_members yTol groups item :
  0 < yTol ->
  Permutation (members (cluster_step yTol groups item))
    (members groups ++ [item])%list.
Proof.
  intro Hpos.
  destruct (cluster_step_cases yTol groups item Hpos)
    as [(g1 & k & its & g2 & -> & _ & _ & ->) | [_ ->]].
  - rewrite !members_app, <- app_assoc. apply Permutation_app_head.
    change (members ((k, (its ++ [item])%list) :: g2))
      with ((its ++ [item]) ++ members g2)%list.
    change (members ((k, its) :: g2)) with (its ++ members g2)%list.
    rewrite <- !app_assoc. apply Permutation_app_head, Permutation_app_comm.
  - rewrite members_app.
    change (members [(y item, [item])]) with ([item] ++ [])%list.
    rewrite app_nil_r. apply Permutation_refl.
Qed.

Lemma fold_cluster_members yTol items groups :
  0 < yTol ->
  Permutation (members (fold_left (cluster_step yTol) items groups))
    (members groups ++ items)%list.
Proof.
  intro Hpos. revert groups.
  induction items as [|item rest IH]; intro groups; simpl.
  - rewrite app_nil_r. apply Permutation_refl.
  - eapply Permutation_trans; [apply IH|].
    eapply Permutation_trans;
      [apply Permutation_app_tail, cluster_step_members, Hpos|].
    rewrite <- app_assoc. apply Permutation_refl.
Qed.

Lemma members_perm g1 g2 :
  Permutation g1 g2 -> Permutation (members g1) (members g2).
Proof.
  induction 1 as [| g l l' _ IH | g h l | l l' l'' _ IH1 _ IH2];
    unfold members in *; cbn [map List.concat].
  - apply Permutation_refl.
  - now apply Permutation_app_head.
  - rewrite !app_assoc. apply Permutation_app_tail, Permutation_app_comm.
  - eapply Permutation_trans; eassumption.
Qed.

Lemma sorted_lines_members groups :
  Permutation (List.concat (map (fun g => sort_by_x (snd g)) groups))
    (members groups).
Proof.
  induction groups as [|[k its] rest IH]; cbn [map List.concat snd].
  - apply Permutation_refl.
  - unfold members. cbn [map List.concat snd].
    apply Permutation_app; [|exact IH].
    apply Permutation_sym, array_sort_perm.
Qed.

(** The lines of a page, whatever the debug flag. *)
Lemma page_lines_value opts page :
  value (page_lines opts page)
  = Ok (map (fun g => sort_by_x (snd g)) (sortedYGroups (yGroups opts page))).
Proof. unfold page_lines. apply second_pass_value. Qed.

(** X1. With a positive [yTolerance] the lines of a page hold the
    fragments of the page, each exactly once, and no line is empty. *)
Theorem X1_lines_partition_fragments (opts : Required_PdfExtractionOptions)
  (page : PageLayoutData) :
  0 < yTolerance opts ->
  exists lines,
    value (page_lines opts page) = Ok lines
    /\ Permutation (List.concat lines) (textItems page)
    /\ Forall (fun line => line <> []) lines.
Proof.
  intro Hpos. eexists. split; [apply page_lines_value|]. split.
  - eapply Permutation_trans; [apply sorted_lines_members|].
    eapply Permutation_trans;
      [apply members_perm, Permutation_sym, array_sort_perm|].
    unfold yGroups, cluster.
    eapply Permutation_trans; [apply (fold_cluster_members _ _ [] Hpos)|].
    apply Permutation_sym, array_sort_perm.
  - apply Forall_map.
    assert (A : Forall (anchored (yTolerance opts))
                  (sortedYGroups (yGroups opts page))).
    { eapply Permutation_Forall; [apply array_sort_perm|].
      unfold yGroups, cluster.
      apply fold_cluster_anchored; [exact Hpos | constructor]. }
    eapply Forall_impl; [|exact A].
    intros [k its] [(f & o & E & _) _] Hnil. cbn [snd] in *. subst its.
    pose proof (array_sort_perm (fun a b => x a - x b) (f :: o)) as P.
    unfold sort_by_x in Hnil. rewrite Hnil in P.
    apply Permutation_sym, Permutation_nil in P. discriminate P.
Qed.

(** ** The order of the rows and within a row *)

Lemma ForallOrdPairs_perm {A} (R : A -> A -> Prop) l l' :
  (forall a b, R a b -> R b a) ->
  Permutation l l' -> ForallOrdPairs R l -> ForallOrdPairs R l'.
Proof.
  intro Rsym. induction 1 as [| a l l' P IH | a b l | l l' l'' _ IH1 _ IH2];
    intro F.
  - exact F.
  - inversion F as [|? ? Fa Fl]; subst. constructor.
    + eapply Permutation_Forall; eassumption.
    + now apply IH.
  - inversion F as [|? ? Fb Fl]; subst.
    inversion Fl as [|? ? Fa Fl']; subst.
    inversion Fb as [|? ? Rba Fb']; subst.
    constructor; [constructor; [now apply Rsym | exact Fa]|].
    constructor; assumption.
  - auto.
Qed.

Lemma StronglySorted_pairs {A} (R : A -> A -> Prop) l :
  StronglySorted R l -> ForallOrdPairs R l.
Proof. induction 1; constructor; assumption. Qed.

Lemma ForallOrdPairs_and {A} (R S : A -> A -> Prop) l :
  ForallOrdPairs R l -> ForallOrdPairs S l ->
  ForallOrdPairs (fun a b => R a b /\ S a b) l.
Proof.
  induction 1 as [|a l Fa _ IH]; intro FS; [constructor|].
  inversion FS as [|? ? Sa Sl]; subst. constructor; [|now apply IH].
  rewrite Forall_forall in *. intros b Hb. split; auto.
Qed.

Lemma ForallOrdPairs_impl {A} (R S : A -> A -> Prop) l :
  (forall a b, R a b -> S a b) -> ForallOrdPairs R l -> ForallOrdPairs S l.
Proof.
  intro RS. induction 1 as [|a l Fa _ IH]; constructor; [|exact IH].
  eapply Forall_impl; [|exact Fa]. intros b. apply RS.
Qed.

(** A sort by a key: an antisymmetric comparator whose order is transitive
    leaves every pair in order. *)
Lemma array_sort_strongly_sorted {A} (cmp : A -> A -> Q) l :
  (forall a b, cmp b a == - cmp a b) ->
  (forall a b c, in_order cmp a b -> in_order cmp b c -> in_order cmp a c) ->
  StronglySorted (in_order cmp) (array_sort cmp l).
Proof.
  intros Hanti Htrans. apply Sorted_StronglySorted; [exact Htrans|].
  apply Sorted_LocallySorted_iff, array_sort_locally_sorted, Hanti.
Qed.

Lemma StronglySorted_impl {A} (R S : A -> A -> Prop) l :
  (forall a b, R a b -> S a b) -> StronglySorted R l -> StronglySorted S l.
Proof.
  intro RS. induction 1 as [|a l _ IH Fa]; constructor; [exact IH|].
  eapply Forall_impl; [|exact Fa]. intros b. apply RS.
Qed.

Lemma sortedYGroups_descending groups :
  StronglySorted (fun g1 g2 => fst g2 <= fst g1) (sortedYGroups groups).
Proof.
  unfold sortedYGroups.
  eapply StronglySorted_impl;
    [|apply (array_sort_strongly_sorted
               (fun a b : Q * list TextItem => fst b - fst a))].
  - unfold in_order. intros a b H. lra.
  - intros a b. lra.
  - unfold in_order. intros a b c H1 H2. lra.
Qed.

Lemma sort_by_x_ascending groupItems :
  StronglySorted (fun a b => x a <= x b) (sort_by_x groupItems).
Proof.
  unfold sort_by_x.
  eapply StronglySorted_impl;
    [|apply (array_sort_strongly_sorted (fun a b : TextItem => x a - x b))].
  - unfold in_order. intros a b H. lra.
  - intros a b. lra.
  - unfold in_order. intros a b c H1 H2. lra.
Qed.

(** X3. With a positive [yTolerance], two fragments of the same line are
    less than twice the tolerance apart in y. *)
Theorem X3_row_height_bounded (opts : Required_PdfExtractionOptions)
  (page : PageLayoutData) :
  0 < yTolerance opts ->
  exists lines,
    value (page_lines opts page) = Ok lines
    /\ Forall (fun line =>
                 forall a b, In a line -> In b line ->
                   Qabs (y a - y b) < 2 * yTolerance opts) lines.
Proof.
  intro Hpos. eexists. split; [apply page_lines_value|].
  apply Forall_map.
  assert (A : Forall (anchored (yTolerance opts))
                (sortedYGroups (yGroups opts page))).
  { eapply Permutation_Forall; [apply array_sort_perm|].
    unfold yGroups, cluster.
    apply fold_cluster_anchored; [exact Hpos | constructor]. }
  eapply Forall_impl; [|exact A].
  intros [k its] [_ W] a b Ha Hb. cbn [snd fst] in *.
  assert (In_its : forall c, In c (sort_by_x its) -> In c its).
  { intros c Hc. eapply Permutation_in; [|exact Hc].
    apply Permutation_sym, array_sort_perm. }
  rewrite Forall_forall in W.
  pose proof (W a (In_its a Ha)) as Wa. pose proof (W b (In_its b Hb)) as Wb.
  unfold within in Wa, Wb. cbn [fst] in Wa, Wb.
  apply Qabs_Qlt_condition in Wa. apply Qabs_Qlt_condition in Wb.
  apply Qabs_Qlt_condition. lra.
Qed.

(** ** Target columns *)

Lemma targetColumn_monotone leftmostX divisor a b :
  0 < divisor -> x a <= x b ->
  (targetColumn leftmostX divisor a <= targetColumn leftmostX divisor b)%Z.
Proof.
  intros Hd Hx. unfold targetColumn. apply Qfloor_resp_le.
  apply Qplus_le_l. unfold Qdiv. apply Qmult_le_compat_r; [lra|].
  apply Qlt_le_weak, Qinv_lt_0_compat, Hd.
Qed.

Lemma targetColumn_nonneg leftmostX divisor a :
  0 < divisor -> leftmostX <= x a ->
  (0 <= targetColumn leftmostX divisor a)%Z.
Proof.
  intros Hd Hx. unfold targetColumn.
  change 0%Z with (Qfloor 0). apply Qfloor_resp_le.
  assert (P : 0 <= (x a - leftmostX) / divisor).
  { unfold Qdiv. apply Qmult_le_0_compat; [lra|].
    apply Qlt_le_weak, Qinv_lt_0_compat, Hd. }
  lra.
Qed.

Lemma fold_Qmin_le t : forall h,
  fold_left Qmin t h <= h /\ Forall (fun v => fold_left Qmin t h <= v) t.
Proof.
  induction t as [|a t IH]; intro h; cbn [fold_left].
  - split; [lra | constructor].
  - destruct (IH (Qmin h a)) as [L F]. split.
    + eapply Qle_trans; [exact L | apply Q.le_min_l].
    + constructor; [eapply Qle_trans; [exact L | apply Q.le_min_r] | exact F].
Qed.

Lemma math_min_le xs m :
  math_min xs = Some m -> Forall (fun v => m <= v) xs.
Proof.
  destruct xs as [|h t]; intro E; [discriminate E|].
  injection E as <-. destruct (fold_Qmin_le t h) as [L F].
  constructor; assumption.
Qed.

(** The groups hold fragments of the input only, for every tolerance. *)
Lemma map_set_incl key v groups :
  incl (members (map_set key v groups)) (members groups ++ v)%list.
Proof.
  induction groups as [|[k old] rest IH]; cbn [map_set].
  - unfold members. cbn [map List.concat snd]. rewrite app_nil_r.
    apply incl_refl.
  - destruct (Qeq_bool k key).
    + change (members ((k, v) :: rest)) with (v ++ members rest)%list.
      change (members ((k, old) :: rest)) with (old ++ members rest)%list.
      intros c Hc. apply in_app_or in Hc. apply in_or_app.
      destruct Hc as [Hc|Hc]; [now right | left].
      apply in_or_app. now right.
    + change (members ((k, old) :: map_set key v rest))
        with (old ++ members (map_set key v rest))%list.
      change (members ((k, old) :: rest)) with (old ++ members rest)%list.
      intros c Hc. apply in_app_or in Hc. rewrite <- app_assoc.
      apply in_or_app. destruct Hc as [Hc|Hc]; [now left | right].
      apply IH, Hc.
Qed.

Lemma cluster_step_incl yTol groups item :
  incl (members (cluster_step yTol groups item)) (members groups ++ [item])%list.
Proof.
  unfold cluster_step.
  destruct (push_to_group yTol item groups) as [r|] eqn:P.
  - apply push_to_group_Some in P.
    destruct P as (g1 & k & its & g2 & -> & _ & _ & ->).
    rewrite !members_app.
    change (members ((k, (its ++ [item])%list) :: g2))
      with ((its ++ [item]) ++ members g2)%list.
    change (members ((k, its) :: g2)) with (its ++ members g2)%list.
    intros c Hc. rewrite !in_app_iff in *. cbn [In] in *. tauto.
  - apply map_set_incl.
Qed.

Lemma cluster_incl yTol items :
  incl (members (cluster yTol items)) items.
Proof.
  unfold cluster.
  assert (G : forall groups,
             incl (members (fold_left (cluster_step yTol) items groups))
               (members groups ++ items)%list).
  { induction items as [|item rest IH]; intro groups; cbn [fold_left].
    - rewrite app_nil_r. apply incl_refl.
    - intros c Hc. apply IH in Hc. rewrite in_app_iff in *.
      destruct Hc as [Hc|Hc]; [|right; now right].
      apply cluster_step_incl in Hc. rewrite in_app_iff in Hc.
      cbn [In] in *. tauto. }
  apply (G []).
Qed.

Lemma line_fragments_on_page opts page line :
  In line (map (fun g => sort_by_x (snd g)) (sortedYGroups (yGroups opts page))) ->
  incl line (textItems page).
Proof.
  intros Hl c Hc. apply in_map_iff in Hl. destruct Hl as ([k its] & <- & Hg).
  cbn [snd] in Hc.
  assert (Hits : In c its).
  { eapply Permutation_in; [|exact Hc]. apply Permutation_sym, array_sort_perm. }
  assert (Hg' : In (k, its) (yGroups opts page)).
  { eapply Permutation_in; [|exact Hg]. apply Permutation_sym, array_sort_perm. }
  assert (Hm : In c (members (yGroups opts page))).
  { unfold members. apply in_concat. exists its. split; [|exact Hits].
    apply in_map_iff. exists (k, its). now split. }
  apply cluster_incl in Hm.
  eapply Permutation_in; [|exact Hm]. apply Permutation_sym, array_sort_perm.
Qed.

(** X4. With a positive divisor, in every line of a page the target
    columns, counted from the leftmost x of the page, start at or after
    column 0 and never decrease from a fragment to the next ones. *)
Theorem X4_target_columns_monotone (opts : Required_PdfExtractionOptions)
  (page : PageLayoutData) (leftmostX : Q) :
  0 < characterWidthDivisor opts ->
  math_min (map x (textItems page)) = Some leftmostX ->
  let col := targetColumn leftmostX (characterWidthDivisor opts) in
  exists lines,
    value (page_lines opts page) = Ok lines
    /\ Forall (fun line =>
                 StronglySorted (fun a b => (col a <= col b)%Z) line
                 /\ Forall (fun a => (0 <= col a)%Z) line) lines.
Proof.
  intros Hd Hmin col. eexists. split; [apply page_lines_value|].
  apply Forall_forall. intros line Hl. split.
  - apply in_map_iff in Hl. destruct Hl as (g & <- & _).
    eapply StronglySorted_impl; [|apply sort_by_x_ascending].
    intros a b. now apply targetColumn_monotone.
  - apply Forall_forall. intros a Ha.
    apply targetColumn_nonneg; [exact Hd|].
    apply (line_fragments_on_page opts page line Hl) in Ha.
    apply math_min_le in Hmin. rewrite Forall_forall in Hmin.
    apply Hmin, in_map, Ha.
Qed.

(** ** The look-ahead step and the place of a fragment *)

Lemma str_repeat_space_S n : " " ++ str_repeat " " n = str_repeat " " (S n).
Proof. reflexivity. Qed.

Lemma assemble_line_plain col row : forall cursor,
  assemble_line col row cursor = plain_line col row cursor.
Proof.
  induction row as [|f rest IH]; intro cursor; [reflexivity|].
  cbn [assemble_line plain_line]. destruct rest as [|nxt rest'].
  - cbn [hd_error bridge_needed]. now rewrite IH.
  - cbn [hd_error bridge_needed].
    destruct ((0 <? col nxt - (col f + str_length f))
              && (col nxt - (col f + str_length f) <? 3))%Z eqn:B.
    + rewrite IH. cbn [plain_line]. do 2 f_equal.
      rewrite <- append_assoc. f_equal.
      apply andb_true_iff in B. destruct B as [B _]. apply Z.ltb_lt in B.
      rewrite str_repeat_space_S. f_equal.
      rewrite !Z.max_r by lia. lia.
    + now rewrite IH.
Qed.

(** X5. The look-ahead step changes nothing for a non-zero divisor: the
    space it adds is one of the spaces the next fragment's gap would have
    had, so a line is rendered as the gaps and the contents alone, stripped
    and followed by a newline. *)
Theorem X5_lookahead_changes_nothing (leftmostX divisor : Q)
  (first : TextItem) (others : list TextItem) (layoutText : string) :
  ~ divisor == 0 ->
  render_line leftmostX divisor (first :: others) layoutText
  = Ok (layoutText
          ++ trimEnd (plain_line (targetColumn leftmostX divisor)
                        (first :: others) 0)
          ++ nl).
Proof.
  intro Hd. unfold render_line.
  rewrite (render_items_assemble leftmostX divisor (first :: others) Hd).
  now rewrite assemble_line_plain.
Qed.

Lemma length_append (a b : string) :
  String.length (a ++ b) = (String.length a + String.length b)%nat.
Proof. induction a as [|c a IH]; simpl; [reflexivity | now rewrite IH]. Qed.

Lemma length_str_repeat_space n : String.length (str_repeat " " n) = n.
Proof. induction n as [|n IH]; simpl; [reflexivity | now rewrite IH]. Qed.

Lemma plain_line_split col pre f post : forall cursor,
  exists before after,
    plain_line col (pre ++ f :: post)%list cursor = before ++ str f ++ after
    /\ (col f - cursor <= Z.of_nat (String.length before))%Z
    /\ (no_overrun col cursor (pre ++ [f])%list ->
        Z.of_nat (String.length before) = (col f - cursor)%Z).
Proof.
  induction pre as [|p pre IH]; intro cursor.
  - exists (str_repeat " " (Z.to_nat (Z.max 0 (col f - cursor)))),
      (plain_line col post (col f + str_length f)%Z).
    cbn [app plain_line]. split; [reflexivity|].
    rewrite length_str_repeat_space. split; [lia|].
    cbn [no_overrun]. intros [H _]. lia.
  - destruct (IH (col p + str_length p)%Z) as (before & after & E & Hge & Heq).
    exists (str_repeat " " (Z.to_nat (Z.max 0 (col p - cursor)))
              ++ str p ++ before), after.
    cbn [app plain_line]. rewrite E. split; [now rewrite !append_assoc|].
    rewrite !length_append, length_str_repeat_space.
    unfold str_length in *. split; [lia|].
    cbn [no_overrun]. intros [H1 H2]. specialize (Heq H2). lia.
Qed.

(** X6. With a non-zero divisor, in the line built for a row every
    fragment's content is there, never left of its target column; and when
    no fragment before it reaches beyond the target column of the next
    one, the content starts exactly at its target column. *)
Theorem X6_fragment_at_its_column (leftmostX divisor : Q)
  (pre post : list TextItem) (f : TextItem) :
  ~ divisor == 0 ->
  let col := targetColumn leftmostX divisor in
  exists before after,
    render_items leftmostX divisor (pre ++ f :: post)%list EmptyString (Fin 0)
    = Ok (before ++ str f ++ after)
    /\ (col f <= Z.of_nat (String.length before))%Z
    /\ (no_overrun col 0 (pre ++ [f])%list ->
        Z.of_nat (String.length before) = col f).
Proof.
  intros Hd col.
  destruct (plain_line_split col pre f post 0) as (before & after & E & Hge & Heq).
  exists before, after. split; [|split].
  - rewrite (render_items_assemble _ _ _ Hd), assemble_line_plain.
    fold col. rewrite E. reflexivity.
  - lia.
  - intro H. rewrite (Heq H). lia.
Qed.

(** ** A non-positive tolerance *)

Lemma push_to_group_never yTol item groups :
  yTol <= 0 -> push_to_group yTol item groups = None.
Proof.
  intro Hneg. apply push_to_group_None, Forall_forall.
  intros g _ W. unfold within in W.
  pose proof (Qabs_nonneg (y item - fst g)). lra.
Qed.

Lemma map_set_lone item groups :
  Forall lone groups -> Forall lone (map_set (y item) [item] groups).
Proof.
  induction 1 as [|[k old] rest Hg Hrest IH]; cbn [map_set].
  - constructor; [|constructor]. exists item. split; reflexivity.
  - destruct (Qeq_bool k (y item)) eqn:E.
    + constructor; [|assumption]. exists item. split; [reflexivity|].
      now apply Qeq_bool_iff.
    + constructor; assumption.
Qed.

Lemma map_set_distinct key v groups :
  ForallOrdPairs (fun a b => ~ a == b) (map fst groups) ->
  ForallOrdPairs (fun a b => ~ a == b) (map fst (map_set key v groups)).
Proof.
  induction groups as [|[k old] rest IH]; intro D; cbn [map_set].
  - constructor; constructor.
  - destruct (Qeq_bool k key) eqn:E; [exact D|].
    cbn [map fst] in *. inversion D as [|? ? Dk Drest]; subst.
    constructor; [|now apply IH].
    destruct (map_set_keys key v rest) as [K|K]; rewrite K; [exact Dk|].
    rewrite map_app. apply Forall_app. split; [exact Dk|].
    constructor; [|constructor]. cbn [fst].
    now apply Qeq_bool_neq.
Qed.

(** The keys of the groups are distinct numbers, for every tolerance. *)
Lemma cluster_keys_distinct yTol items :
  ForallOrdPairs (fun a b => ~ a == b) (map fst (cluster yTol items)).
Proof.
  unfold cluster.
  assert (G : forall groups,
             ForallOrdPairs (fun a b => ~ a == b) (map fst groups) ->
             ForallOrdPairs (fun a b => ~ a == b)
               (map fst (fold_left (cluster_step yTol) items groups))).
  { induction items as [|item rest IH]; intros groups D; cbn [fold_left];
      [exact D|].
    apply IH. unfold cluster_step.
    destruct (push_to_group yTol item groups) as [r|] eqn:P.
    - apply push_to_group_Some in P.
      destruct P as (g1 & k & its & g2 & -> & _ & _ & ->).
      rewrite map_app in *. exact D.
    - now apply map_set_distinct. }
  apply G. constructor.
Qed.

Lemma cluster_lone yTol items :
  yTol <= 0 -> Forall lone (cluster yTol items).
Proof.
  intro Hneg. unfold cluster.
  assert (G : forall groups, Forall lone groups ->
             Forall lone (fold_left (cluster_step yTol) items groups)).
  { induction items as [|item rest IH]; intros groups L; cbn [fold_left];
      [exact L|].
    apply IH. unfold cluster_step.
    rewrite (push_to_group_never yTol item groups Hneg).
    now apply map_set_lone. }
  apply G. constructor.
Qed.

Lemma ForallOrdPairs_map {A B} (f : A -> B) (R : B -> B -> Prop) l :
  ForallOrdPairs R (map f l) <-> ForallOrdPairs (fun a b => R (f a) (f b)) l.
Proof.
  induction l as [|a l IH]; cbn [map].
  - split; constructor.
  - split; intro F; inversion F as [|? ? Fa Fl]; subst; constructor.
    + rewrite Forall_map in Fa. exact Fa.
    + now apply IH.
    + rewrite Forall_map. exact Fa.
    + now apply IH.
Qed.

(** X2. On every page and for every tolerance, the rows are rendered from
    top to bottom: of two rows, the anchor of the earlier one is strictly
    above the anchor of the later one; and within every line the fragments
    are in ascending x. *)
Theorem X2_rows_top_down_fragments_left_right
  (opts : Required_PdfExtractionOptions) (page : PageLayoutData) :
  let rows := sortedYGroups (yGroups opts page) in
  value (page_lines opts page) = Ok (map (fun g => sort_by_x (snd g)) rows)
  /\ Permutation (yGroups opts page) rows
  /\ ForallOrdPairs (fun g1 g2 => fst g2 < fst g1) rows
  /\ Forall (StronglySorted (fun a b => x a <= x b))
       (map (fun g => sort_by_x (snd g)) rows).
Proof.
  intro rows. split; [apply page_lines_value|].
  split; [apply array_sort_perm|]. split.
  - assert (D : ForallOrdPairs (fun g1 g2 => fst g2 <= fst g1) rows)
      by apply StronglySorted_pairs, sortedYGroups_descending.
    assert (K : ForallOrdPairs (fun g1 g2 => ~ fst g1 == fst g2) rows).
    { pose proof (cluster_keys_distinct (yTolerance opts) (sortedItems page))
        as K.
      fold (yGroups opts page) in K. apply ForallOrdPairs_map in K.
      eapply ForallOrdPairs_perm; [|apply array_sort_perm | exact K].
      intros a b H C. apply H. now symmetry. }
    eapply ForallOrdPairs_impl; [|exact (ForallOrdPairs_and _ _ _ D K)].
    intros g1 g2 [Hle Hne]. cbv beta in *.
    destruct (Qlt_le_dec (fst g2) (fst g1)) as [L|L]; [exact L|].
    exfalso. apply Hne. lra.
  - apply Forall_map, Forall_forall. intros g _. apply sort_by_x_ascending.
Qed.

(** X8. With a non-positive [yTolerance] no fragment ever joins a row:
    every line holds exactly one fragment of the page, and of two lines the
    earlier one is strictly higher, so of the fragments that share a y only
    one is rendered. *)
Theorem X8_non_positive_tolerance (opts : Required_PdfExtractionOptions)
  (page : PageLayoutData) :
  yTolerance opts <= 0 ->
  exists fragments,
    value (page_lines opts page) = Ok (map (fun f => [f]) fragments)
    /\ incl fragments (textItems page)
    /\ ForallOrdPairs (fun a b => y b < y a) fragments.
Proof.
  intro Hneg.
  pose proof (cluster_lone (yTolerance opts) (sortedItems page) Hneg) as L.
  pose proof (cluster_keys_distinct (yTolerance opts) (sortedItems page)) as D.
  fold (yGroups opts page) in L, D.
  pose proof (page_lines_value opts page) as E.
  assert (P : Permutation (yGroups opts page)
                (sortedYGroups (yGroups opts page))) by apply array_sort_perm.
  assert (O : ForallOrdPairs (fun g1 g2 => fst g2 <= fst g1)
                (sortedYGroups (yGroups opts page)))
    by apply StronglySorted_pairs, sortedYGroups_descending.
  assert (L' : Forall lone (sortedYGroups (yGroups opts page)))
    by (eapply Permutation_Forall; eassumption).
  assert (D' : ForallOrdPairs (fun g1 g2 => ~ fst g1 == fst g2)
                 (sortedYGroups (yGroups opts page))).
  { apply ForallOrdPairs_map in D.
    eapply ForallOrdPairs_perm; [|exact P | exact D].
    intros a b H C. apply H. now symmetry. }
  pose proof (ForallOrdPairs_and _ _ _ O D') as OD.
  assert (In_page : forall k its, In (k, its) (sortedYGroups (yGroups opts page)) ->
                      incl (sort_by_x its) (textItems page)).
  { intros k its Hin. apply (line_fragments_on_page opts page).
    apply in_map_iff. exists (k, its). now split. }
  rewrite E. clear E P O D D' L.
  enough (G : exists fragments,
             map (fun g => sort_by_x (snd g)) (sortedYGroups (yGroups opts page))
             = map (fun f => [f]) fragments
             /\ incl fragments (textItems page)
             /\ ForallOrdPairs (fun a b => y b < y a) fragments).
  { destruct G as (fs & -> & G). now exists fs. }
  revert L' OD In_page. generalize (sortedYGroups (yGroups opts page)).
  intro rows. induction rows as [|[k its] rows IH]; intros L OD In_page.
  - exists []. repeat split; [apply incl_nil_l | constructor].
  - inversion L as [|? ? (item & Hs & Hk) Lr]; subst.
    inversion OD as [|? ? Oa Or]; subst. cbn [snd fst] in *. subst its.
    destruct (IH Lr Or) as (fs & Efs & Ifs & Ofs).
    { intros k' its' Hin. apply (In_page k' its'). now right. }
    exists (item :: fs). cbn [map snd]. rewrite Efs.
    split; [reflexivity|]. split.
    + intros c [<- | Hc]; [|now apply Ifs].
      apply (In_page k [item]); [now left | now left].
    + constructor; [|exact Ofs].
      apply Forall_forall. intros b Hb.
      assert (Hrow : exists g, In g rows /\ sort_by_x (snd g) = [b]).
      { assert (Hb' : In [b] (map (fun f => [f]) fs))
          by (apply in_map_iff; now exists b).
        rewrite <- Efs in Hb'. apply in_map_iff in Hb'.
        destruct Hb' as (g & Eg & Hg). now exists g. }
      destruct Hrow as ([kb itsb] & Hg & Eb). cbn [snd] in Eb.
      rewrite Forall_forall in Oa, Lr.
      destruct (Oa _ Hg) as [Hle Hne]. cbn [fst] in *.
      destruct (Lr _ Hg) as (ib & Hib & Hkb). cbn [snd fst] in *. subst itsb.
      change (sort_by_x [ib]) with [ib] in Eb. injection Eb as ->.
      destruct (Qlt_le_dec (y b) (y item)) as [Hlt|Hge]; [exact Hlt|].
      exfalso. apply Hne. rewrite Hk, Hkb in *. lra.
Qed.

(** ** The entry points *)

(** What a returned layout object is made of. *)
Lemma layout_result_inv env filePath options data :
  value (extractTextFromPdf env filePath options) = Ok (LayoutData data) ->
  exists pdf layoutText,
    load env filePath = Ok pdf
    /\ includeLayout (with_defaults options) = true
    /\ value (reconstructLayout
                (collectedLayouts (collect (with_defaults options) pdf))
                (with_defaults options)) = Ok layoutText
    /\ data = layout_data pdf (collect (with_defaults options) pdf) layoutText.
Proof.
  rewrite extractTextFromPdf_value.
  destruct (load env filePath) as [pdf|e]; [|intro H; discriminate H].
  cbv zeta. destruct (includeLayout (with_defaults options));
    [|intro H; discriminate H].
  destruct (value (reconstructLayout _ _)) as [t|e] eqn:R;
    [|intro H; discriminate H].
  intro H. injection H as <-. exists pdf, t. auto.
Qed.

Lemma flat_result_inv env filePath options t :
  value (extractTextFromPdf env filePath options) = Ok (FlatText t) ->
  includeLayout (with_defaults options) = false.
Proof.
  rewrite extractTextFromPdf_value.
  destruct (load env filePath) as [pdf|e]; [|intro H; discriminate H].
  cbv zeta. destruct (includeLayout (with_defaults options)); [|reflexivity].
  destruct (value (reconstructLayout _ _)); intro H; discriminate H.
Qed.

Lemma no_layout_quiet env filePath options :
  includeLayout (with_defaults options) = false ->
  stderr (extractTextFromPdf env filePath options) = [].
Proof.
  intro Hl. unfold extractTextFromPdf. rewrite stderr_try_catch_throw.
  apply quiet_bind; [destruct filePath; reflexivity|].
  intro pdfBuffer. apply quiet_bind; [reflexivity|].
  intro pdf. cbv zeta. rewrite Hl. reflexivity.
Qed.

(** X9. [extractText] writes nothing on the diagnostic channel; when the
    document loads it returns the flat text, a string as its type says,
    whatever the document holds; when it does not load it throws the
    wrapped message. *)
Theorem X9_extractText_returns_flat_text (env : Env) (filePath : Source) :
  stderr (extractText env filePath) = []
  /\ value (extractText env filePath)
     = match load env filePath with
       | Ok pdf => Ok (FlatText (concat_with_eol (document_items pdf)))
       | Err e => Err (wrapped e)
       end.
Proof.
  unfold extractText. split; [now apply no_layout_quiet|].
  rewrite extractTextFromPdf_value.
  destruct (load env filePath) as [pdf|e]; [|reflexivity].
  cbv zeta. cbn [with_defaults includeLayout opt_includeLayout].
  unfold collect. rewrite collect_pages_text. reflexivity.
Qed.

(** X10. What [extractLayoutData] returns is a layout object, as its type
    says, never a bare string; its [text] is what [extractText] returns for
    the same source, and its [layoutText] is the reconstruction of its
    [pageLayouts] under the given options and the defaults. *)
Theorem X10_extractLayoutData_returns_layout (env : Env) (filePath : Source)
  (options : PdfExtractionOptions) (r : PdfExtractionResult) :
  value (extractLayoutData env filePath options) = Ok r ->
  exists data,
    r = LayoutData data
    /\ value (extractText env filePath) = Ok (FlatText (text data))
    /\ value (reconstructLayout (pageLayouts data)
                {| includeLayout := true;
                   yTolerance := yTolerance (with_defaults options);
                   characterWidthDivisor :=
                     characterWidthDivisor (with_defaults options);
                   enableDebug := enableDebug (with_defaults options) |})
       = Ok (layoutText data).
Proof.
  intro H. destruct r as [t|data].
  - apply flat_result_inv in H. discriminate H.
  - exists data. split; [reflexivity|].
    apply layout_result_inv in H.
    destruct H as (pdf & t & Hload & _ & Hrec & ->). split.
    + unfold extractText. rewrite extractTextFromPdf_value, Hload.
      cbv zeta. cbn [with_defaults includeLayout opt_includeLayout].
      cbn [layout_data text]. unfold collect.
      rewrite !collect_pages_text. reflexivity.
    + cbn [layout_data pageLayouts layoutText]. exact Hrec.
Qed.

(** X11. When reading or parsing fails with a message, the entry point
    throws "Failed to extract text from PDF: " followed by that message,
    for every option, and writes nothing. *)
Theorem X11_load_failure_is_wrapped (env : Env) (filePath : Source)
  (options : PdfExtractionOptions) (e : string) :
  load env filePath = Err e ->
  extractTextFromPdf env filePath options
  = ([], Err ("Failed to extract text from PDF: " ++ e)).
Proof.
  intro Hload. unfold extractTextFromPdf, load in *.
  destruct filePath as [p|b].
  - cbn [lift bind]. destruct (readFile env p) as [buf|e'].
    + cbn [bind lift]. rewrite Hload. reflexivity.
    + injection Hload as ->. reflexivity.
  - cbn [ret bind lift]. rewrite Hload. reflexivity.
Qed.

(** ** What is collected *)

Lemma collect_pages_layouts opts remaining : forall n st,
  includeLayout opts = true ->
  map pageNumber (collectedLayouts (collect_pages opts remaining n st))
  = (map pageNumber (collectedLayouts st)
       ++ map (fun i => (n + Z.of_nat i)%Z) (seq 0 (List.length remaining)))%list
  /\ map textItems (collectedLayouts (collect_pages opts remaining n st))
     = (map textItems (collectedLayouts st) ++ map page_items remaining)%list
  /\ map viewport (collectedLayouts (collect_pages opts remaining n st))
     = (map viewport (collectedLayouts st) ++ map getViewport remaining)%list.
Proof.
  induction remaining as [|page rest IH]; intros n st Hl.
  - cbn [collect_pages List.length seq map]. now rewrite !app_nil_r.
  - cbn [collect_pages]. rewrite collect_items_text.
    cbn [app]. fold (page_items page). rewrite Hl.
    match goal with
    | |- context [collect_pages opts rest ?m ?s] =>
        destruct (IH m s Hl) as (E1 & E2 & E3)
    end.
    rewrite E1, E2, E3. cbn [collectedLayouts].
    rewrite !map_app. cbn [map pageNumber textItems viewport List.length seq].
    rewrite <- !app_assoc. cbn [app]. repeat split.
    f_equal. f_equal; [f_equal; lia|].
    rewrite <- seq_shift, map_map. apply map_ext. intro i. lia.
Qed.

Lemma collect_pages_count opts remaining : forall n st,
  collectedItems (collect_pages opts remaining n st)
  = (collectedItems st + List.length (flat_map page_items remaining))%nat.
Proof.
  induction remaining as [|page rest IH]; intros n st.
  - cbn [collect_pages flat_map List.length]. lia.
  - cbn [collect_pages flat_map]. rewrite collect_items_text.
    cbn [app]. fold (page_items page). rewrite IH. cbn [collectedItems].
    rewrite length_app. lia.
Qed.

(** X12. A returned layout object describes the document: its
    [pageLayouts] are the pages in order, numbered 1, 2, ... up to [pages],
    each with the fragments and the viewport of its page; [totalTextItems]
    counts the fragments of the document and [textLength] is the length of
    [text]. *)
Theorem X12_layout_object_describes_document (env : Env) (filePath : Source)
  (options : PdfExtractionOptions) (pdf : PdfDocument) (data : PdfLayoutData) :
  load env filePath = Ok pdf ->
  value (extractTextFromPdf env filePath options) = Ok (LayoutData data) ->
  map pageNumber (pageLayouts data)
  = map Z.of_nat (seq 1 (List.length (doc_pages pdf)))
  /\ map textItems (pageLayouts data) = map page_items (doc_pages pdf)
  /\ map viewport (pageLayouts data) = map getViewport (doc_pages pdf)
  /\ pages data = Z.of_nat (List.length (pageLayouts data))
  /\ meta_pages (metadata data) = pages data
  /\ totalTextItems (rawData data) = List.length (document_items pdf)
  /\ textLength (rawData data) = String.length (text data).
Proof.
  intros Hload H. apply layout_result_inv in H.
  destruct H as (pdf' & t & Hload' & Hl & _ & ->).
  rewrite Hload in Hload'. injection Hload' as <-.
  cbn [layout_data pageLayouts pages metadata meta_pages rawData
       totalTextItems textLength text].
  unfold collect.
  destruct (collect_pages_layouts (with_defaults options) (doc_pages pdf) 1
              {| extractedText := EmptyString; collectedLayouts := [];
                 collectedItems := 0 |} Hl) as (E1 & E2 & E3).
  cbn [collectedLayouts map app] in E1, E2, E3.
  assert (N : map pageNumber
                (collectedLayouts
                   (collect_pages (with_defaults options) (doc_pages pdf) 1
                      {| extractedText := EmptyString; collectedLayouts := [];
                         collectedItems := 0 |}))
              = map Z.of_nat (seq 1 (List.length (doc_pages pdf)))).
  { rewrite E1, <- seq_shift, map_map. apply map_ext. intro i. lia. }
  split; [exact N|]. split; [exact E2|]. split; [exact E3|]. split.
  - unfold numPages. apply (f_equal (@List.length Z)) in N.
    rewrite !length_map, length_seq in N. now rewrite N.
  - split; [reflexivity|]. split; [|reflexivity].
    rewrite collect_pages_count. reflexivity.
Qed.


(** ** The debug records *)

Lemma debug_items_stderr items count :
  stderr (debug_items items count)
  = map (fun item => debug_line item count) items.
Proof.
  induction items as [|item rest IH]; [reflexivity|].
  cbn [debug_items map]. rewrite stderr_bind. cbn [tell value snd stderr fst].
  now rewrite IH.
Qed.

Lemma second_pass_stderr opts groups :
  enableDebug opts = true ->
  stderr (second_pass opts groups)
  = flat_map (fun line => map (fun item => debug_line item (List.length line)) line)
      (map (fun g => sort_by_x (snd g)) groups).
Proof.
  intro Hd. induction groups as [|[k its] rest IH]; [reflexivity|].
  cbn [second_pass map flat_map snd]. rewrite Hd, stderr_bind.
  rewrite debug_items_value, debug_items_stderr. f_equal.
  rewrite stderr_bind, second_pass_value, IH. cbn [ret stderr fst].
  now rewrite app_nil_r.
Qed.

Lemma length_flat_map_map {A B} (f : list A -> A -> B) (ls : list (list A)) :
  List.length (flat_map (fun l => map (f l) l) ls)
  = List.length (List.concat ls).
Proof.
  induction ls as [|l ls IH]; [reflexivity|].
  cbn [flat_map List.concat]. now rewrite !length_app, length_map, IH.
Qed.

(** X14. With [enableDebug] the lines of a page are reported on the
    diagnostic channel in their final order, from the top row to the bottom
    one and from left to right within a row, each fragment with the number
    of fragments of its row; with a positive [yTolerance] that is one
    record for every fragment of the page. *)
Theorem X14_debug_records (opts : Required_PdfExtractionOptions)
  (page : PageLayoutData) :
  enableDebug opts = true ->
  exists lines,
    value (page_lines opts page) = Ok lines
    /\ stderr (page_lines opts page)
       = flat_map
           (fun line => map (fun item => debug_line item (List.length line)) line)
           lines
    /\ (0 < yTolerance opts ->
        List.length (stderr (page_lines opts page))
        = List.length (textItems page)).
Proof.
  intro Hd. eexists. split; [apply page_lines_value|].
  assert (E : stderr (page_lines opts page)
              = flat_map
                  (fun line =>
                     map (fun item => debug_line item (List.length line)) line)
                  (map (fun g => sort_by_x (snd g))
                     (sortedYGroups (yGroups opts page))))
    by (unfold page_lines; now apply second_pass_stderr).
  split; [exact E|]. intro Hpos. rewrite E.
  rewrite (length_flat_map_map
             (fun line item => debug_line item (List.length line))).
  apply Permutation_length.
  eapply Permutation_trans; [apply sorted_lines_members|].
  eapply Permutation_trans;
    [apply members_perm, Permutation_sym, array_sort_perm|].
  unfold yGroups, cluster.
  eapply Permutation_trans; [apply (fold_cluster_members _ _ [] Hpos)|].
  apply Permutation_sym, array_sort_perm.
Qed.

(** ** Pages without fragments and pages with one *)

Lemma reconstruct_pages_cons opts page rest acc :
  value (reconstruct_pages opts (page :: rest) acc)
  = match value (render_page opts page acc) with
    | Ok t => value (reconstruct_pages opts rest t)
    | Err e => Err e
    end.
Proof. cbn [reconstruct_pages]. apply value_bind. Qed.

(** X15. A page without fragments adds its banner, when its number is
    greater than 1, and nothing else to the text of the document, for
    every configuration; with the number 1 or less the text is that of the
    document without the page. *)
Theorem X15_page_without_fragments (opts : Required_PdfExtractionOptions)
  (pre post : list PageLayoutData) (page : PageLayoutData) :
  textItems page = [] ->
  value (reconstructLayout (pre ++ page :: post) opts)
  = match value (reconstructLayout pre opts) with
    | Ok before =>
        result_map
          (fun after =>
             before
               ++ (if (1 <? pageNumber page)%Z
                   then banner (pageNumber page) else EmptyString)
               ++ after)
          (value (reconstructLayout post opts))
    | Err e => Err e
    end.
Proof.
  intro Hempty. unfold reconstructLayout.
  rewrite reconstruct_pages_app.
  destruct (value (reconstruct_pages opts pre EmptyString)) as [before|e];
    [|reflexivity].
  rewrite reconstruct_pages_cons, render_page_value.
  assert (C : value (page_content opts page EmptyString) = Ok EmptyString).
  { unfold page_content, sortedItems. now rewrite Hempty. }
  rewrite C. cbn [result_map]. rewrite reconstruct_pages_acc.
  destruct (value (reconstruct_pages opts post EmptyString)) as [after|e];
    [|reflexivity].
  cbn [result_map]. now rewrite append_nil_r, append_assoc.
Qed.

(** X16. With a non-zero divisor a page with a single fragment is one
    line: the fragment's content without leading spaces, stripped of its
    trailing white space, and a newline; this holds wherever the fragment
    is, for every tolerance. *)
Theorem X16_single_fragment_page (opts : Required_PdfExtractionOptions)
  (pn : Z) (vp : Viewport) (f : TextItem) (layoutText : string) :
  ~ characterWidthDivisor opts == 0 ->
  value (render_page opts
           {| pageNumber := pn; textItems := [f]; viewport := vp |} layoutText)
  = Ok (layoutText
          ++ (if (1 <? pn)%Z then banner pn else EmptyString)
          ++ trimEnd (str f) ++ nl).
Proof.
  intro Hd. rewrite render_page_value.
  now rewrite (single_fragment_page opts pn vp f Hd).
Qed.

(** ** Only contents and positions matter *)

Lemma Qltb_same a b a' b' :
  (a < b <-> a' < b') -> Qltb a b = Qltb a' b'.
Proof.
  intro H. destruct (Qltb a b) eqn:E1; destruct (Qltb a' b') eqn:E2;
    try reflexivity.
  - apply Qltb_lt in E1. apply Qltb_ge in E2. apply H in E1. lra.
  - apply Qltb_ge in E1. apply Qltb_lt in E2. apply H in E2. lra.
Qed.

Lemma Qeq_bool_same a b a' b' :
  (a == b <-> a' == b') -> Qeq_bool a b = Qeq_bool a' b'.
Proof.
  intro H. destruct (Qeq_bool a b) eqn:E1; destruct (Qeq_bool a' b') eqn:E2;
    try reflexivity.
  - apply Qeq_bool_iff in E1. apply Qeq_bool_neq in E2. now apply H in E1.
  - apply Qeq_bool_neq in E1. apply Qeq_bool_iff in E2. now apply H in E2.
Qed.

Section SortRelated.
Context {A : Type} (R : A -> A -> Prop) (cmp cmp' : A -> A -> Q).
Hypothesis same_sign : forall a a' b b',
  R a a' -> R b b' -> Qltb (cmp' a' b') 0 = Qltb (cmp a b) 0.

Lemma sort_insert_related v v' l l' :
  R v v' -> Forall2 R l l' ->
  Forall2 R (sort_insert cmp v l) (sort_insert cmp' v' l').
Proof.
  intros Hv. induction 1 as [|h h' t t' Hh Ht IH]; cbn [sort_insert].
  - constructor; [exact Hv | constructor].
  - rewrite (same_sign v v' h h' Hv Hh).
    destruct (Qltb (cmp v h) 0).
    + constructor; [exact Hv|]. constructor; assumption.
    + constructor; assumption.
Qed.

Lemma array_sort_related l l' :
  Forall2 R l l' -> Forall2 R (array_sort cmp l) (array_sort cmp' l').
Proof.
  unfold array_sort.
  assert (G : forall acc acc', Forall2 R acc acc' -> Forall2 R l l' ->
             Forall2 R (fold_left (fun a v => sort_insert cmp v a) l acc)
               (fold_left (fun a v => sort_insert cmp' v a) l' acc')).
  { intros acc acc' Hacc Hl. revert acc acc' Hacc.
    induction Hl as [|h h' t t' Hh Ht IH]; intros acc acc' Hacc;
      cbn [fold_left]; [exact Hacc|].
    apply IH. now apply sort_insert_related. }
  apply G. constructor.
Qed.
End SortRelated.

Section Moved.
Variables s cx cy : Q.
Hypothesis s_positive : 0 < s.

Lemma compareItems_moved a a' b b' :
  moved s cx cy a a' -> moved s cx cy b b' ->
  Qltb (compareItems a' b') 0 = Qltb (compareItems a b) 0.
Proof.
  intros (_ & Xa & Ya) (_ & Xb & Yb). unfold compareItems.
  assert (E : y b' - y a' == y b - y a) by lra.
  rewrite (Qltb_same (Qabs (y b' - y a')) 10 (Qabs (y b - y a)) 10)
    by (now rewrite E).
  destruct (Qltb (Qabs (y b - y a)) 10); apply Qltb_same.
  - assert (D : x a' - x b' == s * (x a - x b)) by lra. rewrite D.
    split; intro H; nra.
  - now rewrite E.
Qed.

Lemma by_x_moved a a' b b' :
  moved s cx cy a a' -> moved s cx cy b b' ->
  Qltb (x a' - x b') 0 = Qltb (x a - x b) 0.
Proof.
  intros (_ & Xa & _) (_ & Xb & _). apply Qltb_same.
  assert (D : x a' - x b' == s * (x a - x b)) by lra. rewrite D.
  split; intro H; nra.
Qed.

Lemma by_key_moved g g' h h' :
  group_moved s cx cy g g' -> group_moved s cx cy h h' ->
  Qltb (fst h' - fst g') 0 = Qltb (fst h - fst g) 0.
Proof.
  intros [Kg _] [Kh _]. apply Qltb_same. rewrite Kg, Kh. split; intro; lra.
Qed.

Lemma push_to_group_moved yTol item item' groups groups' :
  moved s cx cy item item' ->
  Forall2 (group_moved s cx cy) groups groups' ->
  match push_to_group yTol item groups,
        push_to_group yTol item' groups' with
  | Some r, Some r' => Forall2 (group_moved s cx cy) r r'
  | None, None => True
  | _, _ => False
  end.
Proof.
  intros Hi. induction 1 as [|[k its] [k' its'] rest rest' [Hk Hits] Hrest IH];
    cbn [push_to_group]; [exact I|].
  cbn [fst snd] in Hk, Hits. destruct Hi as (Hs & Hx & Hy).
  assert (E : Qabs (y item' - k') == Qabs (y item - k)).
  { assert (E0 : y item' - k' == y item - k) by lra. now rewrite E0. }
  rewrite (Qltb_same (Qabs (y item' - k')) yTol (Qabs (y item - k)) yTol)
    by (now rewrite E).
  destruct (Qltb (Qabs (y item - k)) yTol).
  - constructor; [|exact Hrest]. split; [exact Hk|]. cbn [snd].
    apply Forall2_app; [exact Hits|].
    constructor; [|constructor]. repeat split; assumption.
  - destruct (push_to_group yTol item rest);
      destruct (push_to_group yTol item' rest'); cbn [option_map];
      try exact IH.
    constructor; [|exact IH]. now split.
Qed.

Lemma map_set_moved item item' groups groups' :
  moved s cx cy item item' ->
  Forall2 (group_moved s cx cy) groups groups' ->
  Forall2 (group_moved s cx cy) (map_set (y item) [item] groups)
    (map_set (y item') [item'] groups').
Proof.
  intros Hi. pose proof Hi as (Hs & Hx & Hy).
  induction 1 as [|[k its] [k' its'] rest rest' [Hk Hits] Hrest IH];
    cbn [map_set].
  - constructor; [|constructor]. split; cbn [fst snd]; [exact Hy|].
    constructor; [exact Hi | constructor].
  - cbn [fst snd] in Hk, Hits.
    rewrite (Qeq_bool_same k' (y item') k (y item))
      by (rewrite Hk, Hy; split; intro; lra).
    destruct (Qeq_bool k (y item)).
    + constructor; [|exact Hrest]. split; cbn [fst snd]; [exact Hk|].
      constructor; [exact Hi | constructor].
    + constructor; [now split | exact IH].
Qed.

Lemma cluster_moved yTol items items' :
  Forall2 (moved s cx cy) items items' ->
  Forall2 (group_moved s cx cy) (cluster yTol items) (cluster yTol items').
Proof.
  unfold cluster. intro Hl.
  assert (G : forall groups groups',
             Forall2 (group_moved s cx cy) groups groups' ->
             Forall2 (group_moved s cx cy)
               (fold_left (cluster_step yTol) items groups)
               (fold_left (cluster_step yTol) items' groups')).
  { induction Hl as [|h h' t t' Hh Ht IH]; intros groups groups' Hg;
      cbn [fold_left]; [exact Hg|].
    apply IH. unfold cluster_step.
    pose proof (push_to_group_moved yTol h h' groups groups' Hh Hg) as P.
    destruct (push_to_group yTol h groups);
      destruct (push_to_group yTol h' groups'); try contradiction;
      [exact P | now apply map_set_moved]. }
  apply G. constructor.
Qed.
End Moved.

Section MovedLines.
Variables s cx cy : Q.
Hypothesis s_positive : 0 < s.

Lemma sortedItems_moved p p' :
  Forall2 (moved s cx cy) (textItems p) (textItems p') ->
  Forall2 (moved s cx cy) (sortedItems p) (sortedItems p').
Proof.
  intro H. unfold sortedItems. apply array_sort_related; [|exact H].
  intros a a' b b'. now apply compareItems_moved.
Qed.

Lemma lines_moved yTol p p' :
  Forall2 (moved s cx cy) (textItems p) (textItems p') ->
  Forall2 (Forall2 (moved s cx cy))
    (map (fun g => sort_by_x (snd g))
       (sortedYGroups (cluster yTol (sortedItems p))))
    (map (fun g => sort_by_x (snd g))
       (sortedYGroups (cluster yTol (sortedItems p')))).
Proof.
  intro H.
  assert (G : Forall2 (group_moved s cx cy)
                (sortedYGroups (cluster yTol (sortedItems p)))
                (sortedYGroups (cluster yTol (sortedItems p')))).
  { unfold sortedYGroups.
    apply (array_sort_related (group_moved s cx cy)).
    - intros g g' h h' Hg Hh. cbv beta. exact (by_key_moved s cx cy g g' h h' Hg Hh).
    - apply cluster_moved. now apply sortedItems_moved. }
  induction G as [|g g' t t' [_ Hg] _ IH]; cbn [map]; constructor; [|exact IH].
  unfold sort_by_x. apply array_sort_related; [|exact Hg].
  intros a a' b b'. now apply by_x_moved.
Qed.

Lemma Qmin_moved a b a' b' :
  a' == s * a + cx -> b' == s * b + cx -> Qmin a' b' == s * Qmin a b + cx.
Proof.
  intros Ha Hb. destruct (Qlt_le_dec b a) as [L|L].
  - rewrite (Q.min_r a b) by lra. rewrite (Q.min_r a' b') by nra. exact Hb.
  - rewrite (Q.min_l a b) by lra. rewrite (Q.min_l a' b') by nra. exact Ha.
Qed.

Lemma math_min_moved items items' :
  Forall2 (moved s cx cy) items items' ->
  match math_min (map x items), math_min (map x items') with
  | Some m, Some m' => m' == s * m + cx
  | None, None => True
  | _, _ => False
  end.
Proof.
  intro H. destruct H as [|h h' t t' (_ & Hx & _) Ht]; cbn [map math_min];
    [exact I|].
  revert Hx. generalize (x h) (x h'). induction Ht as [|a a' t t' Ha _ IH];
    intros m m' Hm; cbn [map fold_left]; [exact Hm|].
  apply IH. apply Qmin_moved; [exact Hm|]. now destruct Ha as (_ & Xa & _).
Qed.

Variables divisor divisor' : Q.
Hypothesis divisor_scaled : divisor' == s * divisor.

Lemma targetPos_moved m m' a a' :
  m' == s * m + cx -> moved s cx cy a a' ->
  targetPos_of m' divisor' a' = targetPos_of m divisor a.
Proof.
  intros Hm (_ & Hx & _). unfold targetPos_of, round_div.
  assert (N : x a' - m' == s * (x a - m)) by lra.
  rewrite (Qeq_bool_same divisor' 0 divisor 0)
    by (rewrite divisor_scaled; split; intro; nra).
  destruct (Qeq_bool divisor 0) eqn:D.
  - rewrite (Qltb_same 0 (x a' - m') 0 (x a - m))
      by (rewrite N; split; intro; nra).
    rewrite (Qltb_same (x a' - m') 0 (x a - m) 0)
      by (rewrite N; split; intro; nra).
    reflexivity.
  - apply Qeq_bool_neq in D. f_equal. apply Qfloor_comp.
    rewrite N, divisor_scaled. apply Qplus_inj_r. field. split; [exact D | lra].
Qed.

Lemma render_items_moved m m' line line' :
  m' == s * m + cx -> Forall2 (moved s cx cy) line line' ->
  forall lineText lastPos,
    render_items m' divisor' line' lineText lastPos
    = render_items m divisor line lineText lastPos.
Proof.
  intros Hm. induction 1 as [|a a' t t' Ha Ht IH]; intros lineText lastPos;
    [reflexivity|].
  cbn [render_items].
  assert (Step : render_step m' divisor' a' (hd_error t') lineText lastPos
                 = render_step m divisor a (hd_error t) lineText lastPos).
  { unfold render_step. rewrite (targetPos_moved m m' a a' Hm Ha).
    assert (Hs : str a' = str a) by now destruct Ha.
    unfold str_length. rewrite Hs.
    destruct Ht as [|b b' u u' Hb Hu]; cbn [hd_error]; [reflexivity|].
    now rewrite (targetPos_moved m m' b b' Hm Hb). }
  rewrite Step.
  destruct (render_step m divisor a (hd_error t) lineText lastPos)
    as [[lineText' lastPos']|e]; [apply IH | reflexivity].
Qed.

Lemma render_lines_moved m m' lines lines' :
  m' == s * m + cx -> Forall2 (Forall2 (moved s cx cy)) lines lines' ->
  forall layoutText,
    render_lines m' divisor' lines' layoutText
    = render_lines m divisor lines layoutText.
Proof.
  intros Hm. induction 1 as [|l l' t t' Hl Ht IH]; intro layoutText;
    [reflexivity|].
  cbn [render_lines]. unfold render_line.
  destruct Hl as [|a a' u u' Ha Hu]; [apply IH|].
  rewrite (render_items_moved m m' (a :: u) (a' :: u') Hm
             (Forall2_cons _ _ Ha Hu)).
  destruct (render_items m divisor (a :: u) EmptyString (Fin 0));
    [apply IH | reflexivity].
Qed.
End MovedLines.

Lemma page_content_moved s opts opts' p p' acc :
  0 < s ->
  yTolerance opts' = yTolerance opts ->
  characterWidthDivisor opts' == s * characterWidthDivisor opts ->
  page_moved s p p' ->
  value (page_content opts' p' acc) = value (page_content opts p acc).
Proof.
  intros Hs Ht Hd [_ (cx & cy & Hitems)]. unfold page_content.
  pose proof (sortedItems_moved s cx cy Hs p p' Hitems) as Hsorted.
  destruct Hsorted as [|a a' t t' _ _]; [reflexivity|].
  rewrite !value_bind, !page_lines_value. unfold yGroups. rewrite Ht.
  pose proof (lines_moved s cx cy Hs (yTolerance opts) p p' Hitems) as Hl.
  pose proof (math_min_moved s cx cy Hs (textItems p) (textItems p') Hitems)
    as Hm.
  destruct (math_min (map x (textItems p))) as [m|];
    destruct (math_min (map x (textItems p'))) as [m'|];
    try contradiction; [|reflexivity].
  unfold value. cbn [snd].
  exact (render_lines_moved s cx cy Hs _ _ Hd m m' _ _ Hm Hl acc).
Qed.

Lemma same_page_moved p p' : same_page p p' -> page_moved 1 p p'.
Proof.
  intros [Hn Hf]. split; [exact Hn|]. exists 0, 0.
  induction Hf as [|a a' t t' (Hs & Hx & Hy) _ IH]; constructor; [|exact IH].
  repeat split; [exact Hs | rewrite Hx; ring | rewrite Hy; ring].
Qed.

(** X17. The layout text depends only on the page numbers, on the contents
    and the positions (x, y) of the fragments, and on the tolerance and the
    divisor: it is unchanged when widths, heights, fonts, directions,
    transforms, [hasEOL] flags or viewports change, and when the debug flag
    is switched. *)
Theorem X17_layout_depends_on_content_and_position
  (opts opts' : Required_PdfExtractionOptions)
  (pageLayouts pageLayouts' : list PageLayoutData) :
  yTolerance opts' = yTolerance opts ->
  characterWidthDivisor opts' = characterWidthDivisor opts ->
  Forall2 same_page pageLayouts pageLayouts' ->
  value (reconstructLayout pageLayouts' opts')
  = value (reconstructLayout pageLayouts opts).
Proof.
  intros Ht Hd Hpages. unfold reconstructLayout.
  assert (Hd1 : characterWidthDivisor opts' == 1 * characterWidthDivisor opts)
    by (rewrite Hd; ring).
  generalize EmptyString.
  induction Hpages as [|p p' rest rest' Hp _ IH]; intro acc; [reflexivity|].
  rewrite !reconstruct_pages_cons. unfold render_page.
  pose proof (same_page_moved p p' Hp) as Hm.
  destruct Hp as [Hn _]. rewrite Hn.
  rewrite (page_content_moved 1 opts opts' p p' _ eq_refl Ht Hd1 Hm).
  destruct (value (page_content opts p _)); [apply IH | reflexivity].
Qed.

(** ** Pages are rendered one after the other *)

(** X18. The text of a document is the text of its first pages followed
    by the text of the pages after them: nothing but the text is carried
    from a page to the next, and an exception in the first part is the
    exception of the whole. *)
Theorem X18_documents_concatenate (opts : Required_PdfExtractionOptions)
  (first_pages last_pages : list PageLayoutData) :
  value (reconstructLayout (first_pages ++ last_pages) opts)
  = match value (reconstructLayout first_pages opts) with
    | Ok before =>
        result_map (append before) (value (reconstructLayout last_pages opts))
    | Err e => Err e
    end.
Proof.
  unfold reconstructLayout. rewrite reconstruct_pages_app.
  destruct (value (reconstruct_pages opts first_pages EmptyString));
    [apply reconstruct_pages_acc | reflexivity].
Qed.

(** ** Fragments at the same height *)

Lemma fold_cluster_join yTol k items : forall its,
  Forall (fun item => Qabs (y item - k) < yTol) items ->
  fold_left (cluster_step yTol) items [(k, its)] = [(k, (its ++ items)%list)].
Proof.
  induction items as [|item rest IH]; intros its F; cbn [fold_left].
  - now rewrite app_nil_r.
  - inversion F as [|? ? Hi Hr]; subst.
    unfold cluster_step at 2. cbn [push_to_group].
    rewrite (proj2 (Qltb_lt _ _) Hi). rewrite (IH _ Hr).
    now rewrite <- app_assoc.
Qed.

(** X19. With a positive tolerance, a page with at least one fragment
    whose fragments all have the same y is a single line holding all its
    fragments in ascending x. *)
Theorem X19_same_height_one_line (opts : Required_PdfExtractionOptions)
  (page : PageLayoutData) :
  0 < yTolerance opts ->
  textItems page <> [] ->
  (forall a b, In a (textItems page) -> In b (textItems page) ->
     y a == y b) ->
  exists line,
    value (page_lines opts page) = Ok [line]
    /\ Permutation line (textItems page)
    /\ StronglySorted (fun a b => x a <= x b) line.
Proof.
  intros Hpos Hne Hsame. rewrite page_lines_value. unfold yGroups, cluster.
  pose proof (array_sort_perm compareItems (textItems page)) as P.
  fold (sortedItems page) in P.
  destruct (sortedItems page) as [|first rest] eqn:S.
  - apply Permutation_sym, Permutation_nil in P. contradiction.
  - cbn [fold_left].
    change (cluster_step (yTolerance opts) [] first) with [(y first, [first])].
    rewrite fold_cluster_join.
    + exists (sort_by_x (first :: rest)). split; [reflexivity|]. split.
      * eapply Permutation_trans;
          [apply Permutation_sym, array_sort_perm | apply Permutation_sym, P].
      * apply sort_by_x_ascending.
    + apply Forall_forall. intros item Hi.
      assert (E : y item == y first).
      { apply Hsame.
        - eapply Permutation_in; [apply Permutation_sym, P | now right].
        - eapply Permutation_in; [apply Permutation_sym, P | now left]. }
      apply Qabs_Qlt_condition. lra.
Qed.

(** ** Instances of the further properties *)

Lemma ex_layout_returned :
  value (extractLayoutData ex_env (Buffer []) no_options)
  = Ok (LayoutData ex_layout_data).
Proof. reflexivity. Qed.

Lemma X1_witness :
  0 < yTolerance ex_opts
  /\ exists lines,
       value (page_lines ex_opts ex_page) = Ok lines
       /\ Permutation (List.concat lines) (textItems ex_page)
       /\ Forall (fun line => line <> []) lines.
Proof.
  split; [reflexivity|].
  exact (X1_lines_partition_fragments ex_opts ex_page eq_refl).
Defined.

Lemma X3_witness :
  0 < yTolerance ex_opts
  /\ exists lines,
       value (page_lines ex_opts ex_page) = Ok lines
       /\ Forall (fun line =>
                    forall a b, In a line -> In b line ->
                      Qabs (y a - y b) < 2 * yTolerance ex_opts) lines.
Proof.
  split; [reflexivity|].
  exact (X3_row_height_bounded ex_opts ex_page eq_refl).
Defined.

Lemma X4_witness :
  0 < characterWidthDivisor ex_opts
  /\ math_min (map x (textItems ex_page)) = Some 0
  /\ exists lines,
       value (page_lines ex_opts ex_page) = Ok lines
       /\ Forall (fun line =>
                    StronglySorted
                      (fun a b => (targetColumn 0 4 a <= targetColumn 0 4 b)%Z)
                      line
                    /\ Forall (fun a => (0 <= targetColumn 0 4 a)%Z) line)
            lines.
Proof.
  split; [reflexivity|]. split; [reflexivity|].
  exact (X4_target_columns_monotone ex_opts ex_page 0 eq_refl eq_refl).
Defined.

Lemma X5_witness :
  ~ 4 == 0
  /\ render_line 0 4 [fragment "Name" 0 100; fragment "Age" 24 100] EmptyString
     = Ok (EmptyString
             ++ trimEnd (plain_line (targetColumn 0 4)
                           [fragment "Name" 0 100; fragment "Age" 24 100] 0)
             ++ nl).
Proof.
  split; [exact four_not_zero|].
  exact (X5_lookahead_changes_nothing 0 4 (fragment "Name" 0 100)
           [fragment "Age" 24 100] EmptyString four_not_zero).
Defined.

Lemma X6_witness :
  ~ 4 == 0
  /\ no_overrun (targetColumn 0 4) 0
       [fragment "Name" 0 100; fragment "Age" 24 100]
  /\ exists before after,
       render_items 0 4 [fragment "Name" 0 100; fragment "Age" 24 100]
         EmptyString (Fin 0)
       = Ok (before ++ "Age" ++ after)
       /\ (targetColumn 0 4 (fragment "Age" 24 100)
           <= Z.of_nat (String.length before))%Z
       /\ (no_overrun (targetColumn 0 4) 0
             [fragment "Name" 0 100; fragment "Age" 24 100] ->
           Z.of_nat (String.length before)
           = targetColumn 0 4 (fragment "Age" 24 100)).
Proof.
  split; [exact four_not_zero|].
  split; [cbn; repeat split; intro H; discriminate H|].
  exact (X6_fragment_at_its_column 0 4 [fragment "Name" 0 100] []
           (fragment "Age" 24 100) four_not_zero).
Defined.

Lemma X8_witness :
  yTolerance ex_zero_tolerance_opts <= 0
  /\ exists fragments,
       value (page_lines ex_zero_tolerance_opts ex_page)
       = Ok (map (fun f => [f]) fragments)
       /\ incl fragments (textItems ex_page)
       /\ ForallOrdPairs (fun a b => y b < y a) fragments.
Proof.
  assert (Z0 : yTolerance ex_zero_tolerance_opts <= 0)
    by (intro H; discriminate H).
  split; [exact Z0|].
  exact (X8_non_positive_tolerance ex_zero_tolerance_opts ex_page Z0).
Defined.

Lemma X10_witness :
  value (extractLayoutData ex_env (Buffer []) no_options)
  = Ok (LayoutData ex_layout_data)
  /\ exists data,
       LayoutData ex_layout_data = LayoutData data
       /\ value (extractText ex_env (Buffer [])) = Ok (FlatText (text data))
       /\ value (reconstructLayout (pageLayouts data)
                   {| includeLayout := true;
                      yTolerance := yTolerance (with_defaults no_options);
                      characterWidthDivisor :=
                        characterWidthDivisor (with_defaults no_options);
                      enableDebug := enableDebug (with_defaults no_options) |})
          = Ok (layoutText data).
Proof.
  split; [exact ex_layout_returned|].
  exact (X10_extractLayoutData_returns_layout ex_env (Buffer []) no_options
           (LayoutData ex_layout_data) ex_layout_returned).
Defined.

Lemma X11_witness :
  load ex_env (Path "missing.pdf")
  = Err "No such file or directory (os error 2)"
  /\ extractTextFromPdf ex_env (Path "missing.pdf") no_options
     = ([], Err ("Failed to extract text from PDF: "
                   ++ "No such file or directory (os error 2)")).
Proof.
  split; [reflexivity|].
  exact (X11_load_failure_is_wrapped ex_env (Path "missing.pdf") no_options
           "No such file or directory (os error 2)" eq_refl).
Defined.

Lemma X12_witness :
  load ex_env (Buffer []) = Ok ex_doc
  /\ value (extractLayoutData ex_env (Buffer []) no_options)
     = Ok (LayoutData ex_layout_data)
  /\ map pageNumber (pageLayouts ex_layout_data) = [1%Z]
  /\ totalTextItems (rawData ex_layout_data) = 2%nat.
Proof.
  split; [reflexivity|]. split; [exact ex_layout_returned|].
  pose proof (X12_layout_object_describes_document ex_env (Buffer [])
                {| opt_includeLayout := Some true; opt_yTolerance := None;
                   opt_characterWidthDivisor := None;
                   opt_enableDebug := None |}
                ex_doc ex_layout_data eq_refl ex_layout_returned)
    as (E1 & _ & _ & _ & _ & E6 & _).
  split; [exact E1 | exact E6].
Defined.


Lemma X14_witness :
  enableDebug ex_debug_opts = true
  /\ 0 < yTolerance ex_debug_opts
  /\ List.length (stderr (page_lines ex_debug_opts ex_page)) = 3%nat.
Proof.
  split; [reflexivity|]. split; [reflexivity|].
  destruct (X14_debug_records ex_debug_opts ex_page eq_refl)
    as (lines & _ & _ & H).
  exact (H eq_refl).
Defined.

Lemma X15_witness :
  textItems ex_empty_page = []
  /\ value (reconstructLayout [ex_page; ex_empty_page] ex_opts)
     = Ok (("Name      Age" ++ nl ++ "Ada" ++ nl) ++ banner 2 ++ EmptyString).
Proof.
  split; [reflexivity|].
  exact (X15_page_without_fragments ex_opts [ex_page] [] ex_empty_page eq_refl).
Defined.

Lemma X16_witness :
  ~ characterWidthDivisor ex_opts == 0
  /\ value (render_page ex_opts ex_page2 EmptyString)
     = Ok (EmptyString ++ banner 2 ++ "B" ++ nl).
Proof.
  split; [exact four_not_zero|].
  exact (X16_single_fragment_page ex_opts 2 ex_viewport (fragment "B" 10 700)
           EmptyString four_not_zero).
Defined.

Lemma ex_page_is_restyled : Forall2 same_page [ex_page] [ex_page_restyled].
Proof.
  constructor; [|constructor]. split; [reflexivity|]. repeat constructor.
Qed.

Lemma X17_witness :
  yTolerance ex_debug_opts = yTolerance ex_opts
  /\ characterWidthDivisor ex_debug_opts = characterWidthDivisor ex_opts
  /\ Forall2 same_page [ex_page] [ex_page_restyled]
  /\ value (reconstructLayout [ex_page_restyled] ex_debug_opts)
     = value (reconstructLayout [ex_page] ex_opts).
Proof.
  split; [reflexivity|]. split; [reflexivity|].
  split; [exact ex_page_is_restyled|].
  exact (X17_layout_depends_on_content_and_position ex_opts ex_debug_opts
           [ex_page] [ex_page_restyled] eq_refl eq_refl ex_page_is_restyled).
Defined.

Lemma ex_page_row_same_height :
  forall a b, In a (textItems ex_page_row) -> In b (textItems ex_page_row) ->
    y a == y b.
Proof.
  intros a b [<-|[<-|[]]] [<-|[<-|[]]]; reflexivity.
Qed.

Lemma X19_witness :
  0 < yTolerance ex_opts
  /\ textItems ex_page_row <> []
  /\ exists line,
       value (page_lines ex_opts ex_page_row) = Ok [line]
       /\ Permutation line (textItems ex_page_row)
       /\ StronglySorted (fun a b => x a <= x b) line.
Proof.
  assert (N : textItems ex_page_row <> []) by (intro H; discriminate H).
  split; [reflexivity|]. split; [exact N|].
  exact (X19_same_height_one_line ex_opts ex_page_row eq_refl N
           ex_page_row_same_height).
Defined.

(* ------------------------------------------------------------------ *)
(** * Double precision: rounding and the order of the engine *)

(** ** The sign of a double *)

Lemma ltb_sgn v : (v <? 0)%float = true <-> sgn v = Some Lt.
Proof.
  rewrite ltb_spec. unfold SFltb, sgn.
  change (Prim2SF 0) with (S754_zero false).
  destruct (SFcompare (Prim2SF v) (S754_zero false)) as [[| |]|];
    split; intro H; try reflexivity; discriminate H.
Qed.

Lemma eqb_sgn v : (v =? 0)%float = true <-> sgn v = Some Eq.
Proof.
  rewrite eqb_spec. unfold SFeqb, sgn.
  change (Prim2SF 0) with (S754_zero false).
  destruct (SFcompare (Prim2SF v) (S754_zero false)) as [[| |]|];
    split; intro H; try reflexivity; discriminate H.
Qed.

Lemma gtb_sgn v : (0 <? v)%float = true <-> sgn v = Some Gt.
Proof.
  rewrite ltb_spec. unfold SFltb, sgn.
  change (Prim2SF 0) with (S754_zero false).
  destruct (Prim2SF v) as [s|s| |s m e]; try destruct s; cbn;
    split; intro H; try reflexivity; discriminate H.
Qed.

Lemma SFeqb_refl_finite s m e :
  SFeqb (S754_finite s m e) (S754_finite s m e) = true.
Proof.
  unfold SFeqb, SFcompare. rewrite Z.compare_refl.
  replace (PosDef.Pos.compare_cont Eq m m) with Eq
    by (symmetry; apply Pos.compare_cont_refl).
  now destruct s.
Qed.

Lemma nan_sgn v : is_nan v = false <-> sgn v <> None.
Proof.
  unfold is_nan, sgn. rewrite eqb_spec.
  destruct (Prim2SF v) as [s|s| |s m e].
  - split; [intros _ H; discriminate H | reflexivity].
  - destruct s; (split; [intros _ H; discriminate H | reflexivity]).
  - split; [intro H; discriminate H | intro H; now contradiction H].
  - rewrite SFeqb_refl_finite.
    split; [intros _ H; destruct s; discriminate H | reflexivity].
Qed.

(** ** Finite numbers and their differences *)

Lemma is_finite_sf v : is_finite v = true -> finite_sf (Prim2SF v).
Proof.
  unfold is_finite, is_nan, is_infinity. rewrite !eqb_spec, abs_spec.
  change (Prim2SF infinity) with (S754_infinity false).
  destruct (Prim2SF v) as [s|s| |s m e]; cbn; try exact (fun _ => I);
    intro H; try discriminate H.
  destruct s; cbn in H; try discriminate H.
  all: rewrite ?orb_true_r in H; discriminate H.
Qed.

(** ** Rounding keeps the sign *)

Lemma iter_pos_inv {A} (P : A -> Prop) (f : A -> A) :
  (forall a, P a -> P (f a)) -> forall p a, P a -> P (SpecFloat.iter_pos f p a).
Proof.
  intro Hf. induction p as [p IH|p IH|]; intros a Ha; simpl; auto.
Qed.

Lemma shr_1_nonneg mrs : (0 <= shr_m mrs)%Z -> (0 <= shr_m (shr_1 mrs))%Z.
Proof.
  destruct mrs as [m r s]. simpl. destruct m as [|[p|p|]|[p|p|]]; simpl; lia.
Qed.

Lemma shr_nonneg mrs e n :
  (0 <= shr_m mrs)%Z -> (0 <= shr_m (fst (shr mrs e n)))%Z.
Proof.
  intro H. unfold shr. destruct n; simpl; auto.
  apply iter_pos_inv; auto. apply shr_1_nonneg.
Qed.

Lemma shr_record_of_loc_m m l : shr_m (shr_record_of_loc m l) = m.
Proof. destruct l as [|[| |]]; reflexivity. Qed.

Lemma shr_fexp_nonneg prec emax m e l :
  (0 <= m)%Z -> (0 <= shr_m (fst (shr_fexp prec emax m e l)))%Z.
Proof.
  intro H. unfold shr_fexp. apply shr_nonneg. now rewrite shr_record_of_loc_m.
Qed.

Lemma round_nearest_even_nonneg m l :
  (0 <= m)%Z -> (0 <= round_nearest_even m l)%Z.
Proof.
  intro H. unfold round_nearest_even. destruct l as [|[| |]]; try lia.
  destruct (Z.even m); lia.
Qed.

Lemma binary_round_aux_sign prec emax s m e l :
  (0 <= m)%Z -> signed_as s (binary_round_aux prec emax s m e l).
Proof.
  intro H. unfold binary_round_aux.
  pose proof (shr_fexp_nonneg prec emax m e l H) as H1.
  destruct (shr_fexp prec emax m e l) as [mrs' e']. simpl in H1.
  pose proof (shr_fexp_nonneg prec emax _ e' loc_Exact
                (round_nearest_even_nonneg (shr_m mrs') (loc_of_shr_record mrs') H1)) as H2.
  destruct (shr_fexp prec emax _ e' loc_Exact) as [mrs'' e'']. simpl in H2.
  destruct (shr_m mrs'') as [|p|p]; [constructor | | lia].
  destruct (Z.leb e'' (emax - prec)); constructor.
Qed.

Lemma binary_round_aux_opp prec emax m e l :
  binary_round_aux prec emax true m e l = SFopp (binary_round_aux prec emax false m e l).
Proof.
  unfold binary_round_aux.
  destruct (shr_fexp prec emax m e l) as [mrs' e'].
  destruct (shr_fexp prec emax _ e' loc_Exact) as [mrs'' e''].
  destruct (shr_m mrs''); try reflexivity.
  destruct (Z.leb e'' (emax - prec)); reflexivity.
Qed.

Lemma binary_round_opp prec emax m e :
  binary_round prec emax true m e = SFopp (binary_round prec emax false m e).
Proof.
  unfold binary_round. destruct (shl_align m e _) as [mz ez].
  apply binary_round_aux_opp.
Qed.

Lemma binary_normalize_opp prec emax m e :
  m <> 0%Z ->
  binary_normalize prec emax (- m) e false = SFopp (binary_normalize prec emax m e false).
Proof.
  intro H. destruct m as [|p|p]; [congruence| |]; simpl.
  - apply binary_round_opp.
  - rewrite binary_round_opp. now destruct (binary_round prec emax false p e) as [[]|[]| |[]].
Qed.

Lemma SFsub_swap prec emax a b :
  (is_zero_sf (SFsub prec emax a b) /\ is_zero_sf (SFsub prec emax b a))
  \/ SFsub prec emax b a = SFopp (SFsub prec emax a b).
Proof.
  destruct a as [sa|sa| |sa ma ea]; destruct b as [sb|sb| |sb mb eb];
    try (right; reflexivity);
    try (destruct sa, sb; simpl; auto; fail).
  - unfold SFsub. rewrite (Z.min_comm eb ea).
    set (ez := Z.min ea eb).
    set (A := cond_Zopp sa (Z.pos (fst (shl_align ma ea ez)))).
    set (B := cond_Zopp sb (Z.pos (fst (shl_align mb eb ez)))).
    destruct (Z.eq_dec (A - B) 0) as [E|E].
    + left. replace (B - A)%Z with 0%Z by lia. rewrite E. simpl. auto.
    + right. replace (B - A)%Z with (- (A - B))%Z by lia.
      now apply binary_normalize_opp.
Qed.

Lemma abs_sub_sym (a b : float) : abs (a - b) = abs (b - a).
Proof.
  apply Prim2SF_inj. rewrite !abs_spec, !sub_spec. unfold SF64sub.
  destruct (SFsub_swap prec emax (Prim2SF a) (Prim2SF b)) as [[Z1 Z2]|E].
  - destruct (SFsub prec emax (Prim2SF a) (Prim2SF b)); try contradiction.
    destruct (SFsub prec emax (Prim2SF b) (Prim2SF a)); try contradiction.
    reflexivity.
  - rewrite E. now destruct (SFsub prec emax (Prim2SF a) (Prim2SF b)).
Qed.

Lemma binary_round_sign prec emax s m e :
  signed_as s (binary_round prec emax s m e).
Proof.
  unfold binary_round. destruct (shl_align m e _) as [mz ez].
  apply binary_round_aux_sign. lia.
Qed.

Lemma binary_normalize_not_nan prec emax m e :
  binary_normalize prec emax m e false <> S754_nan.
Proof.
  destruct m as [|p|p]; cbn; [intro H; discriminate H | |];
    (match goal with
     | |- binary_round ?pr ?em ?s ?m ?e <> _ =>
         destruct (binary_round_sign pr em s m e); intro H; discriminate H
     end).
Qed.

Lemma SFsub_finite_not_nan prec emax a b :
  finite_sf a -> finite_sf b -> SFsub prec emax a b <> S754_nan.
Proof.
  destruct a as [sa|sa| |sa ma ea]; destruct b as [sb|sb| |sb mb eb];
    cbn [finite_sf]; try contradiction; intros _ _.
  - destruct sa, sb; intro H; discriminate H.
  - intro H; discriminate H.
  - intro H; discriminate H.
  - apply binary_normalize_not_nan.
Qed.

Lemma SFcompare_eq_finite s1 m1 e1 s2 m2 e2 :
  SFcompare (S754_finite s1 m1 e1) (S754_finite s2 m2 e2) = Some Eq ->
  s1 = s2 /\ m1 = m2 /\ e1 = e2.
Proof.
  cbn. destruct s1, s2; try (intro H; discriminate H);
    destruct (Z.compare_spec e1 e2) as [E|E|E];
    try (intro H; discriminate H); intro H; injection H as H.
  - apply (f_equal CompOpp) in H. rewrite CompOpp_involutive in H. cbn in H.
    apply (Pos.compare_eq m1 m2) in H. now subst.
  - apply (Pos.compare_eq m1 m2) in H. now subst.
Qed.

Lemma SFsub_eq_zero prec emax a b :
  finite_sf a -> finite_sf b -> SFeqb a b = true ->
  is_zero_sf (SFsub prec emax b a).
Proof.
  unfold SFeqb.
  destruct a as [sa|sa| |sa ma ea]; destruct b as [sb|sb| |sb mb eb];
    cbn [finite_sf]; try contradiction; intros _ _.
  - intros _. now destruct sa, sb.
  - cbn. destruct sb; intro H; discriminate H.
  - cbn. destruct sa; intro H; discriminate H.
  - destruct (SFcompare (S754_finite sa ma ea) (S754_finite sb mb eb))
      as [[| |]|] eqn:E; try (intro H; discriminate H). intros _.
    apply SFcompare_eq_finite in E. destruct E as (-> & -> & ->).
    unfold SFsub. rewrite Z.sub_diag. exact I.
Qed.

Lemma SFcompare_opp v :
  SFcompare (SFopp v) (S754_zero false)
  = option_map CompOpp (SFcompare v (S754_zero false)).
Proof. destruct v as [s|s| |s m e]; try destruct s; reflexivity. Qed.

Lemma SFabs_sub_zero_r prec emax a s :
  SFabs (SFsub prec emax a (S754_zero s))
  = SFabs (SFsub prec emax a (S754_zero false)).
Proof. destruct a as [sa|sa| |sa ma ea]; try destruct sa; now destruct s. Qed.

Lemma SFabs_sub_zero_l prec emax s b :
  SFabs (SFsub prec emax (S754_zero s) b)
  = SFabs (SFsub prec emax (S754_zero false) b).
Proof. destruct b as [sb|sb| |sb mb eb]; try destruct sb; now destruct s. Qed.

(** ** Differences of doubles *)

(** Swapping the operands of a difference swaps its sign. *)
Lemma sgn_sub_swap (a b : float) :
  sgn (b - a) = option_map CompOpp (sgn (a - b)).
Proof.
  unfold sgn. rewrite !sub_spec. unfold SF64sub.
  destruct (SFsub_swap prec emax (Prim2SF a) (Prim2SF b)) as [[Z1 Z2]|E].
  - destruct (SFsub prec emax (Prim2SF a) (Prim2SF b)); try contradiction.
    destruct (SFsub prec emax (Prim2SF b) (Prim2SF a)); try contradiction.
    reflexivity.
  - rewrite E. apply SFcompare_opp.
Qed.

(** The difference of two finite numbers is a number. *)
Lemma sgn_sub_finite (a b : float) :
  is_finite a = true -> is_finite b = true -> sgn (a - b) <> None.
Proof.
  intros Ha Hb. apply is_finite_sf in Ha, Hb. unfold sgn.
  rewrite sub_spec. unfold SF64sub.
  pose proof (SFsub_finite_not_nan prec emax _ _ Ha Hb) as N.
  destruct (SFsub prec emax (Prim2SF a) (Prim2SF b)) as [s|s| |s m e];
    try destruct s; cbn; try (intro H; discriminate H). now contradiction N.
Qed.

(** The difference of two equal finite numbers is zero. *)
Lemma abs_sub_eq (a b : float) :
  is_finite a = true -> is_finite b = true -> (a =? b)%float = true ->
  abs (b - a) = 0%float.
Proof.
  intros Ha Hb E. apply is_finite_sf in Ha, Hb. rewrite eqb_spec in E.
  apply Prim2SF_inj. rewrite abs_spec, sub_spec. unfold SF64sub.
  pose proof (SFsub_eq_zero prec emax _ _ Ha Hb E) as Z.
  destruct (SFsub prec emax (Prim2SF b) (Prim2SF a)); try contradiction.
  reflexivity.
Qed.

Lemma eqb_refl_finite (a : float) : is_finite a = true -> (a =? a)%float = true.
Proof.
  unfold is_finite, is_nan. destruct (a =? a)%float; [reflexivity|].
  intro H; discriminate H.
Qed.

Lemma sgn_sub_self (a : float) : is_finite a = true -> sgn (a - a) = Some Eq.
Proof.
  intro Ha. pose proof (abs_sub_eq a a Ha Ha (eqb_refl_finite a Ha)) as E.
  apply (f_equal Prim2SF) in E. rewrite abs_spec in E. unfold sgn.
  destruct (Prim2SF (a - a)); try discriminate E. reflexivity.
Qed.

Lemma eqb_ltb_false (v w : float) :
  (v =? w)%float = true -> (v <? w)%float = false.
Proof.
  rewrite eqb_spec, ltb_spec. unfold SFeqb, SFltb.
  destruct (SFcompare (Prim2SF v) (Prim2SF w)) as [[| |]|];
    try (intro H; discriminate H). reflexivity.
Qed.

(** ** Map keys *)

Lemma map_key_zero (k : float) :
  (k =? 0)%float = true -> exists s, Prim2SF k = S754_zero s.
Proof.
  rewrite eqb_spec. unfold SFeqb. change (Prim2SF 0) with (S754_zero false).
  destruct (Prim2SF k) as [s|s| |s m e]; try destruct s; cbn;
    try (intro H; discriminate H); intros _; eexists; reflexivity.
Qed.

Lemma abs_sub_map_key_r (a k : float) :
  abs (a - Double.map_key k) = abs (a - k).
Proof.
  unfold Double.map_key. destruct (k =? 0)%float eqn:E; [|reflexivity].
  destruct (map_key_zero k E) as [s Hs].
  apply Prim2SF_inj. rewrite !abs_spec, !sub_spec, Hs. unfold SF64sub.
  change (Prim2SF 0) with (S754_zero false). symmetry.
  apply SFabs_sub_zero_r.
Qed.

Lemma abs_sub_map_key_l (k b : float) :
  abs (Double.map_key k - b) = abs (k - b).
Proof.
  unfold Double.map_key. destruct (k =? 0)%float eqn:E; [|reflexivity].
  destruct (map_key_zero k E) as [s Hs].
  apply Prim2SF_inj. rewrite !abs_spec, !sub_spec, Hs. unfold SF64sub.
  change (Prim2SF 0) with (S754_zero false). symmetry.
  apply SFabs_sub_zero_l.
Qed.

Lemma SFeqb_zero_r a s : SFeqb a (S754_zero s) = SFeqb a (S754_zero false).
Proof. now destruct a. Qed.

Lemma eqb_map_key (a b : float) :
  (Double.map_key a =? Double.map_key b)%float = (a =? b)%float.
Proof.
  unfold Double.map_key.
  destruct (a =? 0)%float eqn:Ea; destruct (b =? 0)%float eqn:Eb;
    try reflexivity; rewrite !eqb_spec;
    try (destruct (map_key_zero a Ea) as [sa ->]);
    try (destruct (map_key_zero b Eb) as [sb ->]);
    change (Prim2SF 0) with (S754_zero false).
  - reflexivity.
  - reflexivity.
  - symmetry. apply SFeqb_zero_r.
Qed.

(** ** Exactly one sign *)

Lemma not_below_and_equal (v : float) :
  (v <? 0)%float = true -> (v =? 0)%float = true -> False.
Proof. rewrite ltb_sgn, eqb_sgn. intros H1 H2. congruence. Qed.

Lemma not_above_and_equal (v : float) :
  (0 <? v)%float = true -> (v =? 0)%float = true -> False.
Proof. rewrite gtb_sgn, eqb_sgn. intros H1 H2. congruence. Qed.

Lemma below_equal_or_above (v : float) :
  is_nan v = false ->
  (v <? 0)%float = true \/ (v =? 0)%float = true \/ (0 <? v)%float = true.
Proof.
  rewrite nan_sgn, ltb_sgn, eqb_sgn, gtb_sgn.
  destruct (sgn v) as [[| |]|]; intro H; auto. now contradiction H.
Qed.

(** ** The order of a consistent comparator *)

Section Consistent.
Context {A : Type} (cmp : A -> A -> float) (l : list A).
Hypothesis cmp_consistent : Double.consistent cmp l.

Lemma below_irrefl a : In a l -> (cmp a a <? 0)%float = false.
Proof.
  intro Ha. destruct cmp_consistent as (_ & R & _).
  destruct (cmp a a <? 0)%float eqn:E; [|reflexivity].
  exfalso. exact (not_below_and_equal _ E (R a Ha)).
Qed.

Lemma below_asym a b :
  In a l -> In b l ->
  (cmp a b <? 0)%float = true -> (cmp b a <? 0)%float = false.
Proof.
  intros Ha Hb L. destruct cmp_consistent as (_ & _ & _ & _ & T & _).
  destruct (cmp b a <? 0)%float eqn:E; [|reflexivity].
  pose proof (T a b a Ha Hb Ha L E) as C.
  rewrite (below_irrefl a Ha) in C. discriminate C.
Qed.

Lemma above_of_below a b :
  In a l -> In b l ->
  (cmp a b <? 0)%float = true -> (0 <? cmp b a)%float = true.
Proof.
  intros Ha Hb L. pose proof cmp_consistent as (N & _ & S & _).
  destruct (below_equal_or_above _ (N b a Hb Ha)) as [C|[C|C]].
  - rewrite (below_asym a b Ha Hb L) in C. discriminate C.
  - exfalso. exact (not_below_and_equal _ L (S b a Hb Ha C)).
  - exact C.
Qed.

Lemma below_of_above a b :
  In a l -> In b l ->
  (0 <? cmp a b)%float = true -> (cmp b a <? 0)%float = true.
Proof.
  intros Ha Hb G. pose proof cmp_consistent as (N & R & S & _ & _ & Tg).
  destruct (below_equal_or_above _ (N b a Hb Ha)) as [C|[C|C]].
  - exact C.
  - exfalso. exact (not_above_and_equal _ G (S b a Hb Ha C)).
  - exfalso. exact (not_above_and_equal _ (Tg a b a Ha Hb Ha G C) (R a Ha)).
Qed.

(** Comparing equal to an element that compares below a third one. *)
Lemma equal_then_below a b c :
  In a l -> In b l -> In c l ->
  (cmp a b =? 0)%float = true -> (cmp a c <? 0)%float = true ->
  (cmp b c <? 0)%float = true.
Proof.
  intros Ha Hb Hc E L.
  pose proof cmp_consistent as (N & _ & S & Te & _ & Tg).
  destruct (below_equal_or_above _ (N b c Hb Hc)) as [C|[C|C]].
  - exact C.
  - exfalso. exact (not_below_and_equal _ L (Te a b c Ha Hb Hc E C)).
  - exfalso.
    pose proof (Tg b c a Hb Hc Ha C (above_of_below a c Ha Hc L)) as G.
    exact (not_above_and_equal _ G (S a b Ha Hb E)).
Qed.

Lemma stable_insert_In v acc w :
  In w (Double.stable_insert cmp v acc) -> w = v \/ In w acc.
Proof.
  induction acc as [|h t IH]; cbn [Double.stable_insert].
  - intros [<-|[]]. now left.
  - destruct (cmp v h <? 0)%float.
    + intros [<-|H]; [now left | now right].
    + intros [<-|H]; [right; now left|].
      destruct (IH H) as [->|Hw]; [now left | right; now right].
Qed.

Lemma stable_insert_sorted v acc :
  In v l -> incl acc l ->
  StronglySorted (placed cmp) acc ->
  StronglySorted (placed cmp) (Double.stable_insert cmp v acc).
Proof.
  intros Hv. induction acc as [|h t IH]; intros Hacc Hs;
    cbn [Double.stable_insert].
  - constructor; constructor.
  - assert (Hh : In h l) by (apply Hacc; now left).
    assert (Ht : incl t l) by (intros w Hw; apply Hacc; now right).
    inversion Hs as [|? ? Hst Hfa]; subst.
    destruct (cmp v h <? 0)%float eqn:E.
    + constructor; [exact Hs|]. constructor.
      * exact (below_asym v h Hv Hh E).
      * apply Forall_forall. intros q Hq. unfold placed.
        destruct (cmp q v <? 0)%float eqn:Q; [|reflexivity].
        destruct cmp_consistent as (_ & _ & _ & _ & T & _).
        pose proof (T q v h (Ht q Hq) Hv Hh Q E) as C.
        rewrite Forall_forall in Hfa. unfold placed in Hfa.
        rewrite (Hfa q Hq) in C. discriminate C.
    + constructor; [now apply IH|].
      apply Forall_forall. intros q Hq.
      destruct (stable_insert_In _ _ _ Hq) as [->|Hq']; [exact E|].
      rewrite Forall_forall in Hfa. now apply Hfa.
Qed.

Lemma stable_insert_incl v acc :
  In v l -> incl acc l -> incl (Double.stable_insert cmp v acc) l.
Proof.
  intros Hv Hacc w Hw.
  destruct (stable_insert_In _ _ _ Hw) as [->|H]; [exact Hv | now apply Hacc].
Qed.

Lemma stable_fold_sorted items : forall acc,
  incl items l -> incl acc l -> StronglySorted (placed cmp) acc ->
  StronglySorted (placed cmp)
    (fold_left (fun acc v => Double.stable_insert cmp v acc) items acc).
Proof.
  induction items as [|v rest IH]; intros acc Hi Hacc Hs; cbn [fold_left].
  - exact Hs.
  - assert (Hv : In v l) by (apply Hi; now left).
    apply IH.
    + intros w Hw. apply Hi. now right.
    + now apply stable_insert_incl.
    + now apply stable_insert_sorted.
Qed.

(** Equal elements: the inserted one goes after those that were there. *)
Lemma stable_insert_filter u v acc :
  In u l -> In v l -> incl acc l ->
  StronglySorted (placed cmp) acc ->
  filter (fun w => (cmp u w =? 0)%float) (Double.stable_insert cmp v acc)
  = (filter (fun w => (cmp u w =? 0)%float) acc
       ++ filter (fun w => (cmp u w =? 0)%float) [v])%list.
Proof.
  intros Hu Hv. induction acc as [|h t IH]; intros Hacc Hs;
    cbn [Double.stable_insert].
  - reflexivity.
  - assert (Hh : In h l) by (apply Hacc; now left).
    assert (Ht : incl t l) by (intros w Hw; apply Hacc; now right).
    inversion Hs as [|? ? Hst Hfa]; subst.
    destruct (cmp v h <? 0)%float eqn:E.
    + cbn [filter]. destruct (cmp u v =? 0)%float eqn:Ev;
        [|now rewrite app_nil_r].
      assert (Z : filter (fun w => (cmp u w =? 0)%float) (h :: t) = []).
      { pose proof cmp_consistent as (_ & _ & S & Te & Tl & _).
        assert (Z : forall q, In q (h :: t) -> (cmp u q =? 0)%float = false).
        { intros q Hq. destruct (cmp u q =? 0)%float eqn:Eq; [|reflexivity].
          exfalso.
          assert (Hql : In q l) by now apply Hacc.
          assert (Evq : (cmp v q =? 0)%float = true)
            by exact (Te v u q Hv Hu Hql (S u v Hu Hv Ev) Eq).
          pose proof (equal_then_below v q h Hv Hql Hh Evq E) as L.
          destruct Hq as [->|Hq].
          - rewrite (below_irrefl q Hql) in L. discriminate L.
          - rewrite Forall_forall in Hfa. unfold placed in Hfa.
            rewrite (Hfa q Hq) in L. discriminate L. }
        clear - Z. induction (h :: t) as [|q r IHr]; [reflexivity|].
        cbn [filter]. rewrite (Z q (or_introl eq_refl)).
        apply IHr. intros w Hw. apply Z. now right. }
      cbn [filter] in Z. rewrite Z. reflexivity.
    + cbn [filter]. rewrite (IH Ht Hst).
      destruct (cmp u h =? 0)%float; reflexivity.
Qed.

Lemma stable_fold_filter u items : forall acc,
  In u l -> incl items l -> incl acc l -> StronglySorted (placed cmp) acc ->
  filter (fun w => (cmp u w =? 0)%float)
    (fold_left (fun acc v => Double.stable_insert cmp v acc) items acc)
  = (filter (fun w => (cmp u w =? 0)%float) acc
       ++ filter (fun w => (cmp u w =? 0)%float) items)%list.
Proof.
  induction items as [|v rest IH]; intros acc Hu Hi Hacc Hs; cbn [fold_left].
  - now rewrite app_nil_r.
  - assert (Hv : In v l) by (apply Hi; now left).
    rewrite IH.
    + rewrite (stable_insert_filter u v acc Hu Hv Hacc Hs).
      rewrite <- app_assoc. cbn [filter].
      destruct (cmp u v =? 0)%float; reflexivity.
    + exact Hu.
    + intros w Hw. apply Hi. now right.
    + now apply stable_insert_incl.
    + now apply stable_insert_sorted.
Qed.
End Consistent.

Lemma StronglySorted_split {A} (R : A -> A -> Prop) l1 u l2 v l3 :
  StronglySorted R (l1 ++ u :: l2 ++ v :: l3)%list -> R u v.
Proof.
  induction l1 as [|h t IH]; cbn [app]; intro H;
    inversion H as [|? ? Hs Hf]; subst.
  - rewrite Forall_forall in Hf. apply Hf. apply in_or_app. right. now left.
  - now apply IH.
Qed.

(** ** The stable insertion is a sort of the language *)

Lemma stable_insert_perm {A} (cmp : A -> A -> float) v l :
  Permutation (v :: l) (Double.stable_insert cmp v l).
Proof.
  induction l as [|h t IH]; cbn [Double.stable_insert]; [reflexivity|].
  destruct (cmp v h <? 0)%float; [reflexivity|].
  eapply Permutation_trans; [apply perm_swap|]. now constructor.
Qed.

Lemma stable_sort_permutes : Double.permutes Double.stable_sort.
Proof.
  intros A cmp l. unfold Double.stable_sort.
  assert (G : forall acc,
             Permutation (acc ++ l)%list
               (fold_left (fun acc v => Double.stable_insert cmp v acc) l acc)).
  { induction l as [|v rest IH]; intro acc; cbn [fold_left].
    - now rewrite app_nil_r.
    - eapply Permutation_trans; [|apply IH].
      eapply Permutation_trans; [apply Permutation_sym, Permutation_middle|].
      apply (Permutation_app_tail rest (stable_insert_perm cmp v acc)). }
  exact (G []).
Qed.

Lemma stable_sort_orders : Double.orders Double.stable_sort.
Proof.
  intros A cmp l Hc l1 u l2 v l3 E.
  assert (S : StronglySorted (placed cmp) (Double.stable_sort A cmp l)).
  { apply (stable_fold_sorted cmp l Hc);
      [apply incl_refl | intros w [] | constructor]. }
  rewrite E in S. exact (StronglySorted_split _ _ _ _ _ _ S).
Qed.

Lemma stable_sort_stable : Double.stable Double.stable_sort.
Proof.
  intros A cmp l Hc u Hu. unfold Double.stable_sort.
  rewrite (stable_fold_filter cmp l Hc u l [] Hu);
    [reflexivity | apply incl_refl | intros w [] | constructor].
Qed.

(** ** The anchors of the groups *)

Lemma push_to_group_keys yTol item groups groups' :
  Double.push_to_group yTol item groups = Some groups' ->
  map fst groups' = map fst groups.
Proof.
  revert groups'. induction groups as [|[k its] rest IH]; intros groups';
    cbn [Double.push_to_group]; [intro H; discriminate H|].
  destruct (abs (Double.y item - k) <? yTol)%float.
  - intro H. injection H as <-. reflexivity.
  - destruct (Double.push_to_group yTol item rest) as [rest'|];
      cbn [option_map]; intro H; [|discriminate H].
    injection H as <-. cbn [map fst]. now rewrite (IH rest' eq_refl).
Qed.

Lemma push_to_group_none yTol item groups :
  Double.push_to_group yTol item groups = None ->
  Forall (fun k => (abs (Double.y item - k) <? yTol)%float = false)
    (map fst groups).
Proof.
  induction groups as [|[k its] rest IH]; cbn [Double.push_to_group];
    [constructor|].
  destruct (abs (Double.y item - k) <? yTol)%float eqn:E;
    [intro H; discriminate H|].
  destruct (Double.push_to_group yTol item rest); cbn [option_map];
    [intro H; discriminate H|].
  intros _. constructor; [exact E | now apply IH].
Qed.

Lemma map_put_keys key v groups :
  map fst (Double.map_put key v groups) = map fst groups
  \/ map fst (Double.map_put key v groups) = (map fst groups ++ [key])%list.
Proof.
  induction groups as [|[k old] rest IH]; cbn [Double.map_put].
  - now right.
  - destruct (Double.same_value_zero k key); [now left|].
    cbn [map fst]. destruct IH as [->| ->]; [now left | now right].
Qed.

Lemma ForallOrdPairs_snoc {A} (R : A -> A -> Prop) l b :
  ForallOrdPairs R l -> Forall (fun a => R a b) l ->
  ForallOrdPairs R (l ++ [b])%list.
Proof.
  induction 1 as [|a l Fa _ IH]; intro F; cbn [app].
  - constructor; constructor.
  - inversion F as [|? ? Hab Hl]; subst. constructor; [|now apply IH].
    apply Forall_app. split; [exact Fa | now constructor].
Qed.

Lemma ForallOrdPairs_nth {A} (R : A -> A -> Prop) l :
  ForallOrdPairs R l ->
  forall i j a b, (i < j)%nat ->
    nth_error l i = Some a -> nth_error l j = Some b -> R a b.
Proof.
  induction 1 as [|h t Fh _ IH]; intros i j a b Hij Hi Hj.
  - destruct i; discriminate Hi.
  - destruct j as [|j]; [lia|]. cbn [nth_error] in Hj. destruct i as [|i].
    + injection Hi as <-. rewrite Forall_forall in Fh. apply Fh.
      eapply nth_error_In. exact Hj.
    + cbn [nth_error] in Hi. apply (IH i j); [lia | exact Hi | exact Hj].
Qed.

Lemma cluster_step_not_within yTol groups item :
  ForallOrdPairs (not_within yTol) (map fst groups) ->
  ForallOrdPairs (not_within yTol)
    (map fst (Double.cluster_step yTol groups item)).
Proof.
  intro H. unfold Double.cluster_step.
  destruct (Double.push_to_group yTol item groups) as [groups'|] eqn:E.
  - now rewrite (push_to_group_keys _ _ _ _ E).
  - unfold Double.map_set.
    destruct (map_put_keys (Double.map_key (Double.y item)) [item] groups)
      as [-> | ->]; [exact H|].
    apply ForallOrdPairs_snoc; [exact H|].
    eapply Forall_impl; [|exact (push_to_group_none _ _ _ E)].
    intros k Hk. unfold not_within. now rewrite abs_sub_map_key_l.
Qed.

Lemma cluster_not_within yTol items :
  ForallOrdPairs (not_within yTol) (map fst (Double.cluster yTol items)).
Proof.
  unfold Double.cluster.
  assert (G : forall groups,
             ForallOrdPairs (not_within yTol) (map fst groups) ->
             ForallOrdPairs (not_within yTol)
               (map fst (fold_left (Double.cluster_step yTol) items groups))).
  { induction items as [|item rest IH]; intros groups H; cbn [fold_left];
      [exact H|]. apply IH. now apply cluster_step_not_within. }
  apply G. constructor.
Qed.

(** ** Two fragments *)

Lemma is_nan_map_key (k : float) : is_nan (Double.map_key k) = is_nan k.
Proof. unfold is_nan. now rewrite eqb_map_key. Qed.

Lemma is_finite_not_nan (k : float) : is_finite k = true -> is_nan k = false.
Proof.
  unfold is_finite. destruct (is_nan k); [intro H; discriminate H|].
  reflexivity.
Qed.

Lemma cluster_pair yTol (p q : Double.TextItem) :
  Double.cluster yTol [p; q]
  = if (abs (Double.y q - Double.y p) <? yTol)%float
    then [(Double.map_key (Double.y p), [p; q])]
    else if Double.same_value_zero (Double.map_key (Double.y p))
              (Double.map_key (Double.y q))
         then [(Double.map_key (Double.y p), [q])]
         else [(Double.map_key (Double.y p), [p]);
               (Double.map_key (Double.y q), [q])].
Proof.
  unfold Double.cluster. cbn [fold_left].
  change (Double.cluster_step yTol [] p)
    with [(Double.map_key (Double.y p), [p])].
  unfold Double.cluster_step. cbn [Double.push_to_group].
  rewrite abs_sub_map_key_r.
  destruct (abs (Double.y q - Double.y p) <? yTol)%float; reflexivity.
Qed.

(** Two finite anchors that are not within a positive tolerance are two
    keys. *)
Lemma keys_differ yTol (p q : Double.TextItem) :
  (0 <? yTol)%float = true ->
  is_finite (Double.y p) = true -> is_finite (Double.y q) = true ->
  (abs (Double.y q - Double.y p) <? yTol)%float = false ->
  Double.same_value_zero (Double.map_key (Double.y p))
    (Double.map_key (Double.y q)) = false.
Proof.
  intros Hpos Hp Hq E.
  unfold Double.same_value_zero. rewrite eqb_map_key, !is_nan_map_key.
  rewrite (is_finite_not_nan _ Hp). cbn [andb]. rewrite orb_false_r.
  destruct (Double.y p =? Double.y q)%float eqn:Eq; [|reflexivity].
  rewrite (abs_sub_eq _ _ Hp Hq Eq), Hpos in E. discriminate E.
Qed.

Lemma Permutation_two {A} (a b : A) l :
  Permutation [a; b] l -> l = [a; b] \/ l = [b; a].
Proof. apply Permutation_length_2_inv. Qed.

Lemma Permutation_one {A} (a : A) l : Permutation [a] l -> l = [a].
Proof. apply Permutation_length_1_inv. Qed.

Section EnginePair.
Variable sort : Double.Sort.
Hypothesis sort_permutes : Double.permutes sort.

(** Within the tolerance: one row with both fragments. *)
Lemma lines_of_pair_close (opts : Double.Required_PdfExtractionOptions)
  (page : Double.PageLayoutData) (p q : Double.TextItem) :
  Double.sortedItems sort page = [p; q] ->
  (abs (Double.y q - Double.y p) <? Double.yTolerance opts)%float = true ->
  exists line,
    Double.lines sort opts page = [line] /\ Permutation [p; q] line.
Proof.
  intros Hs E. unfold Double.lines, Double.yGroups. rewrite Hs.
  rewrite cluster_pair, E. unfold Double.sortedYGroups.
  rewrite (Permutation_one _ _ (sort_permutes _ _ _)). cbn [map snd].
  eexists. split; [reflexivity|]. apply sort_permutes.
Qed.

(** Not within the tolerance: never one row with both fragments. *)
Lemma lines_of_pair_far (opts : Double.Required_PdfExtractionOptions)
  (page : Double.PageLayoutData) (p q : Double.TextItem) :
  Double.sortedItems sort page = [p; q] ->
  (abs (Double.y q - Double.y p) <? Double.yTolerance opts)%float = false ->
  ~ exists line,
      Double.lines sort opts page = [line] /\ Permutation [p; q] line.
Proof.
  intros Hs E (line & L & P). revert L.
  unfold Double.lines, Double.yGroups. rewrite Hs, cluster_pair, E.
  unfold Double.sortedYGroups.
  destruct (Double.same_value_zero _ _).
  - rewrite (Permutation_one _ _ (sort_permutes _ _ _)). cbn [map snd].
    unfold Double.sort_by_x.
    rewrite (Permutation_one _ _ (sort_permutes _ _ _)).
    intro L. injection L as <-. apply Permutation_length in P.
    discriminate P.
  - intro L. apply (f_equal (@List.length _)) in L.
    rewrite length_map in L.
    rewrite <- (Permutation_length (sort_permutes _ _ _)) in L.
    discriminate L.
Qed.

(** Not within a positive tolerance, finite anchors: a row each. *)
Lemma lines_of_pair_apart (opts : Double.Required_PdfExtractionOptions)
  (page : Double.PageLayoutData) (p q : Double.TextItem) :
  (0 <? Double.yTolerance opts)%float = true ->
  is_finite (Double.y p) = true -> is_finite (Double.y q) = true ->
  Double.sortedItems sort page = [p; q] ->
  (abs (Double.y q - Double.y p) <? Double.yTolerance opts)%float = false ->
  exists l1 l2,
    Double.lines sort opts page = [l1; l2]
    /\ Permutation [[p]; [q]] [l1; l2].
Proof.
  intros Hpos Hp Hq Hs E. unfold Double.lines, Double.yGroups.
  rewrite Hs, cluster_pair, E, (keys_differ _ p q Hpos Hp Hq E).
  unfold Double.sortedYGroups.
  destruct (Permutation_two _ _ _ (sort_permutes _
              (fun a b => (fst b - fst a)%float)
              [(Double.map_key (Double.y p), [p]);
               (Double.map_key (Double.y q), [q])])) as [-> | ->];
    cbn [map snd]; unfold Double.sort_by_x;
    rewrite !(Permutation_one _ _ (sort_permutes _ _ _));
    do 2 eexists; (split; [reflexivity|]);
    [reflexivity | apply perm_swap].
Qed.
End EnginePair.

Section EngineRows.
Variable sort : Double.Sort.
Hypothesis sort_permutes : Double.permutes sort.

(** The two fragments in the order of the page, whichever order the sort
    leaves them in. *)
Lemma lines_of_two_close (opts : Double.Required_PdfExtractionOptions)
  (page : Double.PageLayoutData) (a b : Double.TextItem) :
  Double.textItems page = [a; b] ->
  (exists line,
     Double.lines sort opts page = [line] /\ Permutation [a; b] line)
  <-> (abs (Double.y b - Double.y a) <? Double.yTolerance opts)%float = true.
Proof.
  intro Hp.
  pose proof (sort_permutes _ Double.compareItems (Double.textItems page))
    as P.
  fold (Double.sortedItems sort page) in P. rewrite Hp in P.
  destruct (Permutation_two _ _ _ P) as [E|E].
  - destruct (abs (Double.y b - Double.y a) <? Double.yTolerance opts)%float
      eqn:C.
    + split; [reflexivity|]. intros _.
      exact (lines_of_pair_close sort sort_permutes opts page a b E C).
    + split; [|intro H; discriminate H]. intro H. exfalso.
      exact (lines_of_pair_far sort sort_permutes opts page a b E C H).
  - rewrite (abs_sub_sym (Double.y b) (Double.y a)).
    destruct (abs (Double.y a - Double.y b) <? Double.yTolerance opts)%float
      eqn:C.
    + split; [reflexivity|]. intros _.
      destruct (lines_of_pair_close sort sort_permutes opts page b a E C)
        as (line & H1 & H2).
      exists line. split; [exact H1|].
      eapply Permutation_trans; [apply perm_swap | exact H2].
    + split; [|intro H; discriminate H]. intros (line & H1 & H2). exfalso.
      apply (lines_of_pair_far sort sort_permutes opts page b a E C).
      exists line. split; [exact H1|].
      eapply Permutation_trans; [apply perm_swap | exact H2].
Qed.

Lemma lines_of_two_apart (opts : Double.Required_PdfExtractionOptions)
  (page : Double.PageLayoutData) (a b : Double.TextItem) :
  Double.textItems page = [a; b] ->
  (0 <? Double.yTolerance opts)%float = true ->
  is_finite (Double.y a) = true -> is_finite (Double.y b) = true ->
  (abs (Double.y b - Double.y a) <? Double.yTolerance opts)%float = false ->
  exists l1 l2,
    Double.lines sort opts page = [l1; l2]
    /\ Permutation [[a]; [b]] [l1; l2].
Proof.
  intros Hp Hpos Ha Hb C.
  pose proof (sort_permutes _ Double.compareItems (Double.textItems page))
    as P.
  fold (Double.sortedItems sort page) in P. rewrite Hp in P.
  destruct (Permutation_two _ _ _ P) as [E|E].
  - exact (lines_of_pair_apart sort sort_permutes opts page a b
             Hpos Ha Hb E C).
  - rewrite (abs_sub_sym (Double.y b) (Double.y a)) in C.
    destruct (lines_of_pair_apart sort sort_permutes opts page b a
                Hpos Hb Ha E C) as (l1 & l2 & H1 & H2).
    exists l1, l2. split; [exact H1|].
    eapply Permutation_trans; [apply perm_swap | exact H2].
Qed.

(** C2, as the code has it. On a page of exactly two fragments, the two
    fragments are in the same row if and only if the difference of their y
    as the program computes it, rounded to a double, is in absolute value
    strictly less than [yTolerance]. With [yTolerance > 0] and finite y,
    each fragment is otherwise a row of its own, in particular when the
    computed difference equals [yTolerance]. *)
Theorem C2_two_fragments_same_row
  (opts : Double.Required_PdfExtractionOptions)
  (page : Double.PageLayoutData) (a b : Double.TextItem) :
  Double.textItems page = [a; b] ->
  let rows := Double.lines sort opts page in
  let d := abs (Double.y b - Double.y a) in
  ((exists line, rows = [line] /\ Permutation [a; b] line)
   <-> (d <? Double.yTolerance opts)%float = true)
  /\ ((0 <? Double.yTolerance opts)%float = true ->
      is_finite (Double.y a) = true -> is_finite (Double.y b) = true ->
      ((d <? Double.yTolerance opts)%float = false ->
       exists l1 l2, rows = [l1; l2] /\ Permutation [[a]; [b]] [l1; l2])
      /\ ((d =? Double.yTolerance opts)%float = true ->
          exists l1 l2, rows = [l1; l2] /\ Permutation [[a]; [b]] [l1; l2])).
Proof.
  intros Hp rows d. split; [now apply lines_of_two_close|].
  intros Hpos Ha Hb.
  assert (F : (d <? Double.yTolerance opts)%float = false ->
              exists l1 l2,
                rows = [l1; l2] /\ Permutation [[a]; [b]] [l1; l2])
    by now apply lines_of_two_apart.
  split; [exact F|]. intro Q. apply F. now apply eqb_ltb_false.
Qed.
End EngineRows.

(** C10, as the code has it. On every page, after clustering, the anchors
    of two distinct groups are not within the tolerance of each other as
    the program measures it: their difference rounded to a double is in
    absolute value not strictly less than [yTolerance]. *)
Theorem C10_anchors_not_within (sort : Double.Sort)
  (opts : Double.Required_PdfExtractionOptions)
  (page : Double.PageLayoutData) (i j : nat)
  (g1 g2 : float * list Double.TextItem) :
  i <> j ->
  nth_error (Double.yGroups sort opts page) i = Some g1 ->
  nth_error (Double.yGroups sort opts page) j = Some g2 ->
  (abs (fst g1 - fst g2) <? Double.yTolerance opts)%float = false.
Proof.
  intros Hij H1 H2.
  pose proof (cluster_not_within (Double.yTolerance opts)
                (Double.sortedItems sort page)) as F.
  fold (Double.yGroups sort opts page) in F.
  apply (map_nth_error fst) in H1, H2.
  destruct (Nat.lt_total i j) as [L|[E|L]]; [| contradiction |].
  - rewrite abs_sub_sym.
    exact (ForallOrdPairs_nth _ _ F i j _ _ L H1 H2).
  - exact (ForallOrdPairs_nth _ _ F j i _ _ L H2 H1).
Qed.

(** ** The comparator of the initial sort *)

Lemma sgn_compareItems_swap (p q : Double.TextItem) :
  sgn (Double.compareItems q p)
  = option_map CompOpp (sgn (Double.compareItems p q)).
Proof.
  unfold Double.compareItems. cbv zeta.
  rewrite (abs_sub_sym (Double.y p) (Double.y q)).
  destruct (abs (Double.y q - Double.y p) <? 10)%float; apply sgn_sub_swap.
Qed.

Lemma sgn_compareItems_self (p : Double.TextItem) :
  Double.finite_item p -> sgn (Double.compareItems p p) = Some Eq.
Proof.
  intros [Hx Hy]. unfold Double.compareItems. cbv zeta.
  rewrite (abs_sub_eq _ _ Hy Hy (eqb_refl_finite _ Hy)).
  change (0 <? 10)%float with true. cbv iota. now apply sgn_sub_self.
Qed.

Lemma sgn_compareItems_finite (p q : Double.TextItem) :
  Double.finite_item p -> Double.finite_item q ->
  sgn (Double.compareItems p q) <> None.
Proof.
  intros [Hxp Hyp] [Hxq Hyq]. unfold Double.compareItems. cbv zeta.
  destruct (abs (Double.y q - Double.y p) <? 10)%float;
    now apply sgn_sub_finite.
Qed.

(** On two elements, a comparator with opposite results for opposite calls
    is consistent. *)
Lemma consistent_pair {A} (cmp : A -> A -> float) (a b : A) :
  sgn (cmp a a) = Some Eq -> sgn (cmp b b) = Some Eq ->
  sgn (cmp a b) <> None ->
  sgn (cmp b a) = option_map CompOpp (sgn (cmp a b)) ->
  Double.consistent cmp [a; b].
Proof.
  intros Haa Hbb N Hba.
  destruct (sgn (cmp a b)) as [c|] eqn:Hab; [|now contradiction N].
  cbn [option_map] in Hba.
  unfold Double.consistent. repeat split; intros;
    repeat match goal with
           | H : In _ [_; _] |- _ => destruct H as [<-|[<-|[]]]
           end;
    rewrite ?nan_sgn, ?eqb_sgn, ?ltb_sgn, ?gtb_sgn in *;
    destruct c; cbn [CompOpp] in *; congruence.
Qed.

Lemma compareItems_consistent (a b : Double.TextItem) :
  Double.finite_item a -> Double.finite_item b ->
  Double.consistent Double.compareItems [a; b].
Proof.
  intros Ha Hb. apply consistent_pair.
  - now apply sgn_compareItems_self.
  - now apply sgn_compareItems_self.
  - now apply sgn_compareItems_finite.
  - apply sgn_compareItems_swap.
Qed.

Section EngineOrder.
Variable sort : Double.Sort.
Hypothesis sort_permutes : Double.permutes sort.
Hypothesis sort_orders : Double.orders sort.
Hypothesis sort_stable : Double.stable sort.

(** Two elements under a consistent comparator: the second one goes first
    exactly when it compares below the first one. *)
Lemma sort_pair {A} (cmp : A -> A -> float) (a b : A) :
  Double.consistent cmp [a; b] ->
  sort A cmp [a; b] = if (cmp b a <? 0)%float then [b; a] else [a; b].
Proof.
  intro Hc.
  assert (Ia : In a [a; b]) by now left.
  assert (Ib : In b [a; b]) by (right; now left).
  destruct (cmp b a <? 0)%float eqn:E.
  - destruct (Permutation_two _ _ _ (sort_permutes A cmp [a; b])) as [P|P];
      [|exact P].
    pose proof (sort_orders A cmp [a; b] Hc [] a [] b [] P) as C.
    rewrite E in C. discriminate C.
  - pose proof Hc as (N & _).
    destruct (below_equal_or_above _ (N a b Ia Ib)) as [C|[C|C]].
    + destruct (Permutation_two _ _ _ (sort_permutes A cmp [a; b])) as [P|P];
        [exact P|].
      pose proof (sort_orders A cmp [a; b] Hc [] b [] a [] P) as C'.
      rewrite C in C'. discriminate C'.
    + pose proof (sort_stable A cmp [a; b] Hc a Ia) as S.
      destruct Hc as (_ & R & _).
      cbn [filter] in S. rewrite (R a Ia), C in S.
      destruct (Permutation_two _ _ _ (sort_permutes A cmp [a; b]))
        as [P|P]; [exact P|].
      rewrite P in S. cbn [filter] in S. rewrite (R a Ia), C in S.
      now rewrite P.
    + rewrite (below_of_above cmp [a; b] Hc a b Ia Ib C) in E. discriminate E.
Qed.

End EngineOrder.

(** ** Instances in double precision *)

Lemma C2_witness :
  Double.permutes Double.stable_sort
  /\ Double.textItems Double.ex_page_close
     = [Double.fragment "upper" 0 Double.d0_7;
        Double.fragment "lower" 0 Double.d0_1]
  /\ ((exists line,
         Double.lines Double.stable_sort Double.ex_opts Double.ex_page_close
         = [line]
         /\ Permutation
              [Double.fragment "upper" 0 Double.d0_7;
               Double.fragment "lower" 0 Double.d0_1] line)
      <-> (abs (Double.d0_1 - Double.d0_7)
           <? Double.yTolerance Double.ex_opts)%float = true).
Proof.
  split; [exact stable_sort_permutes|]. split; [reflexivity|].
  exact (proj1
           (C2_two_fragments_same_row Double.stable_sort stable_sort_permutes
              Double.ex_opts Double.ex_page_close
              (Double.fragment "upper" 0 Double.d0_7)
              (Double.fragment "lower" 0 Double.d0_1) eq_refl)).
Defined.

(** Two fragments whose y are less than the tolerance apart, in two rows:
    the doubles nearest to 0.7 and 0.1 are less than the double nearest to
    0.6 apart, and their difference rounds to it. *)
Lemma C2_counterexample :
  Qabs (Double.exact Double.d0_1 - Double.exact Double.d0_7)
  < Double.exact (Double.yTolerance Double.ex_opts)
  /\ Double.lines Double.stable_sort Double.ex_opts Double.ex_page_close
     = [[Double.fragment "upper" 0 Double.d0_7];
        [Double.fragment "lower" 0 Double.d0_1]].
Proof. split; reflexivity. Qed.

Lemma C10_witness :
  0%nat <> 1%nat
  /\ nth_error
       (Double.yGroups Double.stable_sort Double.ex_opts Double.ex_page_close)
       0
     = Some (Double.d0_7, [Double.fragment "upper" 0 Double.d0_7])
  /\ nth_error
       (Double.yGroups Double.stable_sort Double.ex_opts Double.ex_page_close)
       1
     = Some (Double.d0_1, [Double.fragment "lower" 0 Double.d0_1])
  /\ (abs (Double.d0_7 - Double.d0_1) <? Double.yTolerance Double.ex_opts)%float
     = false.
Proof.
  assert (N : 0%nat <> 1%nat) by (intro H; discriminate H).
  split; [exact N|]. split; [reflexivity|]. split; [reflexivity|].
  exact (C10_anchors_not_within Double.stable_sort Double.ex_opts
           Double.ex_page_close 0 1
           (Double.d0_7, [Double.fragment "upper" 0 Double.d0_7])
           (Double.d0_1, [Double.fragment "lower" 0 Double.d0_1])
           N eq_refl eq_refl).
Defined.

(** Two groups whose anchors differ by less than the tolerance. *)
Lemma C10_counterexample :
  map fst
    (Double.yGroups Double.stable_sort Double.ex_opts Double.ex_page_close)
  = [Double.d0_7; Double.d0_1]
  /\ Qabs (Double.exact Double.d0_7 - Double.exact Double.d0_1)
     < Double.exact (Double.yTolerance Double.ex_opts).
Proof. split; reflexivity. Qed.


